(** * A shallow embedding of [dpll.py]

    The Python module decides satisfiability of a CNF formula with the
    classical DPLL loop: pure literal elimination ([ple]), unit propagation
    ([up]) and branching on the first literal of the first clause ([_dpll]).

    Python integers are unbounded, so literals are [Z].  A clause is a Python
    list of integers, a formula a list of clauses.  The variable [formula] of
    the source holds either such a list or the integer [-1] that
    [_make_literal_true] returns on a conflict; both are values of
    [pyformula].  Operations that Python rejects at run time (iterating over
    the integer [-1], indexing an empty list) raise the corresponding
    exception in the model.

    The interpreter's limit on the nesting of calls is not part of the
    model: there is no [RecursionError].  A run of the model is the run of
    the interpreter as long as the nesting of [_dpll], which the log of the
    run records and which never exceeds the number of variables of the
    formula, stays within that limit; beyond it the interpreter stops with
    [RecursionError] where the model goes on.  The run of the interpreter
    is thus the run of the model or an initial part of it, and what the
    theorems say of the calls made, of a returned value and of the two
    exceptions of the model holds of it.  The theorem on the verdict,
    which says that the search returns, bounds the number of variables. *)

From Stdlib Require Import ZArith List Bool Lia Arith Permutation Sorted.
From Stdlib Require Ascii String DecimalString DecimalPos.
Import ListNotations.
Import Ascii.AsciiSyntax String.StringSyntax.
Delimit Scope string_scope with string.
Delimit Scope char_scope with char.
Open Scope Z_scope.

(** ** Values, exceptions, outcomes *)

Abbreviation clause := (list Z) (only parsing).

Inductive pyformula : Type :=
| Clauses (cs : list clause)   (* a list of lists of ints *)
| Minus1.                      (* the int -1 *)

(** The second argument of [make_literals_true] is tested with
    [isinstance(literals, list)]. *)
Inductive pyliterals : Type :=
| One (literal : Z)
| Many (literals : list Z).

Inductive exn : Type :=
| TypeError     (* 'int' object is not iterable, unsupported operand *)
| IndexError.   (* list index out of range *)

(** Outcome of running a piece of the program.  [OutOfFuel] is an artefact
    of the model only: loops and the recursion are driven by a counter, and
    the termination theorems show that the counters chosen below never run
    out. *)
Inductive run (A : Type) : Type :=
| Ret (a : A)
| Raise (e : exn)
| OutOfFuel.

Arguments Ret {A} a.
Arguments Raise {A} e.
Arguments OutOfFuel {A}.

Definition bind {A B : Type} (m : run A) (k : A -> run B) : run B :=
  match m with
  | Ret a => k a
  | Raise e => Raise e
  | OutOfFuel => OutOfFuel
  end.

Declare Scope run_scope.
Delimit Scope run_scope with run.
Notation "x <- m ;; k" := (bind m (fun x => k))
  (at level 61, m at next level, right associativity) : run_scope.
Notation "' pat <- m ;; k" := (bind m (fun x => match x with pat => k end))
  (at level 61, pat pattern, m at next level, right associativity) : run_scope.
Open Scope run_scope.

(** ** Python list primitives *)

(** [x in xs] *)
Definition mem (x : Z) (xs : list Z) : bool := existsb (Z.eqb x) xs.

(** [xs.remove(x)]: deletes the first occurrence only.  The source calls it
    under the guard [x in xs], so the [ValueError] of a missing element
    cannot arise and is not modelled. *)
Fixpoint remove_first (x : Z) (xs : list Z) : list Z :=
  match xs with
  | [] => []
  | y :: ys => if y =? x then ys else y :: remove_first x ys
  end.

(** [xs[0]] *)
Definition index0 (xs : list Z) : run Z :=
  match xs with
  | [] => Raise IndexError
  | x :: _ => Ret x
  end.

(** [range(a, b)] *)
Definition range (a b : Z) : list Z :=
  map (fun k => a + Z.of_nat k) (seq 0 (Z.to_nat (b - a))).

(** [xs.sort(key=abs)]: Python's sort is stable, and a stable sort is
    determined by its input, so insertion sort that keeps equal keys in
    their original order computes the same list. *)
Fixpoint insert_by_abs (x : Z) (xs : list Z) : list Z :=
  match xs with
  | [] => [x]
  | y :: ys => if Z.abs x <=? Z.abs y then x :: y :: ys
               else y :: insert_by_abs x ys
  end.

Definition sort_by_abs (xs : list Z) : list Z :=
  fold_right insert_by_abs [] xs.

(** Truth value of a list ([if solution:], [if not formula:]). *)
Definition truthy {A : Type} (xs : list A) : bool :=
  match xs with [] => false | _ :: _ => true end.

(** [formula == -1] *)
Definition is_minus1 (formula : pyformula) : bool :=
  match formula with Minus1 => true | Clauses _ => false end.

(** [not formula]: an empty list is false, the int [-1] is true. *)
Definition not_formula (formula : pyformula) : bool :=
  match formula with Clauses [] => true | _ => false end.

(** ** count_literals

    [defaultdict(int)] keeps its keys in insertion order, and [ple] iterates
    over them, so the dictionary is an association list in first-seen
    order. *)

Definition counter := list (Z * Z).

(** [counts[literal] += 1] *)
Fixpoint incr (counts : counter) (literal : Z) : counter :=
  match counts with
  | [] => [(literal, 1)]
  | (k, n) :: rest =>
      if k =? literal then (k, n + 1) :: rest
      else (k, n) :: incr rest literal
  end.

(** [k in counts] (a membership test does not insert into a defaultdict) *)
Definition has_key (counts : counter) (k : Z) : bool :=
  existsb (fun kv => fst kv =? k) counts.

Definition keys (counts : counter) : list Z := map fst counts.

Definition count_literals (formula : pyformula) : run counter :=
  match formula with
  | Minus1 => Raise TypeError
  | Clauses cs =>
      Ret (fold_left (fun counts clause => fold_left incr clause counts) cs [])
  end.

(** ** _make_literal_true *)

(** The body of the loop [for clause in formula], with [new_formula] as the
    accumulator; [return -1] leaves the loop at once. *)
Fixpoint make_true_loop (cs : list clause) (literal : Z)
    (new_formula : list clause) : pyformula :=
  match cs with
  | [] => Clauses new_formula
  | clause :: rest =>
      if mem literal clause then make_true_loop rest literal new_formula
      else
        if mem (-1 * literal) clause then
          let new_clause := remove_first (-1 * literal) clause in
          if (length new_clause =? 0)%nat then Minus1
          else make_true_loop rest literal (new_formula ++ [new_clause])
        else make_true_loop rest literal (new_formula ++ [clause])
  end.

Definition _make_literal_true (formula : pyformula) (literal : Z)
    : run pyformula :=
  match formula with
  | Minus1 => Raise TypeError
  | Clauses cs => Ret (make_true_loop cs literal [])
  end.

(** ** make_literals_true *)

Fixpoint make_true_each (formula : pyformula) (literals : list Z)
    : run pyformula :=
  match literals with
  | [] => Ret formula
  | literal :: rest =>
      formula' <- _make_literal_true formula literal ;;
      make_true_each formula' rest
  end.

Definition make_literals_true (formula : pyformula) (literals : pyliterals)
    : run pyformula :=
  match literals with
  | One literal => _make_literal_true formula literal
  | Many ls => make_true_each formula ls
  end.

(** ** ple *)

Definition pure_literals_of (literal_counts : counter) : list Z :=
  filter (fun literal => negb (has_key literal_counts (-1 * literal)))
         (keys literal_counts).

Definition ple (formula : pyformula) : run (pyformula * list Z) :=
  literal_counts <- count_literals formula ;;
  let pure_literals := pure_literals_of literal_counts in
  formula' <- make_literals_true formula (Many pure_literals) ;;
  Ret (formula', pure_literals).

(** ** get_unit_clause *)

Fixpoint first_unit (cs : list clause) : option clause :=
  match cs with
  | [] => None
  | clause :: rest =>
      if (length clause =? 1)%nat then Some clause else first_unit rest
  end.

Definition get_unit_clause (formula : pyformula) : run (option clause) :=
  match formula with
  | Minus1 => Raise TypeError
  | Clauses cs => Ret (first_unit cs)
  end.

(** ** up *)

(** Number of clauses; the [while] loop of [up] drops at least the unit
    clause at each turn, so this many turns are enough ([up_course]). *)
Definition clause_count (formula : pyformula) : nat :=
  match formula with Clauses cs => length cs | Minus1 => O end.

(** One turn of [while unit_clause is not None] per unit of [fuel]. *)
Fixpoint up_loop (fuel : nat) (formula : pyformula) (valuation : list Z)
    (unit_clause : option clause) : run (pyformula * list Z) :=
  match unit_clause with
  | None => Ret (formula, valuation)
  | Some unit_clause =>
      match fuel with
      | O => OutOfFuel
      | S fuel' =>
          unique_literal <- index0 unit_clause ;;
          formula <- make_literals_true formula (One unique_literal) ;;
          let valuation := valuation ++ [unique_literal] in
          if is_minus1 formula then Ret (Minus1, [])
          else if not_formula formula then Ret (formula, valuation)
          else
            unit_clause <- get_unit_clause formula ;;
            up_loop fuel' formula valuation unit_clause
      end
  end.

Definition up (formula : pyformula) : run (pyformula * list Z) :=
  unit_clause <- get_unit_clause formula ;;
  up_loop (clause_count formula) formula [] unit_clause.

(** ** select_next_literal *)

(** [for clause in formula: return clause[0]]; falling off the end of the
    loop returns [None]. *)
Definition select_next_literal (formula : pyformula) : run (option Z) :=
  match formula with
  | Minus1 => Raise TypeError
  | Clauses [] => Ret None
  | Clauses (clause :: _) => x <- index0 clause ;; Ret (Some x)
  end.

(** [sign * literal] *)
Definition times (sign : Z) (literal : option Z) : run Z :=
  match literal with
  | None => Raise TypeError
  | Some l => Ret (sign * l)
  end.

(** ** _dpll

    The recursion is run together with a log of what it does: every
    invocation of [_dpll] with its arguments and its nesting depth, and
    every branching point with the simplified formula and the literal
    selected there.  The log does not influence the result. *)

Inductive event : Type :=
| Enter (depth : nat) (formula : pyformula) (valuation : list Z)
| Branch (depth : nat) (formula : pyformula) (literal : Z).

Definition traced (A : Type) : Type := (list event * run A)%type.

Definition tbind {A B : Type} (m : traced A) (k : A -> traced B) : traced B :=
  match m with
  | (log, Ret a) => let (log', r) := k a in (log ++ log', r)
  | (log, Raise e) => (log, Raise e)
  | (log, OutOfFuel) => (log, OutOfFuel)
  end.

Definition tell (e : event) : traced unit := ([e], Ret tt).
Definition quiet {A : Type} (r : run A) : traced A := ([], r).

Declare Scope traced_scope.
Delimit Scope traced_scope with traced.
Notation "x <- m ;; k" := (tbind m (fun x => k))
  (at level 61, m at next level, right associativity) : traced_scope.
Notation "' pat <- m ;; k" := (tbind m (fun x => match x with pat => k end))
  (at level 61, pat pattern, m at next level, right associativity)
  : traced_scope.

(** Total number of literal occurrences; each recursive call of [_dpll]
    receives a formula with fewer of them ([branch_size]), so one more than
    this number is enough fuel ([_dpll_fuel_enough]). *)
Definition size (formula : pyformula) : nat :=
  match formula with
  | Clauses cs => length (concat cs)
  | Minus1 => O
  end.

(** The loop [for sign in (1, -1)] is written out for its two turns. *)
Fixpoint _dpll_fuel (fuel depth : nat) (formula : pyformula)
    (valuation : list Z) : traced (list Z) :=
  match fuel with
  | O => ([], OutOfFuel)
  | S fuel' =>
      (_ <- tell (Enter depth formula valuation) ;;
       '(formula, pure_valuation) <- quiet (ple formula) ;;
       '(formula, unit_valuation) <- quiet (up formula) ;;
       let valuation := valuation ++ pure_valuation ++ unit_valuation in
       if is_minus1 formula then quiet (Ret [])
       else if not_formula formula then quiet (Ret valuation)
       else
         literal <- quiet (select_next_literal formula) ;;
         l1 <- quiet (times 1 literal) ;;
         _ <- tell (Branch depth formula l1) ;;
         formula1 <- quiet (make_literals_true formula (One l1)) ;;
         solution <- _dpll_fuel fuel' (S depth) formula1 (valuation ++ [l1]) ;;
         if truthy solution then quiet (Ret solution)
         else
           l2 <- quiet (times (-1) literal) ;;
           formula2 <- quiet (make_literals_true formula (One l2)) ;;
           solution <- _dpll_fuel fuel' (S depth) formula2
                         (valuation ++ [l2]) ;;
           if truthy solution then quiet (Ret solution)
           else quiet (Ret []))%traced
  end.

Definition _dpll_traced (formula : pyformula) (valuation : list Z)
    : traced (list Z) :=
  _dpll_fuel (S (size formula)) 0 formula valuation.

Definition _dpll (formula : pyformula) (valuation : list Z) : run (list Z) :=
  snd (_dpll_traced formula valuation).

(** ** dpll

    [parse_dimacs] reads the file; its result, the pair of the clause list
    and the declared number of variables, is the input here.  (For a file
    without a [p] line the number is [None]; the statements below are about
    files that declare it.) *)
Definition dpll (formula : list clause) (n_props : Z)
    : run (option (list Z)) :=
  solution <- _dpll (Clauses formula) [] ;;
  if negb (truthy solution) then Ret None
  else
    let solution :=
      filter (fun i => negb (mem i solution) && negb (mem (- i) solution))
             (range 1 (n_props + 1)) ++ solution in
    Ret (Some (sort_by_abs solution)).

(** ** Vocabulary of the statements *)

(** A total assignment gives a truth value to every variable; a positive
    literal is true when its variable is, a negative one when it is not. *)
Definition lit_true (v : Z -> bool) (l : Z) : bool :=
  if 0 <? l then v l else negb (v (- l)).

Definition clause_true (v : Z -> bool) (c : clause) : bool :=
  existsb (lit_true v) c.

Definition formula_true (v : Z -> bool) (cs : list clause) : bool :=
  forallb (clause_true v) cs.

(** The exhaustive check the solver is compared with: all sign choices for
    the variables [1..n], each tried against every clause. *)
Fixpoint assignments (n : nat) : list (list Z) :=
  match n with
  | O => [[]]
  | S k => flat_map (fun a => [Z.of_nat (S k) :: a; - Z.of_nat (S k) :: a])
                    (assignments k)
  end.

Definition satisfied_by (a : list Z) (cs : list clause) : bool :=
  forallb (fun c => existsb (fun l => mem l a) c) cs.

Definition brute_force (cs : list clause) (n_props : Z) : bool :=
  existsb (fun a => satisfied_by a cs) (assignments (Z.to_nat n_props)).

(** The sign choice for the variables [1..n] that a total assignment
    makes. *)
Fixpoint signs_of (m : Z -> bool) (n : nat) : list Z :=
  match n with
  | O => []
  | S k => (if m (Z.of_nat (S k)) then Z.of_nat (S k) else - Z.of_nat (S k))
             :: signs_of m k
  end.

(** All literal occurrences of a formula, its variables, and the variables
    that occur in both polarities (those on which a decision is still
    open: pure literal elimination settles the others). *)
Definition literals_of (cs : list clause) : list Z := concat cs.

Definition variables (cs : list clause) : list Z :=
  nodup Z.eq_dec (map Z.abs (literals_of cs)).

Definition undecided (cs : list clause) : list Z :=
  nodup Z.eq_dec
    (map Z.abs (filter (fun l => mem (- l) (literals_of cs)) (literals_of cs))).

(** What [_make_literal_true] leaves of a formula when no conflict arises:
    the clauses without [l], each with the first [-l] taken out. *)
Definition simplified (l : Z) (cs : list clause) : list clause :=
  map (remove_first (- l)) (filter (fun c => negb (mem l c)) cs).

(** The clauses of [cs] that contain none of the literals [ps]. *)
Definition without (ps : list Z) (cs : list clause) : list clause :=
  filter (fun c => negb (existsb (fun p => mem p c) ps)) cs.

(** The pure literals of a formula, as [ple] collects them. *)
Definition pures (cs : list clause) : list Z :=
  pure_literals_of
    (fold_left (fun counts clause => fold_left incr clause counts) cs []).

(** A clause holds one of the literals of an assignment given as a list. *)
Definition hits (solution : list Z) (c : clause) : Prop :=
  exists l, In l c /\ In l solution.

(** [cs'] is obtained from [cs] by dropping clauses and literals. *)
Definition refines (cs' cs : list clause) : Prop :=
  forall c', In c' cs' -> exists c, In c cs /\ incl c' c.

Definition event_depth (e : event) : nat :=
  match e with
  | Enter d _ _ => d
  | Branch d _ _ => d
  end.

Definition event_formula (e : event) : pyformula :=
  match e with
  | Enter _ f _ => f
  | Branch _ f _ => f
  end.

(** The course of unit propagation on a list of clauses: the literals it
    makes true, in order, and where it ends (a formula without unit clause,
    or [-1]). *)
Inductive propagates : list clause -> list Z -> pyformula -> Prop :=
| propagates_stop (cs : list clause) :
    first_unit cs = None -> propagates cs [] (Clauses cs)
| propagates_conflict (cs : list clause) (u : Z) :
    first_unit cs = Some [u] ->
    make_true_loop cs u [] = Minus1 ->
    propagates cs [u] Minus1
| propagates_step (cs : list clause) (u : Z) (cs1 : list clause)
    (us : list Z) (f : pyformula) :
    first_unit cs = Some [u] ->
    make_true_loop cs u [] = Clauses cs1 ->
    propagates cs1 us f ->
    propagates cs (u :: us) f.

Definition undecided_count (f : pyformula) : nat :=
  match f with
  | Clauses cs => length (undecided cs)
  | Minus1 => O
  end.

Definition variable_count (f : pyformula) : nat :=
  match f with
  | Clauses cs => length (variables cs)
  | Minus1 => O
  end.

(** What holds of a logged event when the run is free of conflicts at the
    branching points: [_dpll] is entered with a list of clauses, never with
    [-1]; at a branching point every clause has at least two literals and
    both branch assignments return a list of clauses. *)
Definition well_behaved (e : event) : Prop :=
  match e with
  | Enter _ f _ => f <> Minus1
  | Branch _ f lit =>
      exists cs,
        f = Clauses cs /\
        (forall c, In c cs -> (2 <= length c)%nat) /\
        (exists cs1,
            make_literals_true f (One (1 * lit)) = Ret (Clauses cs1)) /\
        (exists cs2,
            make_literals_true f (One (-1 * lit)) = Ret (Clauses cs2))
  end.

(** Well-formed input, as the data model of the solver has it: no clause
    holds the invalid literal [0] or repeats a literal. *)
Definition tidy (cs : list clause) : Prop :=
  forall c, In c cs -> NoDup c /\ ~ In 0 c.

(** An assignment given as a list never holds a literal and its
    complement. *)
Definition consistent (a : list Z) : Prop :=
  forall l, In l a -> ~ In (- l) a.

(** The total assignment read off such a list: a variable is true when its
    positive literal is listed. *)
Definition model_of (a : list Z) : Z -> bool := fun x => mem x a.

(** The variables of the valuation no longer occur in the formula. *)
Definition apart (v : list Z) (cs : list clause) : Prop :=
  forall l, In l v ->
            ~ In l (literals_of cs) /\ ~ In (- l) (literals_of cs).

(** The state of the search on well-formed input. *)
Definition coherent (v : list Z) (cs : list clause) : Prop :=
  tidy cs /\ consistent v /\ NoDup v /\ apart v cs.

(** Unit propagation as the specification words it (section 4.3): the same
    loop as [up], except that on a conflict the assignments accumulated so
    far are returned.  It is only compared with [up]. *)
Fixpoint propagate_loop (fuel : nat) (formula : pyformula)
    (valuation : list Z) (unit_clause : option clause)
    : run (pyformula * list Z) :=
  match unit_clause with
  | None => Ret (formula, valuation)
  | Some unit_clause =>
      match fuel with
      | O => OutOfFuel
      | S fuel' =>
          unique_literal <- index0 unit_clause ;;
          formula <- make_literals_true formula (One unique_literal) ;;
          let valuation := valuation ++ [unique_literal] in
          if is_minus1 formula then Ret (Minus1, valuation)
          else if not_formula formula then Ret (formula, valuation)
          else
            unit_clause <- get_unit_clause formula ;;
            propagate_loop fuel' formula valuation unit_clause
      end
  end.

Definition propagate (formula : pyformula) : run (pyformula * list Z) :=
  unit_clause <- get_unit_clause formula ;;
  propagate_loop (clause_count formula) formula [] unit_clause.

(** ** Vocabulary for the remaining functions *)

(** The value a counter holds for a key, [0] for a key it does not hold. *)
Fixpoint stored (counts : counter) (k : Z) : Z :=
  match counts with
  | [] => 0
  | (k0, n) :: rest => if k0 =? k then n else stored rest k
  end.

(** The distinct elements of a list, in the order of their first
    occurrence. *)
Definition first_seen (xs : list Z) : list Z :=
  fold_left (fun acc x => if mem x acc then acc else acc ++ [x]) xs [].

(** A total assignment changed so as to make the literals [ps] true. *)
Definition forced (ps : list Z) (m : Z -> bool) : Z -> bool :=
  fun x => if mem x ps then true else if mem (- x) ps then false else m x.

(** Two results of the search that differ only by the valuation the search
    started from: the same exception, the failure value on both sides, or
    the same assigned literals after the respective valuation. *)
Definition same_search (v w : list Z) (r1 r2 : run (list Z)) : Prop :=
  (r1 = OutOfFuel /\ r2 = OutOfFuel) \/
  (exists e, r1 = Raise e /\ r2 = Raise e) \/
  (r1 = Ret [] /\ r2 = Ret []) \/
  (exists assigned, r1 = Ret (v ++ assigned) /\ r2 = Ret (w ++ assigned)).

(** ** parse_dimacs and the driver on a file

    The file is read line by line ([for line in f]); the input here is the
    list of the lines as the iteration yields them.  The string methods and
    [int] are library code: [parse_dimacs] is modelled over any three
    functions [strip], [split] and [to_int] ([None] for a [ValueError]), and
    the ASCII behaviour of the three is given further below. *)

(** Exceptions of the file-level functions: those of the search, and the
    [ValueError] of [int]. *)
Inductive pyexn : Type :=
| Exn (e : exn)
| ValueError.

Inductive outcome (A : Type) : Type :=
| Done (a : A)
| Failed (e : pyexn)
| Unfinished.

Arguments Done {A} a.
Arguments Failed {A} e.
Arguments Unfinished {A}.

Definition obind {A B : Type} (m : outcome A) (k : A -> outcome B)
    : outcome B :=
  match m with
  | Done a => k a
  | Failed e => Failed e
  | Unfinished => Unfinished
  end.

Definition of_run {A : Type} (r : run A) : outcome A :=
  match r with
  | Ret a => Done a
  | Raise e => Failed (Exn e)
  | OutOfFuel => Unfinished
  end.

Declare Scope outcome_scope.
Delimit Scope outcome_scope with outcome.
Notation "x <- m ;; k" := (obind m (fun x => k))
  (at level 61, m at next level, right associativity) : outcome_scope.

(** [line[0]] *)
Definition first_char (line : String.string) : outcome Ascii.ascii :=
  match line with
  | String.EmptyString => Failed (Exn IndexError)
  | String.String c _ => Done c
  end.

(** [tokens[2]] *)
Definition third (tokens : list String.string) : outcome String.string :=
  match tokens with
  | _ :: _ :: t :: _ => Done t
  | _ => Failed (Exn IndexError)
  end.

(** [line[0] in ["c", "0", "%"]] *)
Definition is_comment_mark (c : Ascii.ascii) : bool :=
  Ascii.eqb c "c"%char || Ascii.eqb c "0"%char || Ascii.eqb c "%"%char.

Section Builtins.

Variable strip : String.string -> String.string.
Variable split : String.string -> list String.string.
Variable to_int : String.string -> option Z.

(** [[int(p) for p in tokens]], left to right. *)
Fixpoint ints (tokens : list String.string) : outcome (list Z) :=
  match tokens with
  | [] => Done []
  | p :: rest =>
      match to_int p with
      | None => Failed ValueError
      | Some z => (zs <- ints rest ;; Done (z :: zs))%outcome
      end
  end.

(** The body of the loop over the lines, on the pair [(formula, n_props)];
    [tokens[:-1]] is [removelast tokens]. *)
Definition parse_line (state : list clause * option Z)
    (line : String.string) : outcome (list clause * option Z) :=
  let (formula, n_props) := state in
  if (String.length (strip line) =? 0)%nat then Done state
  else
    (c <- first_char line ;;
     if is_comment_mark c then Done state
     else if Ascii.eqb c "p"%char then
       t <- third (split (strip line)) ;;
       match to_int t with
       | None => Failed ValueError
       | Some n => Done (formula, Some n)
       end
     else
       clause <- ints (removelast (split (strip line))) ;;
       Done (formula ++ [clause], n_props))%outcome.

Fixpoint parse_lines (state : list clause * option Z)
    (lines : list String.string) : outcome (list clause * option Z) :=
  match lines with
  | [] => Done state
  | line :: rest =>
      (state' <- parse_line state line ;; parse_lines state' rest)%outcome
  end.

Definition parse_dimacs (lines : list String.string)
    : outcome (list clause * option Z) :=
  parse_lines ([], None) lines.

(** The whole of [dpll(filename)]: with [n_props] still [None],
    [n_props + 1] raises [TypeError]. *)
Definition dpll_of_file (lines : list String.string)
    : outcome (option (list Z)) :=
  (parsed <- parse_dimacs lines ;;
   let (formula, n_props) := parsed in
   solution <- of_run (_dpll (Clauses formula) []) ;;
   if negb (truthy solution) then Done None
   else
     match n_props with
     | None => Failed (Exn TypeError)
     | Some n =>
         Done (Some (sort_by_abs
                       (filter (fun i => negb (mem i solution) &&
                                         negb (mem (- i) solution))
                               (range 1 (n + 1)) ++ solution)))
     end)%outcome.

(** What the loop does with a line. *)
Inductive line_kind : Type :=
| Skipped      (* blank, or a comment *)
| Header       (* a [p] line *)
| ClauseLine
| NoFirstChar. (* [line[0]] on an empty line: not with Python's [strip] *)

Definition kind_of (line : String.string) : line_kind :=
  if (String.length (strip line) =? 0)%nat then Skipped
  else
    match line with
    | String.EmptyString => NoFirstChar
    | String.String c _ =>
        if is_comment_mark c then Skipped
        else if Ascii.eqb c "p"%char then Header
        else ClauseLine
    end.

Definition is_clause_line (line : String.string) : bool :=
  match kind_of line with ClauseLine => true | _ => false end.

Definition is_header (line : String.string) : bool :=
  match kind_of line with Header => true | _ => false end.

End Builtins.

(** ** The library functions on ASCII text

    [str.strip], [str.split] without argument and [int] of a string, for
    text made of ASCII characters.  (Python also takes non-ASCII white
    space and digits; the interpreter's limit on the number of digits that
    [int] accepts is not part of the model.) *)

(** [c.isspace()]: tab, line feed, vertical tab, form feed, carriage
    return, the four separators [\x1c]..[\x1f], and space. *)
Definition isspace (c : Ascii.ascii) : bool :=
  let n := Ascii.nat_of_ascii c in
  ((9 <=? n) && (n <=? 13) || (28 <=? n) && (n <=? 32))%nat.

Fixpoint lstrip (s : String.string) : String.string :=
  match s with
  | String.EmptyString => String.EmptyString
  | String.String c rest => if isspace c then lstrip rest else s
  end.

Fixpoint rstrip (s : String.string) : String.string :=
  match s with
  | String.EmptyString => String.EmptyString
  | String.String c rest =>
      match rstrip rest with
      | String.EmptyString =>
          if isspace c then String.EmptyString
          else String.String c String.EmptyString
      | r => String.String c r
      end
  end.

(** [s.strip()] *)
Definition py_strip (s : String.string) : String.string :=
  rstrip (lstrip s).

(** [s.split()]: the maximal runs of characters that are not white space;
    [token] is the run being read. *)
Fixpoint split_loop (s : String.string) (token : String.string)
    : list String.string :=
  match s with
  | String.EmptyString =>
      match token with
      | String.EmptyString => []
      | _ => [token]
      end
  | String.String c rest =>
      if isspace c then
        match token with
        | String.EmptyString => split_loop rest String.EmptyString
        | _ => token :: split_loop rest String.EmptyString
        end
      else
        split_loop rest
          (String.append token (String.String c String.EmptyString))
  end.

Definition py_split (s : String.string) : list String.string :=
  split_loop s String.EmptyString.

Definition digit_of (c : Ascii.ascii) : option Z :=
  let n := Ascii.nat_of_ascii c in
  if ((48 <=? n) && (n <=? 57))%nat then Some (Z.of_nat (n - 48)) else None.

(** The digits of a decimal literal, where single underscores may separate
    digits; [after_digit] tells whether the previous character was a
    digit. *)
Fixpoint digits_value (s : String.string) (acc : Z) (after_digit : bool)
    : option Z :=
  match s with
  | String.EmptyString => if after_digit then Some acc else None
  | String.String c rest =>
      match digit_of c with
      | Some d => digits_value rest (10 * acc + d) true
      | None =>
          if Ascii.eqb c "_"%char && after_digit
          then digits_value rest acc false
          else None
      end
  end.

(** [int(s)] for a string: white space around, an optional sign, digits. *)
Definition py_int (s : String.string) : option Z :=
  match py_strip s with
  | String.String c rest =>
      if Ascii.eqb c "-"%char then
        option_map Z.opp (digits_value rest 0 false)
      else if Ascii.eqb c "+"%char then digits_value rest 0 false
      else digits_value (String.String c rest) 0 false
  | String.EmptyString => None
  end.

(** ** DIMACS text of a formula

    The text of a formula as a DIMACS file has it: a [p] line with the
    number of variables and of clauses, then one line for each clause, its
    literals and a closing [0] separated by one space.  Every line ends
    with a line feed, as the iteration over a file yields it. *)

Definition newline : String.string :=
  String.String "010"%char String.EmptyString.

(** [str(z)] *)
Definition show (z : Z) : String.string :=
  DecimalString.NilZero.string_of_int (Z.to_int z).

Definition clause_line (c : clause) : String.string :=
  String.append
    (String.concat " "%string (map show c ++ ["0"%string])) newline.

Definition header_line (n : Z) (m : nat) : String.string :=
  String.append
    (String.concat " "%string
       ["p"%string; "cnf"%string; show n; show (Z.of_nat m)])
    newline.

Definition dimacs (n : Z) (cs : list clause) : list String.string :=
  header_line n (length cs) :: map clause_line cs.

(** The clause is not empty and its first literal is not [0]. *)
Definition starts_with_literal (c : clause) : bool :=
  match c with
  | [] => false
  | l :: _ => negb (l =? 0)
  end.

Fixpoint no_space (s : String.string) : bool :=
  match s with
  | String.EmptyString => true
  | String.String c rest => negb (isspace c) && no_space rest
  end.

(** Case analysis on the recursive call of [_dpll] that makes the literal
    [l] true, in the hypothesis [H]: its log, and its result when it
    returns one. *)
Ltac split_call H l log s E :=
  match type of H with
  | context [_dpll_fuel ?n ?d (make_true_loop ?a l ?b) ?w] =>
      destruct (_dpll_fuel n d (make_true_loop a l b) w)
        as [log [s| |]] eqn:E
  end.

(** One step of [digits_value] on a digit, in the goal. *)
Ltac read_digit :=
  match goal with
  | |- context [digits_value (String.String ?c ?r) ?acc ?b] =>
      let k := eval vm_compute in (digit_of c) in
      match k with
      | Some ?v =>
          change (digits_value (String.String c r) acc b)
            with (digits_value r (10 * acc + v) true)
      end
  end.

(** * Lists *)

Lemma neg1_mul (l : Z) : -1 * l = - l.
Proof. lia. Qed.

Lemma mem_In (x : Z) (xs : list Z) : mem x xs = true <-> In x xs.
Proof.
  unfold mem. rewrite existsb_exists. split.
  - intros [y [Hy Heq]]. apply Z.eqb_eq in Heq. now subst.
  - intros H. exists x. split; [assumption | apply Z.eqb_refl].
Qed.

Lemma mem_false (x : Z) (xs : list Z) : mem x xs = false <-> ~ In x xs.
Proof.
  rewrite <- mem_In. destruct (mem x xs); split; congruence.
Qed.

Lemma remove_first_incl (x : Z) (xs : list Z) : incl (remove_first x xs) xs.
Proof.
  induction xs as [|y ys IH]; simpl.
  - apply incl_refl.
  - destruct (y =? x).
    + apply incl_tl, incl_refl.
    + apply incl_cons; [now left | now apply incl_tl].
Qed.

Lemma remove_first_absent (x : Z) (xs : list Z) :
  ~ In x xs -> remove_first x xs = xs.
Proof.
  induction xs as [|y ys IH]; simpl; intros H; [reflexivity|].
  destruct (Z.eqb_spec y x) as [->|Hne].
  - exfalso. apply H. now left.
  - f_equal. apply IH. intros Hin. apply H. now right.
Qed.

Lemma remove_first_length (x : Z) (xs : list Z) :
  In x xs -> S (length (remove_first x xs)) = length xs.
Proof.
  induction xs as [|y ys IH]; simpl; intros H; [contradiction|].
  destruct (Z.eqb_spec y x) as [->|Hne]; [reflexivity|].
  simpl. f_equal. apply IH. destruct H as [H|H]; [congruence | assumption].
Qed.

Lemma remove_first_nil (x : Z) (xs : list Z) :
  In x xs -> remove_first x xs = [] -> xs = [x].
Proof.
  intros Hin Hnil. apply remove_first_length in Hin.
  rewrite Hnil in Hin. destruct xs as [|y [|z zs]]; try discriminate.
  simpl in Hnil. destruct (Z.eqb_spec y x); congruence.
Qed.

Lemma remove_first_NoDup (x : Z) (xs : list Z) :
  NoDup xs -> NoDup (remove_first x xs) /\ ~ In x (remove_first x xs).
Proof.
  induction 1 as [|y ys Hy Hnd IH]; simpl.
  - split; [constructor | tauto].
  - destruct (Z.eqb_spec y x) as [->|Hne].
    + split; assumption.
    + destruct IH as [IH1 IH2]. split.
      * constructor; [|assumption].
        intros Hin. apply Hy. now apply (remove_first_incl x ys).
      * intros [H|H]; [congruence | contradiction].
Qed.

(** * _make_literal_true *)

Lemma make_true_loop_acc (cs : list clause) (l : Z) (acc : list clause) :
  make_true_loop cs l acc =
  match make_true_loop cs l [] with
  | Minus1 => Minus1
  | Clauses r => Clauses (acc ++ r)
  end.
Proof.
  revert acc. induction cs as [|c rest IH]; intros acc; cbn [make_true_loop].
  - now rewrite app_nil_r.
  - cbn [app]. destruct (mem l c); [apply IH|].
    destruct (mem (-1 * l) c).
    + destruct (length (remove_first (-1 * l) c) =? 0)%nat; [reflexivity|].
      rewrite IH. rewrite (IH [_]).
      destruct (make_true_loop rest l []); [|reflexivity].
      now rewrite <- app_assoc.
    + rewrite IH. rewrite (IH [_]).
      destruct (make_true_loop rest l []); [|reflexivity].
      now rewrite <- app_assoc.
Qed.

(** The loop returns [-1] exactly when some clause is the unit clause [-l]
    (and [l] is not [0], whose clauses are dropped before the test), and the
    simplified formula otherwise. *)
Lemma make_true_loop_cases (cs : list clause) (l : Z) :
  (make_true_loop cs l [] = Minus1 /\
   exists c, In c cs /\ c = [- l] /\ l <> 0)
  \/
  (make_true_loop cs l [] = Clauses (simplified l cs) /\
   forall c, In c cs -> ~ (c = [- l] /\ l <> 0)).
Proof.
  induction cs as [|c rest IH]; cbn [make_true_loop].
  - right. split; [reflexivity | intros c []].
  - unfold simplified. cbn [filter app]. rewrite neg1_mul.
    destruct (mem l c) eqn:Hl; cbn [negb map].
    + destruct IH as [[E [c0 [Hin Hc0]]] | [E Hno]].
      * left. split; [assumption|]. exists c0. split; [now right | assumption].
      * right. split; [assumption|].
        intros c0 [<-|Hin]; [|now apply Hno].
        intros [-> Hne]. apply mem_In in Hl. simpl in Hl. lia.
    + destruct (mem (- l) c) eqn:Hnl.
      * destruct (length (remove_first (- l) c) =? 0)%nat eqn:Hlen.
        -- left. split; [reflexivity|]. exists c. split; [now left|].
           apply Nat.eqb_eq, length_zero_iff_nil in Hlen.
           apply mem_In in Hnl. split; [now apply remove_first_nil|].
           intros ->. apply mem_false in Hl. now apply Hl.
        -- rewrite make_true_loop_acc.
           destruct IH as [[E [c0 [Hin Hc0]]] | [E Hno]]; rewrite E.
           ++ left. split; [reflexivity|]. exists c0.
              split; [now right | assumption].
           ++ right. split; [reflexivity|].
              intros c0 [<-|Hin]; [|now apply Hno].
              intros [-> Hne]. simpl in Hlen. rewrite Z.eqb_refl in Hlen.
              discriminate.
      * rewrite make_true_loop_acc.
        apply mem_false in Hnl.
        rewrite (remove_first_absent _ _ Hnl).
        destruct IH as [[E [c0 [Hin Hc0]]] | [E Hno]]; rewrite E.
        -- left. split; [reflexivity|]. exists c0.
           split; [now right | assumption].
        -- right. split; [reflexivity|].
           intros c0 [<-|Hin]; [|now apply Hno].
           intros [-> Hne]. apply Hnl. now left.
Qed.

Lemma make_true_loop_Clauses (cs : list clause) (l : Z) (cs' : list clause) :
  make_true_loop cs l [] = Clauses cs' ->
  cs' = simplified l cs /\ forall c, In c cs -> ~ (c = [- l] /\ l <> 0).
Proof.
  intros H. destruct (make_true_loop_cases cs l) as [[E _] | [E Hno]];
    rewrite E in H; [discriminate|].
  injection H as <-. now split.
Qed.

Lemma make_true_loop_Minus1 (cs : list clause) (l : Z) :
  make_true_loop cs l [] = Minus1 <->
  exists c, In c cs /\ c = [- l] /\ l <> 0.
Proof.
  destruct (make_true_loop_cases cs l) as [[E Hex] | [E Hno]]; rewrite E.
  - tauto.
  - split; [discriminate|]. intros [c [Hin Hc]]. exfalso. now apply (Hno c).
Qed.

Lemma In_simplified (l : Z) (cs : list clause) (c' : clause) :
  In c' (simplified l cs) <->
  exists c, In c cs /\ ~ In l c /\ c' = remove_first (- l) c.
Proof.
  unfold simplified. rewrite in_map_iff. split.
  - intros [c [<- Hin]]. apply filter_In in Hin as [Hin Hm].
    exists c. repeat split; try assumption.
    apply mem_false. now destruct (mem l c).
  - intros [c [Hin [Hl ->]]]. exists c. split; [reflexivity|].
    apply filter_In. split; [assumption|].
    apply mem_false in Hl. now rewrite Hl.
Qed.

Lemma simplified_refines (l : Z) (cs : list clause) :
  refines (simplified l cs) cs.
Proof.
  intros c' Hin. apply In_simplified in Hin as [c [Hin [_ ->]]].
  exists c. split; [assumption | apply remove_first_incl].
Qed.

(** The literal made true is gone from the simplified formula. *)
Lemma simplified_drops (l : Z) (cs : list clause) :
  ~ In l (literals_of (simplified l cs)).
Proof.
  unfold literals_of. rewrite in_concat. intros [c' [Hc' Hl]].
  apply In_simplified in Hc' as [c [_ [Hnot ->]]].
  apply Hnot. now apply (remove_first_incl (- l) c).
Qed.

Lemma refines_literals (cs' cs : list clause) :
  refines cs' cs -> incl (literals_of cs') (literals_of cs).
Proof.
  unfold literals_of. intros H x Hx. apply in_concat in Hx as [c' [Hc' Hx]].
  destruct (H c' Hc') as [c [Hc Hincl]]. apply in_concat.
  exists c. split; [assumption | now apply Hincl].
Qed.

Lemma refines_refl (cs : list clause) : refines cs cs.
Proof. intros c Hc. exists c. split; [assumption | apply incl_refl]. Qed.

Lemma refines_trans (a b c : list clause) :
  refines a b -> refines b c -> refines a c.
Proof.
  intros Hab Hbc x Hx. destruct (Hab x Hx) as [y [Hy Hxy]].
  destruct (Hbc y Hy) as [z [Hz Hyz]]. exists z.
  split; [assumption | now apply incl_tran with y].
Qed.

Lemma make_literal_true_Clauses (cs : list clause) (l : Z) :
  (forall c, In c cs -> c <> [- l]) ->
  _make_literal_true (Clauses cs) l = Ret (Clauses (simplified l cs)).
Proof.
  intros H. simpl. f_equal.
  destruct (make_true_loop_cases cs l) as [[_ [c [Hin [Hc _]]]] | [E _]].
  - exfalso. now apply (H c).
  - assumption.
Qed.

(** ** Truth under a total assignment *)

Lemma lit_true_opp (v : Z -> bool) (l : Z) :
  l <> 0 -> lit_true v (- l) = negb (lit_true v l).
Proof.
  intros Hl. unfold lit_true.
  destruct (0 <? l) eqn:Hpos; destruct (0 <? - l) eqn:Hneg;
    try (apply Z.ltb_lt in Hpos); try (apply Z.ltb_lt in Hneg);
    try (apply Z.ltb_ge in Hpos); try (apply Z.ltb_ge in Hneg); try lia.
  - now rewrite Z.opp_involutive.
  - now rewrite negb_involutive.
Qed.

Lemma clause_true_remove_first (v : Z -> bool) (x : Z) (c : clause) :
  lit_true v x = false ->
  clause_true v (remove_first x c) = clause_true v c.
Proof.
  intros Hx. induction c as [|y ys IH]; simpl; [reflexivity|].
  destruct (Z.eqb_spec y x) as [->|Hne].
  - now rewrite Hx.
  - simpl. now rewrite IH.
Qed.

Lemma clause_true_In (v : Z -> bool) (l : Z) (c : clause) :
  In l c -> lit_true v l = true -> clause_true v c = true.
Proof.
  intros Hin Hl. apply existsb_exists. now exists l.
Qed.

Lemma formula_true_simplified (v : Z -> bool) (l : Z) (cs : list clause) :
  lit_true v l = true ->
  formula_true v (simplified l cs) = formula_true v cs.
Proof.
  intros Hl. unfold simplified.
  induction cs as [|c rest IH]; cbn [filter map formula_true forallb];
    [reflexivity|].
  fold (formula_true v rest).
  destruct (mem l c) eqn:Hm; cbn [negb].
  - apply mem_In in Hm. rewrite (clause_true_In v l c Hm Hl). exact IH.
  - cbn [map forallb]. fold (formula_true v) in IH.
    unfold formula_true in *. rewrite IH. f_equal.
    destruct (Z.eq_dec l 0) as [->|Hne].
    + apply mem_false in Hm. now rewrite remove_first_absent.
    + apply clause_true_remove_first. rewrite lit_true_opp by assumption.
      now rewrite Hl.
Qed.

(** C4, as the code has it.  On a list of clauses [_make_literal_true]
    never faults.  It returns [-1] exactly when some clause is the unit
    clause [-L] (for [L <> 0]).  Otherwise it returns the clauses that do not
    contain [L], in order, each with the first occurrence of [-L] removed;
    [L] no longer occurs, [-L] no longer occurs in a clause that did not
    repeat it, and under every total assignment that makes [L] true the
    result has the truth value of the original formula. *)
Theorem make_literal_true_semantics (F : list clause) (L : Z) :
  (exists r, _make_literal_true (Clauses F) L = Ret r) /\
  (_make_literal_true (Clauses F) L = Ret Minus1 <->
   exists c, In c F /\ c = [- L] /\ L <> 0) /\
  (forall F', _make_literal_true (Clauses F) L = Ret (Clauses F') ->
     F' = simplified L F /\
     (forall c', In c' F' <->
        exists c, In c F /\ ~ In L c /\ c' = remove_first (- L) c) /\
     (forall c', In c' F' -> ~ In L c') /\
     (forall c, In c F -> ~ In L c -> NoDup c ->
        ~ In (- L) (remove_first (- L) c)) /\
     (forall v, lit_true v L = true ->
        formula_true v F' = formula_true v F)).
Proof.
  split; [|split].
  - simpl. eauto.
  - simpl. rewrite <- make_true_loop_Minus1. split; congruence.
  - intros F' H. simpl in H. injection H as H.
    apply make_true_loop_Clauses in H as [-> _].
    split; [reflexivity|]. split; [|split; [|split]].
    + intros c'. apply In_simplified.
    + intros c' Hin HL. apply (simplified_drops L F).
      unfold literals_of. apply in_concat. now exists c'.
    + intros c _ _ Hnd. now apply remove_first_NoDup.
    + intros v Hv. now apply formula_true_simplified.
Qed.

Lemma make_literal_true_semantics_witness :
  formula_true (fun _ => true) [[2]] = formula_true (fun _ => true) [[1]; [-1; 2]].
Proof.
  apply (proj2 (proj2 (make_literal_true_semantics [[1]; [-1; 2]] 1)) [[2]]).
  - reflexivity.
  - reflexivity.
Defined.

(** C4 as worded fails on the code: after making [1] true in [[1]] the
    result is the empty formula, which the all-false assignment satisfies
    although it falsifies both the formula and the literal; and a clause
    that repeats [-L] keeps a copy of it. *)
Lemma make_literal_true_not_equivalent :
  _make_literal_true (Clauses [[1]]) 1 = Ret (Clauses []) /\
  formula_true (fun _ => false) [] = true /\
  formula_true (fun _ => false) [[1]] = false /\
  lit_true (fun _ => false) 1 = false /\
  _make_literal_true (Clauses [[-1; -1; 2]]) 1 = Ret (Clauses [[-1; 2]]).
Proof. repeat split. Qed.

(** * count_literals and ple *)

Lemma has_key_keys (counts : counter) (k : Z) :
  has_key counts k = true <-> In k (keys counts).
Proof.
  unfold has_key, keys. rewrite existsb_exists, in_map_iff. split.
  - intros [kv [Hin Heq]]. apply Z.eqb_eq in Heq. now exists kv.
  - intros [kv [Heq Hin]]. exists kv. split; [assumption|].
    now apply Z.eqb_eq.
Qed.

Lemma keys_incr (counts : counter) (l k : Z) :
  In k (keys (incr counts l)) <-> k = l \/ In k (keys counts).
Proof.
  induction counts as [|[k0 n] rest IH]; simpl.
  - intuition.
  - destruct (Z.eqb_spec k0 l) as [->|Hne]; simpl.
    + intuition.
    + rewrite IH. intuition.
Qed.

Lemma keys_count_clause (c : clause) (counts : counter) (k : Z) :
  In k (keys (fold_left incr c counts)) <-> In k c \/ In k (keys counts).
Proof.
  revert counts. induction c as [|l ls IH]; intros counts; simpl.
  - intuition.
  - rewrite IH, keys_incr. intuition.
Qed.

Lemma keys_count_formula (cs : list clause) (counts : counter) (k : Z) :
  In k (keys (fold_left (fun counts clause => fold_left incr clause counts)
                cs counts)) <->
  In k (literals_of cs) \/ In k (keys counts).
Proof.
  revert counts. induction cs as [|c rest IH]; intros counts; simpl.
  - intuition.
  - rewrite IH, keys_count_clause. unfold literals_of. simpl.
    rewrite in_app_iff. fold (literals_of rest). intuition.
Qed.

(** A literal is collected as pure when it occurs and its complement does
    not. *)
Lemma In_pures (cs : list clause) (p : Z) :
  In p (pures cs) <-> In p (literals_of cs) /\ ~ In (- p) (literals_of cs).
Proof.
  unfold pures, pure_literals_of. rewrite filter_In, neg1_mul.
  rewrite keys_count_formula. simpl.
  rewrite negb_true_iff, <- not_true_iff_false, has_key_keys.
  rewrite keys_count_formula. simpl. tauto.
Qed.

Lemma simplified_pure (cs : list clause) (p : Z) :
  ~ In (- p) (literals_of cs) ->
  simplified p cs = filter (fun c => negb (mem p c)) cs.
Proof.
  intros H. unfold simplified.
  rewrite <- (map_id (filter _ cs)) at 2. apply map_ext_in.
  intros c Hc. apply filter_In in Hc as [Hc _].
  apply remove_first_absent. intros Hin. apply H.
  unfold literals_of. apply in_concat. now exists c.
Qed.

Lemma filter_literals (f : clause -> bool) (cs : list clause) :
  incl (literals_of (filter f cs)) (literals_of cs).
Proof.
  apply refines_literals. intros c Hc. apply filter_In in Hc as [Hc _].
  exists c. split; [assumption | apply incl_refl].
Qed.

Lemma filter_twice {A : Type} (f g : A -> bool) (xs : list A) :
  filter g (filter f xs) = filter (fun x => f x && g x) xs.
Proof.
  induction xs as [|x rest IH]; [reflexivity|].
  cbn [filter]. destruct (f x); cbn [andb filter]; [|exact IH].
  destruct (g x); now rewrite IH.
Qed.

Lemma without_nil (cs : list clause) : without [] cs = cs.
Proof.
  unfold without. induction cs as [|c rest IH]; cbn [filter existsb negb];
    [reflexivity | now f_equal].
Qed.

Lemma without_cons (p : Z) (ps : list Z) (cs : list clause) :
  without (p :: ps) cs = without ps (filter (fun c => negb (mem p c)) cs).
Proof.
  unfold without. rewrite filter_twice. apply filter_ext.
  intros c. cbn [existsb]. apply negb_orb.
Qed.

Lemma make_true_each_pure (ps : list Z) (cs : list clause) :
  (forall p, In p ps -> ~ In (- p) (literals_of cs)) ->
  make_true_each (Clauses cs) ps = Ret (Clauses (without ps cs)).
Proof.
  revert cs. induction ps as [|p ps IH]; intros cs Hpure.
  - simpl. now rewrite without_nil.
  - cbn [make_true_each].
    rewrite make_literal_true_Clauses.
    + cbn [bind]. rewrite simplified_pure by (apply Hpure; now left).
      rewrite IH; [now rewrite without_cons|].
      intros q Hq Hin. apply (Hpure q); [now right|].
      now apply (filter_literals (fun c => negb (mem p c)) cs).
    + intros c Hc ->. apply (Hpure p); [now left|].
      unfold literals_of. apply in_concat. exists [- p].
      split; [assumption | now left].
Qed.

(** Pure literal elimination never conflicts and never faults on a list of
    clauses: it drops the clauses that hold a pure literal. *)
Lemma ple_Clauses (cs : list clause) :
  ple (Clauses cs) = Ret (Clauses (without (pures cs) cs), pures cs).
Proof.
  unfold ple. cbn [count_literals bind make_literals_true].
  fold (pures cs). rewrite make_true_each_pure; [reflexivity|].
  intros p Hp. now apply In_pures in Hp.
Qed.

Lemma In_without (ps : list Z) (cs : list clause) (c : clause) :
  In c (without ps cs) <-> In c cs /\ forall p, In p ps -> ~ In p c.
Proof.
  unfold without. rewrite filter_In, negb_true_iff.
  rewrite <- not_true_iff_false, existsb_exists.
  split; intros [Hc H]; (split; [assumption|]).
  - intros p Hp Hin. apply H. exists p. split; [assumption|].
    now apply mem_In.
  - intros [p [Hp Hm]]. apply mem_In in Hm. now apply (H p).
Qed.

Lemma without_refines (ps : list Z) (cs : list clause) :
  refines (without ps cs) cs.
Proof.
  intros c Hc. apply In_without in Hc as [Hc _].
  exists c. split; [assumption | apply incl_refl].
Qed.

(** After [ple] every remaining literal has its complement in the formula
    [ple] started from. *)
Lemma without_pures_both (cs : list clause) (l : Z) :
  In l (literals_of (without (pures cs) cs)) ->
  In l (literals_of cs) /\ In (- l) (literals_of cs).
Proof.
  intros H. assert (Hl : In l (literals_of cs))
    by now apply (refines_literals _ _ (without_refines (pures cs) cs)).
  split; [assumption|].
  destruct (in_dec Z.eq_dec (- l) (literals_of cs)) as [Hin|Hnot];
    [assumption|].
  exfalso. unfold literals_of in H. apply in_concat in H as [c [Hc Hlc]].
  apply In_without in Hc as [_ Hc]. apply (Hc l); [|assumption].
  apply In_pures. now split.
Qed.

(** * get_unit_clause and up *)

Lemma first_unit_Some (cs : list clause) (c : clause) :
  first_unit cs = Some c -> In c cs /\ exists u, c = [u].
Proof.
  induction cs as [|c0 rest IH]; simpl; [discriminate|].
  destruct (length c0 =? 1)%nat eqn:Hlen.
  - intros H. injection H as <-. split; [now left|].
    apply Nat.eqb_eq in Hlen. destruct c0 as [|u [|]]; try discriminate.
    now exists u.
  - intros H. destruct (IH H) as [Hin Hu]. split; [now right | assumption].
Qed.

Lemma first_unit_None (cs : list clause) :
  first_unit cs = None <-> forall c, In c cs -> length c <> 1%nat.
Proof.
  induction cs as [|c0 rest IH]; simpl.
  - split; [intros _ c [] | reflexivity].
  - destruct (Nat.eqb_spec (length c0) 1) as [Hlen|Hlen].
    + split; [discriminate|]. intros H. exfalso. apply (H c0); [now left|].
      assumption.
    + rewrite IH. split.
      * intros H c [<-|Hc]; [assumption | now apply H].
      * intros H c Hc. apply H. now right.
Qed.

Lemma simplified_shorter (l : Z) (cs : list clause) (c : clause) :
  In c cs -> In l c -> (length (simplified l cs) < length cs)%nat.
Proof.
  intros Hc Hl. unfold simplified. rewrite length_map.
  induction cs as [|c0 rest IH]; [contradiction|].
  cbn [filter]. destruct Hc as [->|Hc].
  - apply mem_In in Hl. rewrite Hl. cbn [negb length].
    apply Nat.lt_succ_r, filter_length_le.
  - specialize (IH Hc). destruct (negb (mem l c0)); cbn [length]; lia.
Qed.

(** [up] and the specification's [propagate] follow the same course; they
    differ only in the list returned with [-1]. *)
Lemma up_loop_course (fuel : nat) (cs : list clause) (val : list Z) :
  (length cs <= fuel)%nat ->
  exists us f,
    propagates cs us f /\
    up_loop fuel (Clauses cs) val (first_unit cs) =
      Ret (f, if is_minus1 f then [] else val ++ us) /\
    propagate_loop fuel (Clauses cs) val (first_unit cs) =
      Ret (f, val ++ us).
Proof.
  revert cs val. induction fuel as [|fuel IH]; intros cs val Hfuel.
  - destruct cs; [|simpl in Hfuel; lia].
    exists [], (Clauses []). simpl. rewrite app_nil_r.
    repeat split. now constructor.
  - destruct (first_unit cs) as [uc|] eqn:Hfu.
    + destruct (first_unit_Some _ _ Hfu) as [Hin [u ->]].
      cbn [up_loop propagate_loop index0 bind make_literals_true
           _make_literal_true].
      destruct (make_true_loop cs u []) as [cs1|] eqn:Hloop.
      * pose proof (make_true_loop_Clauses _ _ _ Hloop) as [Hcs1 _].
        assert (Hlt : (length cs1 < length cs)%nat).
        { rewrite Hcs1. apply (simplified_shorter u cs [u]);
            [assumption | now left]. }
        cbn [is_minus1]. destruct cs1 as [|c1 rest1].
        -- exists [u], (Clauses []). cbn [not_formula is_minus1].
           repeat split.
           eapply propagates_step; eauto. now constructor.
        -- cbn [not_formula get_unit_clause bind].
           destruct (IH (c1 :: rest1) (val ++ [u])) as [us [f [Hp [Hu Hs]]]];
             [lia|].
           exists (u :: us), f. rewrite Hu, Hs.
           rewrite <- app_assoc. cbn [app].
           repeat split. eapply propagates_step; eauto.
      * exists [u], Minus1. cbn [is_minus1]. repeat split.
        now constructor.
    + exists [], (Clauses cs). cbn [up_loop propagate_loop is_minus1].
      rewrite app_nil_r. destruct fuel; repeat split; now constructor.
Qed.

Lemma up_course (cs : list clause) :
  exists us f,
    propagates cs us f /\
    up (Clauses cs) = Ret (f, if is_minus1 f then [] else us) /\
    propagate (Clauses cs) = Ret (f, us).
Proof.
  destruct (up_loop_course (length cs) cs [] (le_n _)) as [us [f H]].
  exists us, f. exact H.
Qed.

Lemma make_true_loop_nonempty (cs : list clause) (l : Z) (cs' : list clause) :
  make_true_loop cs l [] = Clauses cs' ->
  (forall c, In c cs -> c <> []) ->
  forall c', In c' cs' -> c' <> [].
Proof.
  intros H Hne c' Hc'. apply make_true_loop_Clauses in H as [-> Hno].
  apply In_simplified in Hc' as [c [Hc [Hl ->]]].
  destruct (in_dec Z.eq_dec (- l) c) as [Hin|Hnot].
  - intros Hnil. apply (Hno c Hc). split.
    + now apply remove_first_nil.
    + intros ->. now apply Hl.
  - rewrite remove_first_absent by assumption. now apply Hne.
Qed.

Lemma make_true_loop_refines (cs : list clause) (l : Z) (cs' : list clause) :
  make_true_loop cs l [] = Clauses cs' -> refines cs' cs.
Proof.
  intros H. apply make_true_loop_Clauses in H as [-> _].
  apply simplified_refines.
Qed.

Lemma make_true_loop_hits (cs : list clause) (l : Z) (cs' : list clause)
    (solution : list Z) :
  make_true_loop cs l [] = Clauses cs' ->
  In l solution ->
  (forall c', In c' cs' -> hits solution c') ->
  forall c, In c cs -> hits solution c.
Proof.
  intros H Hl Hcs' c Hc. apply make_true_loop_Clauses in H as [-> _].
  destruct (in_dec Z.eq_dec l c) as [Hin|Hnot].
  - now exists l.
  - destruct (Hcs' (remove_first (- l) c)) as [x [Hx Hsol]].
    + apply In_simplified. now exists c.
    + exists x. split; [|assumption]. now apply (remove_first_incl (- l) c).
Qed.

Section Propagation.

Variables (cs : list clause) (us : list Z).

Lemma propagates_refines (cs2 : list clause) :
  propagates cs us (Clauses cs2) -> refines cs2 cs.
Proof.
  intros H. remember (Clauses cs2) as f eqn:Hf.
  induction H as [cs0 _ | cs0 u _ _ | cs0 u cs1 us0 f0 _ Hloop _ IH].
  - injection Hf as <-. apply refines_refl.
  - discriminate.
  - eapply refines_trans; [now apply IH|].
    now apply (make_true_loop_refines cs0 u).
Qed.

Lemma propagates_no_unit (cs2 : list clause) :
  propagates cs us (Clauses cs2) -> first_unit cs2 = None.
Proof.
  intros H. remember (Clauses cs2) as f eqn:Hf.
  induction H as [cs0 Hnone | cs0 u _ _ | cs0 u cs1 us0 f0 _ _ _ IH].
  - now injection Hf as <-.
  - discriminate.
  - now apply IH.
Qed.

Lemma propagates_nonempty (cs2 : list clause) :
  propagates cs us (Clauses cs2) ->
  (forall c, In c cs -> c <> []) ->
  forall c, In c cs2 -> c <> [].
Proof.
  intros H. remember (Clauses cs2) as f eqn:Hf.
  induction H as [cs0 _ | cs0 u _ _ | cs0 u cs1 us0 f0 _ Hloop _ IH].
  - now injection Hf as <-.
  - discriminate.
  - intros Hne. apply IH; [assumption|].
    now apply (make_true_loop_nonempty cs0 u).
Qed.

Lemma propagates_hits (cs2 : list clause) (solution : list Z) :
  propagates cs us (Clauses cs2) ->
  incl us solution ->
  (forall c, In c cs2 -> hits solution c) ->
  forall c, In c cs -> hits solution c.
Proof.
  intros H. remember (Clauses cs2) as f eqn:Hf.
  induction H as [cs0 _ | cs0 u _ _ | cs0 u cs1 us0 f0 _ Hloop _ IH].
  - now injection Hf as <-.
  - discriminate.
  - intros Hus Hcs2. apply (make_true_loop_hits cs0 u cs1); [assumption| |].
    + apply Hus. now left.
    + apply IH; [assumption| |assumption].
      intros x Hx. apply Hus. now right.
Qed.

Lemma propagates_conflict_assigned :
  propagates cs us Minus1 -> us <> [].
Proof. intros H. inversion H; discriminate. Qed.

End Propagation.

(** C7, as the code has it.  [up] follows the course of the specification's
    [propagate] and returns what it returns, except on a conflict: there it
    stops at once and returns [-1] with the empty list, although the
    accumulated list is never empty at that point. *)
Theorem up_conflict_returns_empty_list (formula : pyformula) :
  up formula =
    (r <- propagate formula ;;
     Ret (fst r, if is_minus1 (fst r) then [] else snd r)) /\
  forall assigned,
    up formula = Ret (Minus1, assigned) ->
    assigned = [] /\
    exists accumulated,
      propagate formula = Ret (Minus1, accumulated) /\ accumulated <> [].
Proof.
  destruct formula as [cs|]; [|split; [reflexivity | discriminate]].
  destruct (up_course cs) as [us [f [Hp [Hu Hs]]]].
  rewrite Hu, Hs. split; [reflexivity|].
  intros assigned H. injection H as Hf Ha. subst f. simpl in Ha.
  split; [now symmetry|]. exists us. split; [reflexivity|].
  now apply (propagates_conflict_assigned cs).
Qed.

Lemma up_conflict_returns_empty_list_witness :
  ([] : list Z) = [] /\
  exists accumulated,
    propagate (Clauses [[1]; [-1]]) = Ret (Minus1, accumulated) /\
    accumulated <> [].
Proof.
  apply (proj2 (up_conflict_returns_empty_list (Clauses [[1]; [-1]])) []).
  reflexivity.
Defined.

(** C7 as worded fails on the code: on [[1], [-1]] propagation assigns [1]
    and then meets the conflict; [up] returns [-1] with [[]], not with the
    accumulated [[1]]. *)
Lemma up_conflict_drops_accumulated :
  up (Clauses [[1]; [-1]]) = Ret (Minus1, []) /\
  propagate (Clauses [[1]; [-1]]) = Ret (Minus1, [1]) /\
  up (Clauses [[1]; [-1]]) <> propagate (Clauses [[1]; [-1]]).
Proof. repeat split. discriminate. Qed.

(** * _dpll *)

Lemma _dpll_fuel_Minus1 (n d : nat) (v : list Z) :
  _dpll_fuel (S n) d Minus1 v = ([Enter d Minus1 v], Raise TypeError).
Proof. reflexivity. Qed.

(** One invocation on a list of clauses, spelled out by what [ple] and [up]
    leave. *)
Lemma _dpll_fuel_unfold (cs : list clause) :
  exists us f2,
    propagates (without (pures cs) cs) us f2 /\
    forall (n d : nat) (v : list Z),
    _dpll_fuel (S n) d (Clauses cs) v =
    match f2 with
    | Minus1 => ([Enter d (Clauses cs) v], Ret [])
    | Clauses [] => ([Enter d (Clauses cs) v], Ret (v ++ pures cs ++ us))
    | Clauses ([] :: _) => ([Enter d (Clauses cs) v], Raise IndexError)
    | Clauses (((lit :: _) :: _) as cs2) =>
        let val := v ++ pures cs ++ us in
        let here := [Enter d (Clauses cs) v; Branch d (Clauses cs2) lit] in
        let (log1, r1) :=
          _dpll_fuel n (S d) (make_true_loop cs2 lit []) (val ++ [lit]) in
        match r1 with
        | Ret s1 =>
            if truthy s1 then (here ++ log1, Ret s1)
            else
              let (log2, r2) :=
                _dpll_fuel n (S d) (make_true_loop cs2 (- lit) [])
                  (val ++ [- lit]) in
              (here ++ log1 ++ log2,
               match r2 with
               | Ret s2 => if truthy s2 then Ret s2 else Ret []
               | Raise e => Raise e
               | OutOfFuel => OutOfFuel
               end)
        | Raise e => (here ++ log1, Raise e)
        | OutOfFuel => (here ++ log1, OutOfFuel)
        end
    end.
Proof.
  destruct (up_course (without (pures cs) cs)) as [us [f2 [Hp [Hu _]]]].
  exists us, f2. split; [assumption|]. intros n d v.
  cbn [_dpll_fuel]. unfold tell, quiet. cbn [tbind].
  rewrite ple_Clauses. cbn [tbind]. rewrite Hu.
  destruct f2 as [[|[|lit c] rest]|]; cbn [is_minus1 not_formula tbind app].
  - reflexivity.
  - reflexivity.
  - cbn [select_next_literal index0 bind times make_literals_true
         _make_literal_true tbind app].
    rewrite Z.mul_1_l, neg1_mul.
    match goal with
    | |- context [_dpll_fuel n (S d) (make_true_loop ?a lit ?b) ?w] =>
        destruct (_dpll_fuel n (S d) (make_true_loop a lit b) w)
          as [log1 [s1|e|]]
    end; cbn [tbind app]; try reflexivity.
    destruct (truthy s1); cbn [tbind app]; [now rewrite app_nil_r|].
    match goal with
    | |- context [_dpll_fuel n (S d) (make_true_loop ?a (- lit) ?b) ?w] =>
        destruct (_dpll_fuel n (S d) (make_true_loop a (- lit) b) w)
          as [log2 [s2|e|]]
    end; cbn [tbind app]; try reflexivity.
    destruct (truthy s2); cbn [tbind app]; now rewrite app_nil_r.
  - reflexivity.
Qed.

Lemma _dpll_fuel_Minus1_no_result (n d : nat) (v : list Z) (log : list event)
    (s : list Z) :
  _dpll_fuel n d Minus1 v <> (log, Ret s).
Proof. destruct n; discriminate. Qed.

Lemma without_hits (ps : list Z) (cs : list clause) (solution : list Z) :
  incl ps solution ->
  (forall c, In c (without ps cs) -> hits solution c) ->
  forall c, In c cs -> hits solution c.
Proof.
  intros Hps H c Hc.
  destruct (existsb (fun p => mem p c) ps) eqn:Hex.
  - apply existsb_exists in Hex as [p [Hp Hm]]. apply mem_In in Hm.
    exists p. split; [assumption | now apply Hps].
  - apply H. unfold without. apply filter_In. now rewrite Hex.
Qed.

(** ** Soundness *)

(** A non-empty list returned by [_dpll] extends the valuation it was
    called with and holds a literal of every clause of the formula. *)
Lemma _dpll_fuel_hits (n : nat) :
  forall (d : nat) (f : pyformula) (v : list Z) (log : list event)
         (solution : list Z),
    _dpll_fuel n d f v = (log, Ret solution) ->
    solution <> [] ->
    incl v solution /\
    forall cs, f = Clauses cs -> forall c, In c cs -> hits solution c.
Proof.
  induction n as [|n IH]; intros d f v log solution H Hne; [discriminate|].
  destruct f as [cs|]; [|discriminate].
  destruct (_dpll_fuel_unfold cs) as [us [f2 [Hp E]]].
  rewrite E in H; clear E.
  assert (Hdone : forall s cs2,
             propagates (without (pures cs) cs) us (Clauses cs2) ->
             incl (v ++ pures cs ++ us) s ->
             (forall c, In c cs2 -> hits s c) ->
             incl v s /\
             forall cs0, Clauses cs = Clauses cs0 ->
                         forall c, In c cs0 -> hits s c).
  { intros s cs2 Hp2 Hincl Hcs2. split.
    - intros x Hx. apply Hincl, in_or_app. now left.
    - intros cs0 Hcs0. injection Hcs0 as <-.
      apply (without_hits (pures cs)).
      + intros x Hx. apply Hincl, in_or_app. right. apply in_or_app.
        now left.
      + apply (propagates_hits _ us cs2); [assumption| |assumption].
        intros x Hx. apply Hincl, in_or_app. right. apply in_or_app.
        now right. }
  destruct f2 as [[|[|lit c0] rest]|].
  - injection H as _ <-. apply (Hdone _ []); [assumption|apply incl_refl|].
    intros c [].
  - discriminate.
  - cbv zeta in H.
    assert (Hchild : forall l log' s,
               _dpll_fuel n (S d)
                 (make_true_loop ((lit :: c0) :: rest) l [])
                 ((v ++ pures cs ++ us) ++ [l]) = (log', Ret s) ->
               s <> [] ->
               incl v s /\
               forall cs0, Clauses cs = Clauses cs0 ->
                           forall c, In c cs0 -> hits s c).
    { intros l log' s Hcall Hs.
      destruct (make_true_loop ((lit :: c0) :: rest) l []) as [cs'|] eqn:Hl;
        [|now apply _dpll_fuel_Minus1_no_result in Hcall].
      destruct (IH _ _ _ _ _ Hcall Hs) as [Hincl Hcs'].
      apply (Hdone s ((lit :: c0) :: rest)); [assumption| |].
      - intros x Hx. apply Hincl, in_or_app. now left.
      - apply (make_true_loop_hits _ l cs'); [assumption| |now apply Hcs'].
        apply Hincl, in_or_app. right. now left. }
    split_call H lit log1 s1 E1; try discriminate.
    destruct s1 as [|x1 s1]; cbn [truthy] in H.
    + split_call H (- lit) log2 s2 E2; try discriminate.
      destruct s2 as [|x2 s2]; cbn [truthy] in H; injection H as _ <-;
        [contradiction|].
      now apply (Hchild _ _ _ E2).
    + injection H as _ <-. now apply (Hchild _ _ _ E1).
  - injection H as _ <-. contradiction.
Qed.

Lemma insert_by_abs_perm (x : Z) (xs : list Z) :
  Permutation (insert_by_abs x xs) (x :: xs).
Proof.
  induction xs as [|y ys IH]; simpl; [reflexivity|].
  destruct (Z.abs x <=? Z.abs y); [reflexivity|].
  rewrite IH. apply perm_swap.
Qed.

Lemma sort_by_abs_perm (xs : list Z) : Permutation (sort_by_abs xs) xs.
Proof.
  induction xs as [|x xs IH]; simpl; [reflexivity|].
  rewrite insert_by_abs_perm. now constructor.
Qed.

(** What [dpll] returns, in terms of the result of the search. *)
Lemma dpll_Some (formula : list clause) (n_props : Z) (solution : list Z) :
  dpll formula n_props = Ret (Some solution) ->
  exists found,
    _dpll (Clauses formula) [] = Ret found /\ found <> [] /\
    solution =
      sort_by_abs
        (filter (fun i => negb (mem i found) && negb (mem (- i) found))
                (range 1 (n_props + 1)) ++ found).
Proof.
  unfold dpll. destruct (_dpll (Clauses formula) []) as [found|e|];
    cbn [bind]; try discriminate.
  destruct found as [|x found]; cbn [truthy negb]; [discriminate|].
  intros H. injection H as <-. exists (x :: found).
  repeat split. discriminate.
Qed.

(** ** Termination *)

Lemma remove_first_length_le (x : Z) (xs : list Z) :
  (length (remove_first x xs) <= length xs)%nat.
Proof.
  destruct (in_dec Z.eq_dec x xs) as [Hin|Hnot].
  - apply remove_first_length in Hin. lia.
  - now rewrite remove_first_absent.
Qed.

Lemma simplified_cons (l : Z) (c : clause) (rest : list clause) :
  simplified l (c :: rest) =
  if mem l c then simplified l rest
  else remove_first (- l) c :: simplified l rest.
Proof. unfold simplified. cbn [filter]. now destruct (mem l c). Qed.

Lemma literals_of_cons (c : clause) (rest : list clause) :
  literals_of (c :: rest) = c ++ literals_of rest.
Proof. reflexivity. Qed.

Lemma simplified_size (l : Z) (cs : list clause) :
  (length (literals_of (simplified l cs)) <= length (literals_of cs))%nat.
Proof.
  induction cs as [|c rest IH]; [apply le_n|].
  rewrite simplified_cons, literals_of_cons, length_app.
  destruct (mem l c); [lia|].
  rewrite literals_of_cons, length_app.
  pose proof (remove_first_length_le (- l) c). lia.
Qed.

Lemma without_size (ps : list Z) (cs : list clause) :
  (length (literals_of (without ps cs)) <= length (literals_of cs))%nat.
Proof.
  unfold without. induction cs as [|c rest IH]; [apply le_n|].
  cbn [filter]. destruct (negb _);
    rewrite ?literals_of_cons, ?length_app; lia.
Qed.

Lemma propagates_size (cs : list clause) (us : list Z) (cs2 : list clause) :
  propagates cs us (Clauses cs2) ->
  (length (literals_of cs2) <= length (literals_of cs))%nat.
Proof.
  intros H. remember (Clauses cs2) as f eqn:Hf.
  induction H as [cs0 _ | cs0 u _ _ | cs0 u cs1 us0 f0 _ Hloop _ IH].
  - injection Hf as <-. apply le_n.
  - discriminate.
  - specialize (IH Hf). apply make_true_loop_Clauses in Hloop as [-> _].
    pose proof (simplified_size u cs0). lia.
Qed.

(** Both branch assignments shrink the formula: the first clause, which
    starts with the selected literal, is dropped or loses that literal. *)
Lemma branch_size (lit : Z) (c : clause) (rest : list clause) (l : Z) :
  l = lit \/ l = - lit ->
  (size (make_true_loop ((lit :: c) :: rest) l []) <
   size (Clauses ((lit :: c) :: rest)))%nat.
Proof.
  intros Hl. cbn [size]. rewrite literals_of_cons. cbn [app length].
  fold (literals_of rest).
  destruct (make_true_loop ((lit :: c) :: rest) l []) as [cs'|] eqn:E;
    [|cbn [size]; lia].
  apply make_true_loop_Clauses in E as [-> _]. cbn [size].
  fold (literals_of (simplified l ((lit :: c) :: rest))).
  rewrite simplified_cons. pose proof (simplified_size l rest) as Hrest.
  rewrite length_app.
  destruct (mem l (lit :: c)) eqn:Hm; [lia|].
  rewrite literals_of_cons, length_app.
  destruct Hl as [->| ->].
  - unfold mem in Hm. cbn [existsb] in Hm. rewrite Z.eqb_refl in Hm.
    discriminate.
  - rewrite Z.opp_involutive. cbn [remove_first]. rewrite Z.eqb_refl. lia.
Qed.

(** More fuel than the number of literal occurrences is always enough, and
    any such amount gives the same run. *)
Lemma _dpll_fuel_enough (n : nat) :
  forall (m d : nat) (f : pyformula) (v : list Z),
    (size f < n)%nat -> (size f < m)%nat ->
    _dpll_fuel n d f v = _dpll_fuel m d f v /\
    snd (_dpll_fuel n d f v) <> OutOfFuel.
Proof.
  induction n as [|n IH]; intros m d f v Hn Hm; [lia|].
  destruct m as [|m]; [lia|].
  destruct f as [cs|]; [|split; [reflexivity | discriminate]].
  destruct (_dpll_fuel_unfold cs) as [us [f2 [Hp E]]].
  rewrite !E; clear E.
  destruct f2 as [[|[|lit c0] rest]|];
    try (split; [reflexivity | discriminate]).
  cbv zeta.
  assert (Hcs2 : (size (Clauses ((lit :: c0) :: rest)) <= size (Clauses cs))%nat).
  { cbn [size]. eapply Nat.le_trans.
    - exact (propagates_size _ _ _ Hp).
    - exact (without_size (pures cs) cs). }
  assert (Hchild : forall l w,
             l = lit \/ l = - lit ->
             _dpll_fuel n (S d)
               (make_true_loop ((lit :: c0) :: rest) l []) w =
             _dpll_fuel m (S d)
               (make_true_loop ((lit :: c0) :: rest) l []) w /\
             snd (_dpll_fuel n (S d)
                    (make_true_loop ((lit :: c0) :: rest) l []) w)
             <> OutOfFuel).
  { intros l w Hl. pose proof (branch_size lit c0 rest l Hl).
    apply IH; lia. }
  match goal with
  | |- context [_dpll_fuel n (S d) (make_true_loop ?a lit ?b) ?w] =>
      destruct (Hchild lit w (or_introl eq_refl)) as [E1 N1];
      change (_dpll_fuel m (S d) (make_true_loop a lit b) w) with
        (_dpll_fuel m (S d) (make_true_loop ((lit :: c0) :: rest) lit []) w);
      change (_dpll_fuel n (S d) (make_true_loop a lit b) w) with
        (_dpll_fuel n (S d) (make_true_loop ((lit :: c0) :: rest) lit []) w);
      rewrite <- E1;
      destruct (_dpll_fuel n (S d)
                  (make_true_loop ((lit :: c0) :: rest) lit []) w)
        as [log1 [s1|e|]]
  end; try (split; [reflexivity | discriminate]);
    [|now cbn [snd] in N1].
  destruct (truthy s1); [split; [reflexivity | discriminate]|].
  match goal with
  | |- context [_dpll_fuel n (S d) (make_true_loop ?a (- lit) ?b) ?w] =>
      destruct (Hchild (- lit) w (or_intror eq_refl)) as [E2 N2];
      change (_dpll_fuel m (S d) (make_true_loop a (- lit) b) w) with
        (_dpll_fuel m (S d)
           (make_true_loop ((lit :: c0) :: rest) (- lit) []) w);
      change (_dpll_fuel n (S d) (make_true_loop a (- lit) b) w) with
        (_dpll_fuel n (S d)
           (make_true_loop ((lit :: c0) :: rest) (- lit) []) w);
      rewrite <- E2;
      destruct (_dpll_fuel n (S d)
                  (make_true_loop ((lit :: c0) :: rest) (- lit) []) w)
        as [log2 [s2|e|]]
  end; cbn [snd] in *; split; try reflexivity; try discriminate;
    try (destruct (truthy s2); discriminate).
  congruence.
Qed.

(** ** Progress of the recursion *)

Lemma In_undecided (x : Z) (cs : list clause) :
  In x (undecided cs) <->
  exists l, In l (literals_of cs) /\ In (- l) (literals_of cs) /\ x = Z.abs l.
Proof.
  unfold undecided. rewrite nodup_In, in_map_iff. split.
  - intros [l [<- Hl]]. apply filter_In in Hl as [Hl Hm].
    apply mem_In in Hm. now exists l.
  - intros [l [Hl [Hn ->]]]. exists l. split; [reflexivity|].
    apply filter_In. split; [assumption | now apply mem_In].
Qed.

Lemma In_variables (x : Z) (cs : list clause) :
  In x (variables cs) <-> exists l, In l (literals_of cs) /\ x = Z.abs l.
Proof.
  unfold variables. rewrite nodup_In, in_map_iff. split.
  - intros [l [<- Hl]]. now exists l.
  - intros [l [Hl ->]]. now exists l.
Qed.

Lemma undecided_incl (cs' cs : list clause) :
  incl (literals_of cs') (literals_of cs) ->
  incl (undecided cs') (undecided cs).
Proof.
  intros H x Hx. apply In_undecided in Hx as [l [Hl [Hn ->]]].
  apply In_undecided. exists l. auto.
Qed.

Lemma undecided_variables (cs : list clause) :
  incl (undecided cs) (variables cs).
Proof.
  intros x Hx. apply In_undecided in Hx as [l [Hl [_ ->]]].
  apply In_variables. now exists l.
Qed.

Lemma undecided_absent (l : Z) (cs : list clause) :
  ~ In l (literals_of cs) -> ~ In (Z.abs l) (undecided cs).
Proof.
  intros Hl Hx. apply In_undecided in Hx as [l' [Hl' [Hn' Habs]]].
  assert (Hcases : l' = l \/ - l' = l) by lia.
  destruct Hcases as [->| <-]; contradiction.
Qed.

Lemma NoDup_strict_incl (a b : list Z) (x : Z) :
  NoDup a -> incl a b -> In x b -> ~ In x a ->
  (length a < length b)%nat.
Proof.
  intros Hnd Hincl Hb Ha.
  assert (H : (length (x :: a) <= length b)%nat).
  { apply NoDup_incl_length.
    - now constructor.
    - intros y [<-|Hy]; [assumption | now apply Hincl]. }
  simpl in H. lia.
Qed.

Lemma undecided_count_incl (cs' cs : list clause) :
  incl (literals_of cs') (literals_of cs) ->
  (length (undecided cs') <= length (undecided cs))%nat.
Proof.
  intros H. apply NoDup_incl_length.
  - apply NoDup_nodup.
  - now apply undecided_incl.
Qed.

Lemma undecided_le_variables (cs : list clause) :
  (length (undecided cs) <= length (variables cs))%nat.
Proof.
  apply NoDup_incl_length; [apply NoDup_nodup | apply undecided_variables].
Qed.

(** The literals that survive [ple] and [up] are undecided in the formula
    the call started with. *)
Lemma simplified_literals_undecided (cs : list clause) (us : list Z)
    (cs2 : list clause) (l : Z) :
  propagates (without (pures cs) cs) us (Clauses cs2) ->
  In l (literals_of cs2) ->
  incl (literals_of cs2) (literals_of cs) /\ In (Z.abs l) (undecided cs).
Proof.
  intros Hp Hl.
  pose proof (refines_literals _ _ (propagates_refines _ _ _ Hp)) as H2.
  split.
  - intros x Hx.
    apply (refines_literals _ _ (without_refines (pures cs) cs)).
    now apply H2.
  - apply H2, without_pures_both in Hl as [Hl Hn].
    apply In_undecided. now exists l.
Qed.

(** Each branch takes the variable of the selected literal out of the
    undecided ones. *)
Lemma branch_progress (cs : list clause) (us : list Z) (lit : Z)
    (c0 : clause) (rest : list clause) (l : Z) :
  propagates (without (pures cs) cs) us (Clauses ((lit :: c0) :: rest)) ->
  l = lit \/ l = - lit ->
  (undecided_count (make_true_loop ((lit :: c0) :: rest) l []) <
   undecided_count (Clauses cs))%nat.
Proof.
  intros Hp Hl. cbn [undecided_count].
  destruct (simplified_literals_undecided cs us _ lit Hp) as [Hincl Hlit];
    [now left|].
  destruct (make_true_loop ((lit :: c0) :: rest) l []) as [cs'|] eqn:E.
  - apply make_true_loop_Clauses in E as [-> _].
    apply (NoDup_strict_incl _ _ (Z.abs lit)).
    + apply NoDup_nodup.
    + apply undecided_incl. eapply incl_tran; [|exact Hincl].
      apply refines_literals, simplified_refines.
    + assumption.
    + replace (Z.abs lit) with (Z.abs l) by (destruct Hl; subst; lia).
      apply undecided_absent, simplified_drops.
  - destruct (undecided cs); [contradiction | simpl; lia].
Qed.

Lemma simplified_undecided_count (cs : list clause) (us : list Z)
    (cs2 : list clause) :
  propagates (without (pures cs) cs) us (Clauses cs2) ->
  (undecided_count (Clauses cs2) <= undecided_count (Clauses cs))%nat.
Proof.
  intros Hp. cbn [undecided_count]. apply undecided_count_incl.
  eapply incl_tran.
  - exact (refines_literals _ _ (propagates_refines _ _ _ Hp)).
  - exact (refines_literals _ _ (without_refines (pures cs) cs)).
Qed.

(** Depth plus the number of undecided variables never grows along the
    run: every level of the recursion has decided at least one more
    variable. *)
Lemma _dpll_fuel_progress (n : nat) :
  forall (d : nat) (f : pyformula) (v : list Z),
    Forall (fun e =>
              (d <= event_depth e)%nat /\
              (event_depth e + undecided_count (event_formula e) <=
               d + undecided_count f)%nat)
           (fst (_dpll_fuel n d f v)).
Proof.
  induction n as [|n IH]; intros d f v; [constructor|].
  destruct f as [cs|];
    [|constructor; [cbn; lia | constructor]].
  destruct (_dpll_fuel_unfold cs) as [us [f2 [Hp E]]].
  rewrite E; clear E.
  assert (Henter : Forall (fun e =>
              (d <= event_depth e)%nat /\
              (event_depth e + undecided_count (event_formula e) <=
               d + undecided_count (Clauses cs))%nat)
            [Enter d (Clauses cs) v]).
  { constructor; [cbn; lia | constructor]. }
  destruct f2 as [[|[|lit c0] rest]|]; try exact Henter.
  cbv zeta.
  assert (Hchild : forall l w,
             l = lit \/ l = - lit ->
             Forall (fun e =>
               (d <= event_depth e)%nat /\
               (event_depth e + undecided_count (event_formula e) <=
                d + undecided_count (Clauses cs))%nat)
               (fst (_dpll_fuel n (S d)
                       (make_true_loop ((lit :: c0) :: rest) l []) w))).
  { intros l w Hl. pose proof (branch_progress cs us lit c0 rest l Hp Hl).
    eapply Forall_impl; [|apply IH]. cbn beta. intros e [H1 H2]. lia. }
  assert (Hhere : Forall (fun e =>
              (d <= event_depth e)%nat /\
              (event_depth e + undecided_count (event_formula e) <=
               d + undecided_count (Clauses cs))%nat)
            [Enter d (Clauses cs) v;
             Branch d (Clauses ((lit :: c0) :: rest)) lit]).
  { pose proof (simplified_undecided_count cs us _ Hp).
    constructor; [cbn [event_depth event_formula]; lia|].
    constructor; [|constructor]. cbn [event_depth event_formula].
    split; [apply le_n | now apply Nat.add_le_mono_l]. }
  match goal with
  | |- context [_dpll_fuel n (S d) (make_true_loop ?a lit ?b) ?w] =>
      pose proof (Hchild lit w (or_introl eq_refl)) as H1;
      change (_dpll_fuel n (S d) (make_true_loop a lit b) w) with
        (_dpll_fuel n (S d) (make_true_loop ((lit :: c0) :: rest) lit []) w);
      destruct (_dpll_fuel n (S d)
                  (make_true_loop ((lit :: c0) :: rest) lit []) w)
        as [log1 [s1|e|]]
  end; cbn [fst] in H1; try (apply Forall_app; now split).
  destruct (truthy s1); [apply Forall_app; now split|].
  match goal with
  | |- context [_dpll_fuel n (S d) (make_true_loop ?a (- lit) ?b) ?w] =>
      pose proof (Hchild (- lit) w (or_intror eq_refl)) as H2;
      change (_dpll_fuel n (S d) (make_true_loop a (- lit) b) w) with
        (_dpll_fuel n (S d)
           (make_true_loop ((lit :: c0) :: rest) (- lit) []) w);
      destruct (_dpll_fuel n (S d)
                  (make_true_loop ((lit :: c0) :: rest) (- lit) []) w)
        as [log2 r2]
  end; cbn [fst] in *.
  apply Forall_app; split; [assumption|]. apply Forall_app. now split.
Qed.

(** C9.  [_dpll] terminates on every formula and valuation: the fuel the
    model gives it is never used up, and any larger amount yields the same
    run.  Every level of the recursion decides at least one more variable
    (nesting depth plus the number of variables still occurring in both
    polarities never exceeds the number of such variables in the initial
    formula), so the nesting depth of every invocation and of every
    branching point is bounded by the number of distinct variables of the
    formula. *)
Theorem _dpll_terminates (formula : pyformula) (valuation : list Z) :
  _dpll formula valuation <> OutOfFuel /\
  (forall fuel, (size formula < fuel)%nat ->
     _dpll_fuel fuel 0 formula valuation = _dpll_traced formula valuation) /\
  Forall (fun e =>
            (event_depth e + undecided_count (event_formula e) <=
             undecided_count formula)%nat)
         (fst (_dpll_traced formula valuation)) /\
  Forall (fun e => (event_depth e <= variable_count formula)%nat)
         (fst (_dpll_traced formula valuation)).
Proof.
  unfold _dpll, _dpll_traced.
  assert (Hvars : (undecided_count formula <= variable_count formula)%nat).
  { destruct formula as [cs|]; [apply undecided_le_variables | apply le_n]. }
  repeat split.
  - apply (_dpll_fuel_enough (S (size formula)) (S (size formula))); lia.
  - intros fuel Hfuel.
    apply (_dpll_fuel_enough fuel (S (size formula))); lia.
  - eapply Forall_impl; [|apply _dpll_fuel_progress].
    cbn beta. intros e [_ H]. exact H.
  - eapply Forall_impl; [|apply _dpll_fuel_progress].
    cbn beta. intros e [_ H]. cbn [Nat.add] in H. lia.
Qed.

Lemma _dpll_terminates_witness :
  _dpll_fuel 9 0 (Clauses [[1; 2]; [-1; -2]; [1; -2]; [-1; 2]]) [] =
  _dpll_traced (Clauses [[1; 2]; [-1; -2]; [1; -2]; [-1; 2]]) [].
Proof.
  apply (proj1 (proj2 (_dpll_terminates
                         (Clauses [[1; 2]; [-1; -2]; [1; -2]; [-1; 2]]) []))).
  vm_compute. lia.
Defined.

(** ** Branching points *)

Lemma two_literals_after_up (cs : list clause) (us : list Z)
    (cs2 : list clause) :
  propagates (without (pures cs) cs) us (Clauses cs2) ->
  (forall c, In c cs -> c <> []) ->
  forall c, In c cs2 -> (2 <= length c)%nat.
Proof.
  intros Hp Hne c Hc.
  assert (Hc0 : c <> []).
  { apply (propagates_nonempty _ _ _ Hp); [|assumption].
    intros c' Hc'. apply In_without in Hc' as [Hc' _]. now apply Hne. }
  pose proof (propagates_no_unit _ _ _ Hp) as Hnone.
  apply (proj1 (first_unit_None cs2)) with (c := c) in Hnone; [|assumption].
  destruct c as [|x [|y c]]; [contradiction | contradiction | simpl; lia].
Qed.

Lemma no_conflict_without_unit (cs : list clause) (l : Z) :
  (forall c, In c cs -> (2 <= length c)%nat) ->
  exists cs',
    make_true_loop cs l [] = Clauses cs' /\ forall c, In c cs' -> c <> [].
Proof.
  intros H.
  destruct (make_true_loop cs l []) as [cs'|] eqn:E.
  - exists cs'. split; [reflexivity|].
    apply (make_true_loop_nonempty cs l); [assumption|].
    intros c Hc ->. specialize (H _ Hc). simpl in H. lia.
  - apply make_true_loop_Minus1 in E as [c [Hc [-> _]]].
    specialize (H _ Hc). simpl in H. lia.
Qed.

Lemma _dpll_fuel_well_behaved (n : nat) :
  forall (d : nat) (cs : list clause) (v : list Z),
    (forall c, In c cs -> c <> []) ->
    Forall well_behaved (fst (_dpll_fuel n d (Clauses cs) v)) /\
    forall e, snd (_dpll_fuel n d (Clauses cs) v) <> Raise e.
Proof.
  induction n as [|n IH]; intros d cs v Hne;
    [split; [constructor | discriminate]|].
  destruct (_dpll_fuel_unfold cs) as [us [f2 [Hp E]]].
  rewrite E; clear E.
  assert (Henter : Forall well_behaved [Enter d (Clauses cs) v]).
  { constructor; [discriminate | constructor]. }
  destruct f2 as [[|[|lit c0] rest]|];
    try (split; [exact Henter | discriminate]).
  - pose proof (two_literals_after_up _ _ _ Hp Hne [] (or_introl eq_refl)) as H.
    simpl in H. lia.
  - cbv zeta.
    pose proof (two_literals_after_up _ _ _ Hp Hne) as Htwo.
    destruct (no_conflict_without_unit _ lit Htwo) as [cs1 [E1 Hne1]].
    destruct (no_conflict_without_unit _ (- lit) Htwo) as [cs2 [E2 Hne2]].
    assert (Hhere : Forall well_behaved
                      [Enter d (Clauses cs) v;
                       Branch d (Clauses ((lit :: c0) :: rest)) lit]).
    { constructor; [discriminate|]. constructor; [|constructor].
      exists ((lit :: c0) :: rest). split; [reflexivity|].
      split; [assumption|].
      cbn [make_literals_true _make_literal_true].
      rewrite Z.mul_1_l, neg1_mul. rewrite E1, E2. eauto. }
    rewrite E1, E2.
    destruct (IH (S d) cs1
                ((v ++ pures cs ++ us) ++ [lit]) Hne1) as [L1 R1].
    destruct (IH (S d) cs2
                ((v ++ pures cs ++ us) ++ [- lit]) Hne2) as [L2 R2].
    destruct (_dpll_fuel n (S d) (Clauses cs1) _) as [log1 [s1|e|]];
      cbn [fst snd] in *.
    + destruct (truthy s1).
      * split; [apply Forall_app; now split | discriminate].
      * destruct (_dpll_fuel n (S d) (Clauses cs2) _) as [log2 r2];
          cbn [fst snd] in *.
        split.
        -- apply Forall_app; split; [assumption|].
           apply Forall_app. now split.
        -- intros e. destruct r2 as [s2|e2|];
             [destruct (truthy s2); discriminate | | discriminate].
           intros _. now apply (R2 e2).
    + exfalso. now apply (R1 e).
    + split; [apply Forall_app; now split | discriminate].
Qed.

(** C10.  On a formula without empty clause, every invocation of [_dpll]
    receives a list of clauses, never [-1]; at every branching point every
    clause has at least two literals and both branch assignments return a
    list of clauses; and the run raises neither [TypeError] nor
    [IndexError]. *)
Theorem branch_points_well_behaved (formula : list clause)
    (valuation : list Z) :
  (forall c, In c formula -> c <> []) ->
  Forall well_behaved (fst (_dpll_traced (Clauses formula) valuation)) /\
  forall e, _dpll (Clauses formula) valuation <> Raise e.
Proof.
  intros H. now apply _dpll_fuel_well_behaved.
Qed.

Lemma branch_points_well_behaved_witness :
  Forall well_behaved
    (fst (_dpll_traced (Clauses [[1; 2]; [-1; -2]; [1; -2]; [-1; 2]]) [])) /\
  forall e,
    _dpll (Clauses [[1; 2]; [-1; -2]; [1; -2]; [-1; 2]]) [] <> Raise e.
Proof.
  apply (branch_points_well_behaved [[1; 2]; [-1; -2]; [1; -2]; [-1; 2]] []).
  intros c Hc. simpl in Hc.
  repeat (destruct Hc as [<-|Hc]; [discriminate|]). contradiction.
Defined.

(** * Behaviour at particular inputs *)

(** C5 on the code.  On the empty formula the search succeeds with the empty
    valuation; [dpll] tests the returned list for truth, takes the empty
    list for the failure value and returns [None], whatever [n_props]. *)
Theorem dpll_empty_formula_returns_None :
  _dpll (Clauses []) [] = Ret [] /\
  dpll [] 0 = Ret None /\
  forall n_props, dpll [] n_props = Ret None.
Proof. repeat split. Qed.

(** C2 as worded fails on the code.  The verdict differs from the
    exhaustive check: the empty formula is satisfiable and [dpll] returns
    [None]; [[1, 1], [-1, -1]] is unsatisfiable and [dpll] returns a list;
    [[[]]] is unsatisfiable and [dpll] raises instead of returning. *)
Lemma dpll_verdict_differs_from_brute_force :
  (brute_force [] 0 = true /\ dpll [] 0 = Ret None) /\
  (brute_force [[1; 1]; [-1; -1]] 1 = false /\
   dpll [[1; 1]; [-1; -1]] 1 = Ret (Some [1; -1])) /\
  (brute_force [[]] 0 = false /\ dpll [[]] 0 = Raise IndexError).
Proof. repeat split. Qed.

(** C3 as worded fails on the code.  A clause that repeats a literal keeps
    a copy of it when its complement is made true, so the search can assign
    both signs of a variable: with one declared variable, [dpll] returns
    the two literals [1] and [-1].  A literal over a variable beyond
    [n_props] is returned as well. *)
Lemma dpll_repeated_literal_both_signs :
  _make_literal_true (Clauses [[1; 1]; [-1; -1]]) 1 = Ret (Clauses [[-1]]) /\
  _dpll (Clauses [[1; 1]; [-1; -1]]) [] = Ret [1; -1] /\
  dpll [[1; 1]; [-1; -1]] 1 = Ret (Some [1; -1]) /\
  dpll [[5]] 1 = Ret (Some [1; 5]).
Proof. repeat split. Qed.

(** C6 on the code.  An empty clause is never turned into a conflict:
    [ple] and [up] leave [[[]]] as it is, the formula is neither [-1] nor
    empty, and [select_next_literal] indexes the empty clause.  The run
    enters [_dpll] once and raises [IndexError]. *)
Theorem dpll_empty_clause_raises_IndexError :
  ple (Clauses [[]]) = Ret (Clauses [[]], []) /\
  up (Clauses [[]]) = Ret (Clauses [[]], []) /\
  select_next_literal (Clauses [[]]) = Raise IndexError /\
  _dpll_traced (Clauses [[]]) [] =
    ([Enter 0 (Clauses [[]]) []], Raise IndexError) /\
  (forall n_props, dpll [[]] n_props = Raise IndexError) /\
  dpll [[1; 2]; []] 2 = Raise IndexError.
Proof. repeat split. Qed.

(** C8 fails on the code.  The first application yields [-1], a literal
    remains, and the result is not [-1]: the loop of [make_literals_true]
    has no test for [-1], the next turn passes [-1] to
    [_make_literal_true], which iterates over it and raises [TypeError]. *)
Lemma make_literals_true_no_short_circuit :
  _make_literal_true (Clauses [[1]]) (-1) = Ret Minus1 /\
  make_literals_true (Clauses [[1]]) (Many [-1; 2]) = Raise TypeError /\
  make_literals_true (Clauses [[1]]) (Many [-1; 2]) <> Ret Minus1.
Proof. repeat split. discriminate. Qed.

(** * The search on well-formed input *)

Lemma tidy_refines_filter (f : clause -> bool) (cs : list clause) :
  tidy cs -> tidy (filter f cs).
Proof.
  intros H c Hc. apply filter_In in Hc as [Hc _]. now apply H.
Qed.

Lemma tidy_simplified (l : Z) (cs : list clause) :
  tidy cs -> tidy (simplified l cs).
Proof.
  intros H c' Hc'. apply In_simplified in Hc' as [c [Hc [_ ->]]].
  destruct (H c Hc) as [Hnd H0]. split.
  - now apply remove_first_NoDup.
  - intros Hin. apply H0. now apply (remove_first_incl (- l) c).
Qed.

Lemma tidy_literal_nonzero (cs : list clause) (l : Z) :
  tidy cs -> In l (literals_of cs) -> l <> 0.
Proof.
  intros H Hl ->. unfold literals_of in Hl.
  apply in_concat in Hl as [c [Hc Hl]]. now apply (H c Hc).
Qed.

(** On well-formed input the complement of the literal made true is gone
    as well. *)
Lemma simplified_drops_opp (l : Z) (cs : list clause) :
  tidy cs -> ~ In (- l) (literals_of (simplified l cs)).
Proof.
  intros H. unfold literals_of. rewrite in_concat. intros [c' [Hc' Hl]].
  apply In_simplified in Hc' as [c [Hc [_ ->]]].
  destruct (H c Hc) as [Hnd _].
  now apply (remove_first_NoDup (- l) c Hnd).
Qed.

Lemma NoDup_keys_incr (counts : counter) (l : Z) :
  NoDup (keys counts) -> NoDup (keys (incr counts l)).
Proof.
  induction counts as [|[k n] rest IH]; simpl; intros H.
  - constructor; [intros [] | constructor].
  - destruct (Z.eqb_spec k l) as [->|Hne]; simpl; [assumption|].
    inversion H as [|? ? Hk Hrest]; subst. constructor; [|now apply IH].
    intros Hin. apply keys_incr in Hin as [Hin|Hin]; [congruence|].
    now apply Hk.
Qed.

Lemma NoDup_keys_count_clause (c : clause) (counts : counter) :
  NoDup (keys counts) -> NoDup (keys (fold_left incr c counts)).
Proof.
  revert counts. induction c as [|l ls IH]; intros counts H; simpl;
    [assumption|].
  now apply IH, NoDup_keys_incr.
Qed.

Lemma NoDup_pures (cs : list clause) : NoDup (pures cs).
Proof.
  unfold pures, pure_literals_of. apply NoDup_filter.
  assert (H : forall counts,
             NoDup (keys counts) ->
             NoDup (keys (fold_left
                            (fun counts clause => fold_left incr clause counts)
                            cs counts))).
  { induction cs as [|c rest IH]; intros counts Hc; simpl; [assumption|].
    now apply IH, NoDup_keys_count_clause. }
  apply H. constructor.
Qed.

Lemma In_without_literals (ps : list Z) (cs : list clause) (p : Z) :
  In p ps -> ~ In p (literals_of (without ps cs)).
Proof.
  intros Hp Hin. unfold literals_of in Hin.
  apply in_concat in Hin as [c [Hc Hpc]].
  apply In_without in Hc as [_ Hc]. now apply (Hc p).
Qed.

Lemma coherent_ple (v : list Z) (cs : list clause) :
  coherent v cs -> coherent (v ++ pures cs) (without (pures cs) cs).
Proof.
  intros [Ht [Hc [Hnd Ha]]].
  pose proof (refines_literals _ _ (without_refines (pures cs) cs)) as Hsub.
  split; [|split; [|split; [|intros l H; split]]].
  - now apply tidy_refines_filter.
  - intros l Hl Hn. apply in_app_or in Hl. apply in_app_or in Hn.
    destruct Hl as [Hl|Hl], Hn as [Hn|Hn].
    + now apply (Hc l).
    + apply In_pures in Hn as [Hn _]. destruct (Ha l Hl) as [_ H2].
      contradiction.
    + apply In_pures in Hl as [Hl _]. destruct (Ha (- l) Hn) as [_ H2].
      now rewrite Z.opp_involutive in H2.
    + apply In_pures in Hl as [_ Hl]. apply In_pures in Hn as [Hn _].
      contradiction.
  - apply NoDup_app; [assumption | apply NoDup_pures |].
    intros l Hl Hp. apply In_pures in Hp as [Hp _].
    destruct (Ha l Hl) as [H1 _]. contradiction.
  - apply in_app_or in H as [H|H].
    + intros Hin. destruct (Ha l H) as [H1 _]. now apply H1, Hsub.
    + now apply In_without_literals.
  - apply in_app_or in H as [H|H].
    + intros Hin. destruct (Ha l H) as [_ H2]. now apply H2, Hsub.
    + apply In_pures in H as [_ H]. intros Hin. now apply H, Hsub.
Qed.

Lemma coherent_assign (v : list Z) (cs : list clause) (u : Z) :
  coherent v cs ->
  In u (literals_of cs) \/ In (- u) (literals_of cs) ->
  coherent (v ++ [u]) (simplified u cs).
Proof.
  intros [Ht [Hc [Hnd Ha]]] Hu.
  pose proof (refines_literals _ _ (simplified_refines u cs)) as Hsub.
  assert (Hu0 : u <> 0).
  { destruct Hu as [Hu|Hu]; apply (tidy_literal_nonzero cs _ Ht) in Hu; lia. }
  assert (Hv : ~ In u v /\ ~ In (- u) v).
  { split; intros Hin; destruct (Ha _ Hin) as [H1 H2];
      rewrite ?Z.opp_involutive in *; tauto. }
  destruct Hv as [Hv1 Hv2].
  split; [|split; [|split; [|intros l H; split]]].
  - now apply tidy_simplified.
  - intros l Hl Hn. apply in_app_or in Hl. apply in_app_or in Hn.
    destruct Hl as [Hl|[<-|[]]], Hn as [Hn|[Hn|[]]].
    + now apply (Hc l).
    + apply Hv2. now replace (- u) with l by lia.
    + contradiction.
    + lia.
  - apply NoDup_app; [assumption | constructor; [intros [] | constructor] |].
    intros l Hl [<-|[]]. contradiction.
  - apply in_app_or in H as [H|[<-|[]]].
    + intros Hin. destruct (Ha l H) as [H1 _]. now apply H1, Hsub.
    + apply simplified_drops.
  - apply in_app_or in H as [H|[<-|[]]].
    + intros Hin. destruct (Ha l H) as [_ H2]. now apply H2, Hsub.
    + now apply simplified_drops_opp.
Qed.

Lemma first_unit_literal (cs : list clause) (u : Z) :
  first_unit cs = Some [u] -> In u (literals_of cs).
Proof.
  intros H. apply first_unit_Some in H as [H _].
  unfold literals_of. apply in_concat. exists [u].
  split; [assumption | now left].
Qed.

Lemma coherent_propagates (cs : list clause) (us : list Z)
    (cs2 : list clause) :
  propagates cs us (Clauses cs2) ->
  forall v, coherent v cs -> coherent (v ++ us) cs2.
Proof.
  intros H. remember (Clauses cs2) as f eqn:Hf.
  induction H as [cs0 _ | cs0 u _ _ | cs0 u cs1 us0 f0 Hfu Hloop _ IH];
    intros v Hv.
  - injection Hf as <-. now rewrite app_nil_r.
  - discriminate.
  - apply make_true_loop_Clauses in Hloop as [-> _].
    replace (v ++ u :: us0) with ((v ++ [u]) ++ us0)
      by now rewrite <- app_assoc.
    apply IH; [assumption|]. apply coherent_assign; [assumption|].
    left. now apply first_unit_literal.
Qed.

Lemma propagates_assigned (cs : list clause) (us : list Z) (f : pyformula) :
  propagates cs us f -> incl us (literals_of cs).
Proof.
  induction 1 as [cs0 _ | cs0 u Hfu _ | cs0 u cs1 us0 f0 Hfu Hloop _ IH].
  - intros x [].
  - intros x [<-|[]]. now apply first_unit_literal.
  - intros x [<-|Hx]; [now apply first_unit_literal|].
    apply (refines_literals _ _ (make_true_loop_refines _ _ _ Hloop)).
    now apply IH.
Qed.

Lemma variables_incl (cs' cs : list clause) :
  incl (literals_of cs') (literals_of cs) ->
  incl (variables cs') (variables cs).
Proof.
  intros H x Hx. apply In_variables in Hx as [l [Hl ->]].
  apply In_variables. exists l. auto.
Qed.

Lemma In_variables_abs (l : Z) (cs : list clause) :
  In l (literals_of cs) \/ In (- l) (literals_of cs) ->
  In (Z.abs l) (variables cs).
Proof.
  intros [H|H]; apply In_variables.
  - now exists l.
  - exists (- l). split; [assumption | lia].
Qed.

(** On well-formed input a non-empty result of the search is a consistent
    list without repetition, made of the valuation passed in and of
    literals over the variables of the formula. *)
Lemma _dpll_fuel_coherent (n : nat) :
  forall (d : nat) (cs : list clause) (v : list Z) (log : list event)
         (solution : list Z),
    _dpll_fuel n d (Clauses cs) v = (log, Ret solution) ->
    solution <> [] ->
    coherent v cs ->
    consistent solution /\ NoDup solution /\
    forall l, In l solution -> In l v \/ In (Z.abs l) (variables cs).
Proof.
  induction n as [|n IH]; intros d cs v log solution H Hne Hv;
    [discriminate|].
  destruct (_dpll_fuel_unfold cs) as [us [f2 [Hp E]]].
  rewrite E in H; clear E.
  pose proof (coherent_ple _ _ Hv) as Hv1.
  assert (Hval : forall l, In l (v ++ pures cs ++ us) ->
                           In l v \/ In (Z.abs l) (variables cs)).
  { intros l Hl. apply in_app_or in Hl as [Hl|Hl]; [now left|]. right.
    apply In_variables_abs. left. apply in_app_or in Hl as [Hl|Hl].
    - now apply In_pures in Hl.
    - apply (refines_literals _ _ (without_refines (pures cs) cs)).
      now apply (propagates_assigned _ _ _ Hp). }
  destruct f2 as [[|[|lit c0] rest]|].
  - injection H as _ <-.
    pose proof (coherent_propagates _ _ _ Hp _ Hv1) as [_ [Hc [Hnd _]]].
    rewrite <- app_assoc in Hc, Hnd. auto.
  - discriminate.
  - cbv zeta in H.
    pose proof (coherent_propagates _ _ _ Hp _ Hv1) as Hv2.
    rewrite <- app_assoc in Hv2.
    assert (Hsub : incl (literals_of ((lit :: c0) :: rest)) (literals_of cs)).
    { eapply incl_tran.
      - exact (refines_literals _ _ (propagates_refines _ _ _ Hp)).
      - exact (refines_literals _ _ (without_refines (pures cs) cs)). }
    assert (Hchild : forall l log' s,
               l = lit \/ l = - lit ->
               _dpll_fuel n (S d)
                 (make_true_loop ((lit :: c0) :: rest) l [])
                 ((v ++ pures cs ++ us) ++ [l]) = (log', Ret s) ->
               s <> [] ->
               consistent s /\ NoDup s /\
               forall x, In x s -> In x v \/ In (Z.abs x) (variables cs)).
    { intros l log' s Hl Hcall Hs.
      assert (Hlits : In l (literals_of ((lit :: c0) :: rest)) \/
                      In (- l) (literals_of ((lit :: c0) :: rest))).
      { destruct Hl as [->| ->]; [left | right; rewrite Z.opp_involutive];
          now left. }
      destruct (make_true_loop ((lit :: c0) :: rest) l []) as [cs'|] eqn:El;
        [|now apply _dpll_fuel_Minus1_no_result in Hcall].
      apply make_true_loop_Clauses in El as [-> _].
      destruct (IH _ _ _ _ _ Hcall Hs (coherent_assign _ _ l Hv2 Hlits))
        as [Hc [Hnd Hin]].
      split; [assumption|]. split; [assumption|].
      intros x Hx. destruct (Hin x Hx) as [Hx'|Hx'].
      - apply in_app_or in Hx' as [Hx'|[<-|[]]]; [now apply Hval|].
        right. apply (variables_incl _ _ Hsub).
        now apply In_variables_abs.
      - right. apply (variables_incl _ _ Hsub).
        revert Hx'. apply variables_incl, refines_literals,
                      simplified_refines. }
    split_call H lit log1 s1 E1; try discriminate.
    destruct s1 as [|x1 s1]; cbn [truthy] in H.
    + split_call H (- lit) log2 s2 E2; try discriminate.
      destruct s2 as [|x2 s2]; cbn [truthy] in H; injection H as _ <-;
        [contradiction|].
      apply (Hchild _ _ _ (or_intror eq_refl) E2). discriminate.
    + injection H as _ <-.
      apply (Hchild _ _ _ (or_introl eq_refl) E1). discriminate.
  - injection H as _ <-. contradiction.
Qed.

(** ** Truth of the returned assignment *)

Lemma consistent_nonzero (a : list Z) (l : Z) :
  consistent a -> In l a -> l <> 0.
Proof. intros Hc Hl ->. now apply (Hc 0 Hl). Qed.

Lemma model_of_lit (a : list Z) (l : Z) :
  consistent a -> In l a -> lit_true (model_of a) l = true.
Proof.
  intros Hc Hl. pose proof (consistent_nonzero a l Hc Hl) as Hne.
  unfold lit_true, model_of. destruct (Z.ltb_spec 0 l) as [Hpos|Hneg].
  - now apply mem_In.
  - apply negb_true_iff, mem_false. now apply Hc.
Qed.

Lemma hits_clause_true (a : list Z) (c : clause) :
  consistent a -> hits a c -> clause_true (model_of a) c = true.
Proof.
  intros Hc [l [Hl Ha]]. apply (clause_true_In _ l); [assumption|].
  now apply model_of_lit.
Qed.

(** ** Refutation *)

Lemma formula_true_In (m : Z -> bool) (cs : list clause) (c : clause) :
  formula_true m cs = true -> In c cs -> clause_true m c = true.
Proof.
  unfold formula_true. rewrite forallb_forall. auto.
Qed.

Lemma unit_clause_true (m : Z -> bool) (cs : list clause) (u : Z) :
  formula_true m cs = true -> In [u] cs -> lit_true m u = true.
Proof.
  intros Hm Hin. apply (formula_true_In m cs [u]) in Hm; [|assumption].
  simpl in Hm. now rewrite orb_false_r in Hm.
Qed.

(** A model of the formula is a model of what unit propagation leaves, and
    there is none when propagation ends in a conflict. *)
Lemma propagates_model (cs : list clause) (us : list Z) (f : pyformula)
    (m : Z -> bool) :
  propagates cs us f ->
  formula_true m cs = true ->
  match f with
  | Clauses cs2 => formula_true m cs2 = true
  | Minus1 => False
  end.
Proof.
  induction 1 as [cs0 _ | cs0 u Hfu Hloop | cs0 u cs1 us0 f0 Hfu Hloop _ IH];
    intros Hm.
  - assumption.
  - apply make_true_loop_Minus1 in Hloop as [c [Hc [-> Hu]]].
    apply first_unit_Some in Hfu as [Hfu _].
    pose proof (unit_clause_true m cs0 u Hm Hfu) as H1.
    pose proof (unit_clause_true m cs0 (- u) Hm Hc) as H2.
    rewrite lit_true_opp, H1 in H2 by assumption. discriminate.
  - apply IH. apply make_true_loop_Clauses in Hloop as [-> _].
    rewrite formula_true_simplified; [assumption|].
    apply first_unit_Some in Hfu as [Hfu _].
    now apply (unit_clause_true m cs0).
Qed.

Lemma without_model (ps : list Z) (cs : list clause) (m : Z -> bool) :
  formula_true m cs = true -> formula_true m (without ps cs) = true.
Proof.
  unfold formula_true. rewrite !forallb_forall. intros H c Hc.
  apply H. now apply In_without in Hc.
Qed.

(** When the search fails on a formula without the literal [0], no total
    assignment satisfies the formula.  (The empty list is also what the
    search returns for the empty formula under the empty valuation, the one
    case excluded here.) *)
Lemma _dpll_fuel_refutes (n : nat) :
  forall (d : nat) (cs : list clause) (v : list Z) (log : list event),
    _dpll_fuel n d (Clauses cs) v = (log, Ret []) ->
    v <> [] \/ cs <> [] ->
    ~ In 0 (literals_of cs) ->
    forall m, formula_true m cs = false.
Proof.
  induction n as [|n IH]; intros d cs v log H Hne H0 m; [discriminate|].
  destruct (_dpll_fuel_unfold cs) as [us [f2 [Hp E]]].
  rewrite E in H; clear E.
  destruct (formula_true m cs) eqn:Hm; [exfalso | reflexivity].
  pose proof (propagates_model _ _ _ m Hp (without_model _ _ _ Hm)) as Hm2.
  destruct f2 as [[|[|lit c0] rest]|]; [| discriminate | | exact Hm2].
  - injection H as _ H.
    apply app_eq_nil in H as [Hv H]. apply app_eq_nil in H as [Hps Hus].
    subst us. inversion Hp as [cs0 Hnone E1 E2 | |]; subst.
    rewrite Hps, without_nil in *. destruct Hne; congruence.
  - cbv zeta in H.
    assert (Hsub : incl (literals_of ((lit :: c0) :: rest)) (literals_of cs)).
    { eapply incl_tran.
      - exact (refines_literals _ _ (propagates_refines _ _ _ Hp)).
      - exact (refines_literals _ _ (without_refines (pures cs) cs)). }
    assert (Hlit : lit <> 0).
    { intros ->. apply H0, Hsub. now left. }
    assert (Hchild : forall l log',
               _dpll_fuel n (S d)
                 (make_true_loop ((lit :: c0) :: rest) l [])
                 ((v ++ pures cs ++ us) ++ [l]) = (log', Ret []) ->
               lit_true m l = false).
    { intros l log' Hcall.
      destruct (make_true_loop ((lit :: c0) :: rest) l []) as [cs'|] eqn:El;
        [|now apply _dpll_fuel_Minus1_no_result in Hcall].
      apply make_true_loop_Clauses in El as [-> _].
      destruct (lit_true m l) eqn:Hl; [|reflexivity].
      rewrite <- (formula_true_simplified m l _ Hl) in Hm2.
      rewrite (IH _ _ _ _ Hcall) in Hm2; [discriminate | |].
      - left. now destruct (v ++ pures cs ++ us).
      - intros Hin. apply H0, Hsub.
        now apply (refines_literals _ _ (simplified_refines l _)). }
    split_call H lit log1 s1 E1; try discriminate.
    destruct s1 as [|x1 s1]; cbn [truthy] in H; [|discriminate].
    split_call H (- lit) log2 s2 E2; try discriminate.
    destruct s2 as [|x2 s2]; cbn [truthy] in H; [|discriminate].
    pose proof (Hchild _ _ E1) as H1. pose proof (Hchild _ _ E2) as H2.
    rewrite lit_true_opp, H1 in H2 by assumption. discriminate.
Qed.

(** ** The verdict on well-formed input *)

Lemma coherent_nil (cs : list clause) : tidy cs -> coherent [] cs.
Proof.
  intros H. split; [assumption|]. split; [intros l []|].
  split; [constructor | intros l []].
Qed.

Lemma tidy_no_zero (cs : list clause) : tidy cs -> ~ In 0 (literals_of cs).
Proof. intros H Hin. now apply (tidy_literal_nonzero cs 0 H). Qed.

(** On a formula without empty clause the search returns a list. *)
Lemma _dpll_returns (cs : list clause) (v : list Z) :
  (forall c, In c cs -> c <> []) ->
  exists log found,
    _dpll_traced (Clauses cs) v = (log, Ret found) /\
    _dpll (Clauses cs) v = Ret found.
Proof.
  intros Hne. unfold _dpll, _dpll_traced.
  destruct (_dpll_fuel_well_behaved (S (size (Clauses cs))) 0 cs v Hne)
    as [_ Hraise].
  destruct (_dpll_fuel_enough (S (size (Clauses cs))) (S (size (Clauses cs)))
              0 (Clauses cs) v) as [_ Hfuel]; [lia | lia |].
  destruct (_dpll_fuel (S (size (Clauses cs))) 0 (Clauses cs) v)
    as [log [found|e|]]; cbn [snd] in *.
  - now exists log, found.
  - exfalso. now apply (Hraise e).
  - contradiction.
Qed.

(** The literals the driver adds for the variables the search left out. *)
Lemma In_range (a b x : Z) : In x (range a b) <-> a <= x < b.
Proof.
  unfold range. rewrite in_map_iff. split.
  - intros [k [<- Hk]]. apply in_seq in Hk. lia.
  - intros H. exists (Z.to_nat (x - a)). split; [lia|].
    apply in_seq. lia.
Qed.

Lemma In_sort_by_abs (x : Z) (xs : list Z) :
  In x (sort_by_abs xs) <-> In x xs.
Proof.
  split; apply Permutation_in;
    [apply sort_by_abs_perm | apply Permutation_sym, sort_by_abs_perm].
Qed.

Lemma consistent_completed (found : list Z) (n_props : Z) :
  consistent found ->
  consistent
    (sort_by_abs
       (filter (fun i => negb (mem i found) && negb (mem (- i) found))
               (range 1 (n_props + 1)) ++ found)).
Proof.
  intros Hc l Hl Hn.
  apply (proj1 (In_sort_by_abs _ _)) in Hl.
  apply (proj1 (In_sort_by_abs _ _)) in Hn.
  apply in_app_or in Hl. apply in_app_or in Hn.
  assert (Hextra : forall i,
             In i (filter (fun i => negb (mem i found) &&
                                    negb (mem (- i) found))
                          (range 1 (n_props + 1))) ->
             0 < i /\ ~ In i found /\ ~ In (- i) found).
  { intros i Hi. apply filter_In in Hi as [Hr Hi]. apply In_range in Hr.
    apply andb_true_iff in Hi as [H1 H2].
    apply negb_true_iff, mem_false in H1, H2. repeat split; [lia|..];
      assumption. }
  destruct Hl as [Hl|Hl], Hn as [Hn|Hn].
  - apply Hextra in Hl, Hn. lia.
  - apply Hextra in Hl. tauto.
  - apply Hextra in Hn. rewrite Z.opp_involutive in Hn. tauto.
  - now apply (Hc l).
Qed.

(** ** Soundness of the driver *)

(** C1.  Whenever [dpll] returns an assignment, every clause of the input
    formula contains at least one literal of that assignment; this holds
    for every input.  When moreover no clause holds the literal [0] or
    repeats a literal, the assignment never holds both signs of a variable
    and, read as a total assignment, makes the formula true. *)
Theorem dpll_sound (formula : list clause) (n_props : Z)
    (solution : list Z) :
  dpll formula n_props = Ret (Some solution) ->
  (forall c, In c formula -> exists l, In l c /\ In l solution) /\
  (tidy formula ->
   consistent solution /\
   formula_true (model_of solution) formula = true).
Proof.
  intros H. apply dpll_Some in H as [found [Hrun [Hne ->]]].
  unfold _dpll, _dpll_traced in Hrun.
  destruct (_dpll_fuel (S (size (Clauses formula))) 0 (Clauses formula) [])
    as [log r] eqn:E.
  cbn [snd] in Hrun. subst r.
  destruct (_dpll_fuel_hits _ _ _ _ _ _ E Hne) as [_ Hhits].
  assert (Hall : forall c, In c formula ->
                 hits (sort_by_abs
                         (filter (fun i => negb (mem i found) &&
                                           negb (mem (- i) found))
                                 (range 1 (n_props + 1)) ++ found)) c).
  { intros c Hc. destruct (Hhits formula eq_refl c Hc) as [l [Hl Hfound]].
    exists l. split; [assumption|].
    apply (proj2 (In_sort_by_abs _ _)), in_or_app. now right. }
  split; [exact Hall|].
  intros Ht.
  destruct (_dpll_fuel_coherent _ _ _ _ _ _ E Hne (coherent_nil _ Ht))
    as [Hc _].
  pose proof (consistent_completed found n_props Hc) as Hc'.
  split; [assumption|].
  unfold formula_true. apply forallb_forall. intros c Hin.
  apply hits_clause_true; [assumption | now apply Hall].
Qed.

Lemma dpll_sound_witness :
  (forall c, In c [[1; 2]; [-1; 2]; [1; -2]] ->
             exists l, In l c /\ In l [1; 2]) /\
  (tidy [[1; 2]; [-1; 2]; [1; -2]] ->
   consistent [1; 2] /\
   formula_true (model_of [1; 2]) [[1; 2]; [-1; 2]; [1; -2]] = true).
Proof.
  apply (dpll_sound [[1; 2]; [-1; 2]; [1; -2]] 2 [1; 2]).
  reflexivity.
Defined.

(** ** The exhaustive check *)

Lemma assignments_spec (n : nat) (a : list Z) :
  In a (assignments n) ->
  consistent a /\ forall l, In l a -> 1 <= Z.abs l <= Z.of_nat n.
Proof.
  revert a. induction n as [|n IH]; intros a Ha.
  - destruct Ha as [<-|[]]. split; [intros l [] | intros l []].
  - cbn [assignments] in Ha. apply in_flat_map in Ha as [a' [Ha' Ha]].
    destruct (IH a' Ha') as [Hc Hr].
    assert (Hfresh : forall l, In l a' -> Z.abs l <> Z.of_nat (S n)).
    { intros l Hl. specialize (Hr l Hl). lia. }
    destruct Ha as [<-|[<-|[]]]; split.
    + intros l [<-|Hl] [Hn|Hn]; try lia.
      * apply (Hfresh _ Hn). lia.
      * apply (Hfresh _ Hl). lia.
      * now apply (Hc l).
    + intros l [<-|Hl]; [lia|]. specialize (Hr l Hl). lia.
    + intros l [<-|Hl] [Hn|Hn]; try lia.
      * apply (Hfresh _ Hn). lia.
      * apply (Hfresh _ Hl). lia.
      * now apply (Hc l).
    + intros l [<-|Hl]; [lia|]. specialize (Hr l Hl). lia.
Qed.

Lemma signs_of_assignments (m : Z -> bool) (n : nat) :
  In (signs_of m n) (assignments n).
Proof.
  induction n as [|n IH]; [now left|].
  cbn [assignments signs_of]. apply in_flat_map.
  exists (signs_of m n). split; [assumption|].
  destruct (m (Z.of_nat (S n))); [now left | right; now left].
Qed.

Lemma signs_of_true (m : Z -> bool) (n : nat) (l : Z) :
  1 <= Z.abs l <= Z.of_nat n -> lit_true m l = true -> In l (signs_of m n).
Proof.
  induction n as [|n IH]; intros Hr Hl; [lia|].
  cbn [signs_of].
  destruct (Z.eq_dec (Z.abs l) (Z.of_nat (S n))) as [E|E].
  - left. unfold lit_true in Hl. destruct (Z.ltb_spec 0 l) as [Hpos|Hneg].
    + replace (Z.of_nat (S n)) with l by lia. now rewrite Hl.
    + replace (Z.of_nat (S n)) with (- l) by lia.
      apply negb_true_iff in Hl. rewrite Hl. lia.
  - right. apply IH; [lia | assumption].
Qed.

(** The exhaustive check over the variables [1..n_props] decides
    satisfiability of a formula over these variables. *)
Lemma brute_force_spec (cs : list clause) (n_props : Z) :
  (forall l, In l (literals_of cs) -> 1 <= Z.abs l <= n_props) ->
  brute_force cs n_props = true <-> exists m, formula_true m cs = true.
Proof.
  intros Hr. unfold brute_force. rewrite existsb_exists. split.
  - intros [a [Ha Hsat]]. apply assignments_spec in Ha as [Hc _].
    exists (model_of a). unfold satisfied_by in Hsat.
    unfold formula_true. rewrite forallb_forall in *. intros c Hin.
    specialize (Hsat c Hin). apply existsb_exists in Hsat as [l [Hl Hm]].
    apply mem_In in Hm. apply hits_clause_true; [assumption|]. now exists l.
  - intros [m Hm]. exists (signs_of m (Z.to_nat n_props)).
    split; [apply signs_of_assignments|].
    unfold satisfied_by. apply forallb_forall. intros c Hin.
    pose proof (formula_true_In m cs c Hm Hin) as Hc.
    apply existsb_exists in Hc as [l [Hl Ht]].
    apply existsb_exists. exists l. split; [assumption|].
    apply mem_In, signs_of_true; [|assumption].
    assert (In l (literals_of cs)).
    { unfold literals_of. apply in_concat. now exists c. }
    specialize (Hr l H). lia.
Qed.

(** C2, as the code has it.  On a non-empty formula with at most 20
    variables whose clauses are non-empty, hold no literal [0] and repeat
    no literal, [dpll] returns, after a search that nests at most 20 calls
    of [_dpll], and it returns [None] exactly when no total assignment
    satisfies the formula, which is the verdict of the exhaustive check
    when the literals are over the variables [1..n_props]; a returned list
    is consistent and, read as a total assignment, satisfies the
    formula. *)
Theorem dpll_verdict_on_well_formed (formula : list clause) (n_props : Z) :
  (variable_count (Clauses formula) <= 20)%nat ->
  formula <> [] ->
  (forall c, In c formula -> c <> []) ->
  tidy formula ->
  (exists r, dpll formula n_props = Ret r) /\
  Forall (fun e => (event_depth e <= 20)%nat)
         (fst (_dpll_traced (Clauses formula) [])) /\
  (dpll formula n_props = Ret None <->
   forall m, formula_true m formula = false) /\
  ((forall l, In l (literals_of formula) -> Z.abs l <= n_props) ->
   (dpll formula n_props = Ret None <->
    brute_force formula n_props = false)) /\
  (forall solution,
     dpll formula n_props = Ret (Some solution) ->
     consistent solution /\
     formula_true (model_of solution) formula = true).
Proof.
  intros Hvars Hcs Hne Ht.
  assert (Hsat : forall solution,
             dpll formula n_props = Ret (Some solution) ->
             consistent solution /\
             formula_true (model_of solution) formula = true).
  { intros solution H.
    apply dpll_Some in H as [found [Hrun [Hfound ->]]].
    unfold _dpll, _dpll_traced in Hrun.
    destruct (_dpll_fuel (S (size (Clauses formula))) 0 (Clauses formula) [])
      as [log r] eqn:E.
    cbn [snd] in Hrun. subst r.
    destruct (_dpll_fuel_coherent _ _ _ _ _ _ E Hfound (coherent_nil _ Ht))
      as [Hc _].
    destruct (_dpll_fuel_hits _ _ _ _ _ _ E Hfound) as [_ Hhits].
    pose proof (consistent_completed found n_props Hc) as Hc'.
    split; [assumption|].
    unfold formula_true. apply forallb_forall. intros c Hin.
    apply hits_clause_true; [assumption|].
    destruct (Hhits formula eq_refl c Hin) as [l [Hl Hf]].
    exists l. split; [assumption|].
    apply (proj2 (In_sort_by_abs _ _)), in_or_app. now right. }
  destruct (_dpll_returns formula [] Hne) as [log [found [Htr Hrun]]].
  assert (Hverdict : dpll formula n_props = Ret None <->
                     forall m, formula_true m formula = false).
  { split.
    - intros H. unfold dpll in H. rewrite Hrun in H. cbn [bind] in H.
      destruct found as [|x found]; [|discriminate].
      apply (_dpll_fuel_refutes _ _ _ _ _ Htr); [now right|].
      now apply tidy_no_zero.
    - intros Hunsat.
      destruct (dpll formula n_props) as [[solution|]|e|] eqn:E.
      + destruct (Hsat solution eq_refl) as [_ Hm].
        rewrite Hunsat in Hm. discriminate.
      + reflexivity.
      + unfold dpll in E. rewrite Hrun in E. cbn [bind] in E.
        destruct (negb (truthy found)); discriminate.
      + unfold dpll in E. rewrite Hrun in E. cbn [bind] in E.
        destruct (negb (truthy found)); discriminate. }
  split; [|split; [|split; [exact Hverdict | split; [|exact Hsat]]]].
  - unfold dpll. rewrite Hrun. cbn [bind].
    destruct (negb (truthy found)); eauto.
  - pose proof (undecided_le_variables formula) as Hle.
    unfold variable_count in Hvars. unfold _dpll_traced.
    eapply Forall_impl; [|apply _dpll_fuel_progress].
    cbn beta. intros e [_ H]. cbn [Nat.add undecided_count] in H. lia.
  - intros Hrange. rewrite Hverdict.
    assert (Hbf : brute_force formula n_props = true <->
                  exists m, formula_true m formula = true).
    { apply brute_force_spec. intros l Hl.
      pose proof (tidy_literal_nonzero _ _ Ht Hl).
      specialize (Hrange l Hl). lia. }
    split.
    + intros Hunsat. apply not_true_iff_false. intros Hb.
      apply Hbf in Hb as [m Hm]. rewrite Hunsat in Hm. discriminate.
    + intros Hb m. apply not_true_iff_false. intros Hm.
      apply not_true_iff_false in Hb. apply Hb, Hbf. now exists m.
Qed.

Lemma dpll_verdict_on_well_formed_witness :
  dpll [[1; 2]; [-1; 2]; [1; -2]; [-1; -2]] 2 = Ret None <->
  brute_force [[1; 2]; [-1; 2]; [1; -2]; [-1; -2]] 2 = false.
Proof.
  apply (dpll_verdict_on_well_formed
           [[1; 2]; [-1; 2]; [1; -2]; [-1; -2]] 2).
  - vm_compute. lia.
  - discriminate.
  - intros c [<-|[<-|[<-|[<-|[]]]]]; discriminate.
  - intros c [<-|[<-|[<-|[<-|[]]]]];
      (split; [repeat constructor |]); simpl; intuition lia.
  - intros l. simpl. intuition (subst; lia).
Defined.

(** ** The format of the returned assignment *)

Lemma insert_by_abs_sorted (x : Z) (xs : list Z) :
  StronglySorted (fun a b => Z.abs a <= Z.abs b) xs ->
  StronglySorted (fun a b => Z.abs a <= Z.abs b) (insert_by_abs x xs).
Proof.
  induction 1 as [|y ys Hys IH Hy]; simpl.
  - constructor; constructor.
  - destruct (Z.leb_spec (Z.abs x) (Z.abs y)) as [Hle|Hgt].
    + constructor; [now constructor|].
      constructor; [assumption|].
      eapply Forall_impl; [|exact Hy]. cbn beta. intros z Hz. lia.
    + constructor; [assumption|].
      apply Forall_forall. intros z Hz.
      apply (Permutation_in z (insert_by_abs_perm x ys)) in Hz.
      destruct Hz as [<-|Hz]; [lia|].
      now apply (proj1 (Forall_forall _ _) Hy).
Qed.

Lemma sort_by_abs_sorted (xs : list Z) :
  StronglySorted (fun a b => Z.abs a <= Z.abs b) (sort_by_abs xs).
Proof.
  induction xs as [|x xs IH]; simpl; [constructor|].
  now apply insert_by_abs_sorted.
Qed.

Lemma sorted_map_abs (xs : list Z) :
  StronglySorted (fun a b => Z.abs a <= Z.abs b) xs ->
  StronglySorted Z.le (map Z.abs xs).
Proof.
  induction 1 as [|y ys Hys IH Hy]; simpl; constructor; [assumption|].
  apply Forall_forall. intros z Hz. apply in_map_iff in Hz as [w [<- Hw]].
  now apply (proj1 (Forall_forall _ _) Hy).
Qed.

Lemma sorted_NoDup_strict (xs : list Z) :
  StronglySorted Z.le xs -> NoDup xs -> StronglySorted Z.lt xs.
Proof.
  induction 1 as [|y ys Hys IH Hy]; intros Hnd; constructor.
  - apply IH. now inversion Hnd.
  - inversion Hnd as [|? ? Hnot _]; subst. apply Forall_forall.
    intros z Hz. pose proof (proj1 (Forall_forall _ _) Hy z Hz).
    assert (z <> y) by (intros ->; contradiction). lia.
Qed.

Lemma strict_sorted_eq (xs ys : list Z) :
  StronglySorted Z.lt xs -> StronglySorted Z.lt ys ->
  (forall z, In z xs <-> In z ys) -> xs = ys.
Proof.
  intros Hxs. revert ys.
  induction Hxs as [|x xs Hxs IH Hx]; intros ys Hys Heq.
  - destruct ys as [|y ys]; [reflexivity|].
    exfalso. apply (proj2 (Heq y)). now left.
  - destruct Hys as [|y ys Hys Hy].
    + exfalso. apply (proj1 (Heq x)). now left.
    + pose proof (proj1 (Forall_forall _ _) Hx) as Hx'.
      pose proof (proj1 (Forall_forall _ _) Hy) as Hy'.
      assert (Hhead : x = y).
      { destruct (proj1 (Heq x) (or_introl eq_refl)) as [E|Hxin];
          [congruence|].
        destruct (proj2 (Heq y) (or_introl eq_refl)) as [E|Hyin];
          [congruence|].
        specialize (Hx' _ Hyin). specialize (Hy' _ Hxin). lia. }
      subst y. f_equal. apply IH; [assumption|].
      intros z. split; intros Hz.
      * destruct (proj1 (Heq z) (or_intror Hz)) as [E|Hin]; [|assumption].
        specialize (Hx' _ Hz). lia.
      * destruct (proj2 (Heq z) (or_intror Hz)) as [E|Hin]; [|assumption].
        specialize (Hy' _ Hz). lia.
Qed.

Lemma range_sorted (a b : Z) : StronglySorted Z.lt (range a b).
Proof.
  unfold range. generalize (Z.to_nat (b - a)) as len. generalize 0%nat as s.
  intros s len. revert s. induction len as [|len IH]; intros s; simpl;
    constructor; [apply IH|].
  apply Forall_forall. intros z Hz. apply in_map_iff in Hz as [k [<- Hk]].
  apply in_seq in Hk. lia.
Qed.

Lemma NoDup_map_abs (a : list Z) :
  NoDup a -> consistent a -> NoDup (map Z.abs a).
Proof.
  induction 1 as [|x xs Hx Hnd IH]; intros Hc; simpl; constructor.
  - intros Hin. apply in_map_iff in Hin as [y [Habs Hy]].
    assert (Hcases : y = x \/ y = - x) by lia.
    destruct Hcases as [->| ->]; [contradiction|].
    apply (Hc x); [now left | now right].
  - apply IH. intros l Hl Hn. apply (Hc l); now right.
Qed.

Lemma NoDup_range (a b : Z) : NoDup (range a b).
Proof.
  pose proof (range_sorted a b) as H.
  induction H as [|x xs Hxs IH Hx]; constructor; [|assumption].
  intros Hin. pose proof (proj1 (Forall_forall _ _) Hx x Hin). lia.
Qed.

(** C3, as the code has it.  When no clause holds the literal [0] or
    repeats a literal and every literal is over a variable in
    [1..n_props], a list returned by [dpll] is, in magnitude, the sequence
    [1, ..., n_props]: exactly [n_props] non-zero literals, one per
    variable, in ascending order of magnitude, never both signs of a
    variable.  The variables that the search left out appear with the
    positive sign (this part needs no assumption). *)
Theorem dpll_total_assignment (formula : list clause) (n_props : Z)
    (solution : list Z) :
  tidy formula ->
  (forall l, In l (literals_of formula) -> Z.abs l <= n_props) ->
  dpll formula n_props = Ret (Some solution) ->
  map Z.abs solution = range 1 (n_props + 1) /\
  length solution = Z.to_nat n_props /\
  consistent solution /\
  ~ In 0 solution /\
  exists found,
    _dpll (Clauses formula) [] = Ret found /\
    (forall l, In l found -> In l solution) /\
    (forall i, 1 <= i <= n_props ->
               ~ In i found -> ~ In (- i) found -> In i solution).
Proof.
  intros Ht Hrange H.
  apply dpll_Some in H as [found [Hrun [Hfound ->]]].
  pose proof Hrun as Hrun'.
  unfold _dpll, _dpll_traced in Hrun.
  destruct (_dpll_fuel (S (size (Clauses formula))) 0 (Clauses formula) [])
    as [log r] eqn:E.
  cbn [snd] in Hrun. subst r.
  destruct (_dpll_fuel_coherent _ _ _ _ _ _ E Hfound (coherent_nil _ Ht))
    as [Hc [Hnd Hvars]].
  pose proof (consistent_completed found n_props Hc) as Hc'.
  set (extra := filter (fun i => negb (mem i found) && negb (mem (- i) found))
                       (range 1 (n_props + 1))) in *.
  assert (Hextra : forall i, In i extra <->
                             1 <= i <= n_props /\
                             ~ In i found /\ ~ In (- i) found).
  { intros i. unfold extra. rewrite filter_In, In_range, andb_true_iff.
    rewrite !negb_true_iff, !mem_false. intuition lia. }
  assert (Hfound_range : forall l, In l found -> 1 <= Z.abs l <= n_props).
  { intros l Hl. destruct (Hvars l Hl) as [[]|Hv].
    apply In_variables in Hv as [l' [Hl' Habs]]. rewrite Habs.
    pose proof (tidy_literal_nonzero _ _ Ht Hl').
    pose proof (Hrange l' Hl'). lia. }
  assert (Hall : NoDup (extra ++ found)).
  { apply NoDup_app; [apply NoDup_filter, NoDup_range | assumption |].
    intros i Hi. now apply Hextra in Hi. }
  assert (Habs : map Z.abs (sort_by_abs (extra ++ found)) =
                 range 1 (n_props + 1)).
  { apply strict_sorted_eq.
    - apply sorted_NoDup_strict.
      + apply sorted_map_abs, sort_by_abs_sorted.
      + apply NoDup_map_abs; [|assumption].
        apply (Permutation_NoDup
                 (Permutation_sym (sort_by_abs_perm (extra ++ found)))).
        assumption.
    - apply range_sorted.
    - intros z. rewrite In_range, in_map_iff. split.
      + intros [l [<- Hl]]. apply (proj1 (In_sort_by_abs _ _)) in Hl.
        apply in_app_or in Hl as [Hl|Hl].
        * apply Hextra in Hl. lia.
        * apply Hfound_range in Hl. lia.
      + intros Hz.
        destruct (in_dec Z.eq_dec z found) as [H1|H1].
        * exists z. split; [lia|]. apply (proj2 (In_sort_by_abs _ _)), in_or_app.
          now right.
        * destruct (in_dec Z.eq_dec (- z) found) as [H2|H2].
          -- exists (- z). split; [lia|]. apply (proj2 (In_sort_by_abs _ _)), in_or_app.
             now right.
          -- exists z. split; [lia|]. apply (proj2 (In_sort_by_abs _ _)), in_or_app.
             left. apply Hextra. split; [lia | now split]. }
  split; [exact Habs|]. split; [|split; [exact Hc'|split]].
  - rewrite <- (length_map Z.abs), Habs. unfold range.
    rewrite length_map, length_seq. f_equal. lia.
  - intros H0. now apply (consistent_nonzero _ 0 Hc').
  - exists found. split; [exact Hrun'|]. split.
    + intros l Hl. apply (proj2 (In_sort_by_abs _ _)), in_or_app. now right.
    + intros i Hi H1 H2. apply (proj2 (In_sort_by_abs _ _)), in_or_app. left.
      now apply Hextra.
Qed.

Lemma dpll_total_assignment_witness :
  map Z.abs [1; 2; 3] = range 1 (3 + 1) /\
  length [1; 2; 3] = Z.to_nat 3 /\
  consistent [1; 2; 3] /\
  ~ In 0 [1; 2; 3] /\
  exists found,
    _dpll (Clauses [[1; -2]; [2; 1]]) [] = Ret found /\
    (forall l, In l found -> In l [1; 2; 3]) /\
    (forall i, 1 <= i <= 3 ->
               ~ In i found -> ~ In (- i) found -> In i [1; 2; 3]).
Proof.
  apply (dpll_total_assignment [[1; -2]; [2; 1]] 3 [1; 2; 3]).
  - intros c [<-|[<-|[]]]; (split; [|intros [H|[H|[]]]; discriminate]);
      repeat constructor; simpl; intuition discriminate.
  - intros l. simpl. intuition (subst; lia).
  - reflexivity.
Defined.

(** * count_literals *)

Lemma stored_incr (counts : counter) (l k : Z) :
  stored (incr counts l) k =
  if k =? l then stored counts k + 1 else stored counts k.
Proof.
  induction counts as [|[k0 n] rest IH]; simpl.
  - rewrite (Z.eqb_sym l k). now destruct (k =? l).
  - destruct (Z.eqb_spec k0 l) as [->|Hne]; simpl.
    + rewrite (Z.eqb_sym l k). now destruct (k =? l).
    + rewrite IH. destruct (Z.eqb_spec k0 k) as [->|Hk]; [|reflexivity].
      destruct (Z.eqb_spec k l); [congruence | reflexivity].
Qed.

Lemma keys_incr_order (counts : counter) (l : Z) :
  keys (incr counts l) =
  if mem l (keys counts) then keys counts else keys counts ++ [l].
Proof.
  induction counts as [|[k0 n] rest IH]; simpl; [reflexivity|].
  rewrite (Z.eqb_sym l k0).
  destruct (Z.eqb_spec k0 l) as [->|Hne]; simpl; [reflexivity|].
  unfold keys in *. rewrite IH. unfold mem.
  now destruct (existsb (Z.eqb l) (map fst rest)).
Qed.

Lemma count_clause_stored (c : clause) (counts : counter) (k : Z) :
  stored (fold_left incr c counts) k =
  stored counts k + Z.of_nat (count_occ Z.eq_dec c k).
Proof.
  revert counts. induction c as [|l ls IH]; intros counts; simpl; [lia|].
  rewrite IH, stored_incr.
  destruct (Z.eq_dec l k) as [->|Hne].
  - rewrite Z.eqb_refl. lia.
  - destruct (Z.eqb_spec k l); [congruence | lia].
Qed.

Lemma count_clause_keys (c : clause) (counts : counter) :
  keys (fold_left incr c counts) =
  fold_left (fun acc x => if mem x acc then acc else acc ++ [x]) c
            (keys counts).
Proof.
  revert counts. induction c as [|l ls IH]; intros counts; simpl;
    [reflexivity|].
  now rewrite IH, keys_incr_order.
Qed.

Lemma count_formula_stored (cs : list clause) (counts : counter) (k : Z) :
  stored (fold_left (fun counts clause => fold_left incr clause counts)
                    cs counts) k =
  stored counts k + Z.of_nat (count_occ Z.eq_dec (literals_of cs) k).
Proof.
  revert counts. induction cs as [|c rest IH]; intros counts;
    [simpl; lia|].
  rewrite literals_of_cons, count_occ_app. cbn [fold_left].
  rewrite IH, count_clause_stored. lia.
Qed.

Lemma count_formula_keys (cs : list clause) (counts : counter) :
  keys (fold_left (fun counts clause => fold_left incr clause counts)
                  cs counts) =
  fold_left (fun acc x => if mem x acc then acc else acc ++ [x])
            (literals_of cs) (keys counts).
Proof.
  revert counts. induction cs as [|c rest IH]; intros counts;
    [reflexivity|].
  rewrite literals_of_cons, fold_left_app. cbn [fold_left].
  now rewrite IH, count_clause_keys.
Qed.

Lemma stored_In (counts : counter) (k n : Z) :
  NoDup (keys counts) ->
  In (k, n) counts <-> In k (keys counts) /\ stored counts k = n.
Proof.
  induction counts as [|[k0 n0] rest IH]; simpl; intros Hnd.
  - tauto.
  - inversion Hnd as [|? ? Hk0 Hrest]; subst. specialize (IH Hrest).
    destruct (Z.eqb_spec k0 k) as [->|Hne].
    + split.
      * intros [E|Hin]; [injection E as <-; auto|].
        exfalso. apply Hk0. apply IH in Hin. tauto.
      * intros [_ <-]. now left.
    + rewrite IH. split.
      * intros [E|H]; [congruence | tauto].
      * intros [[E|H] Hs]; [congruence | tauto].
Qed.

Lemma NoDup_keys_count_formula (cs : list clause) :
  NoDup (keys (fold_left (fun counts clause => fold_left incr clause counts)
                         cs [])).
Proof.
  assert (H : forall counts,
             NoDup (keys counts) ->
             NoDup (keys (fold_left
                            (fun counts clause => fold_left incr clause counts)
                            cs counts))).
  { induction cs as [|c rest IH]; intros counts Hc; simpl; [assumption|].
    now apply IH, NoDup_keys_count_clause. }
  apply H. constructor.
Qed.

(** X1.  On a list of clauses [count_literals] returns a dictionary whose
    keys are the distinct literals of the formula, each once, in the order
    of their first occurrence, and whose value for a literal is the number
    of its occurrences in the formula. *)
Theorem count_literals_counts (cs : list clause) :
  exists counts,
    count_literals (Clauses cs) = Ret counts /\
    keys counts = first_seen (literals_of cs) /\
    NoDup (keys counts) /\
    forall l n,
      In (l, n) counts <->
      In l (literals_of cs) /\
      n = Z.of_nat (count_occ Z.eq_dec (literals_of cs) l).
Proof.
  eexists. split; [reflexivity|]. split; [apply count_formula_keys|].
  split; [apply NoDup_keys_count_formula|].
  intros l n. rewrite stored_In by apply NoDup_keys_count_formula.
  rewrite keys_count_formula, count_formula_stored. simpl.
  intuition lia.
Qed.

(** * ple *)

Lemma pures_order (cs : list clause) :
  pures cs =
  filter (fun l => negb (mem (- l) (literals_of cs)))
         (first_seen (literals_of cs)).
Proof.
  unfold pures, pure_literals_of. rewrite count_formula_keys.
  apply filter_ext_in. intros l _. rewrite neg1_mul. f_equal.
  destruct (mem (- l) (literals_of cs)) eqn:Hm.
  - apply has_key_keys, keys_count_formula. left. now apply mem_In.
  - apply not_true_iff_false. intros Hk.
    apply has_key_keys, keys_count_formula in Hk as [Hk|[]].
    apply mem_In in Hk. congruence.
Qed.

(** X2.  On a list of clauses [ple] neither raises nor returns [-1].  The
    literals it returns are those whose complement does not occur in the
    formula, each once, in the order of their first occurrence; the formula
    it returns consists of the clauses that hold none of them, unchanged
    and in their order, and mentions neither these literals nor their
    complements. *)
Theorem ple_deletes_clauses_with_pure_literals (cs : list clause) :
  exists cs' ps,
    ple (Clauses cs) = Ret (Clauses cs', ps) /\
    ps = filter (fun l => negb (mem (- l) (literals_of cs)))
                (first_seen (literals_of cs)) /\
    NoDup ps /\
    (forall p, In p ps <->
               In p (literals_of cs) /\ ~ In (- p) (literals_of cs)) /\
    cs' = filter (fun c => negb (existsb (fun p => mem p c) ps)) cs /\
    (forall p, In p ps ->
               ~ In p (literals_of cs') /\ ~ In (- p) (literals_of cs')).
Proof.
  exists (without (pures cs) cs), (pures cs).
  split; [apply ple_Clauses|]. split; [apply pures_order|].
  split; [apply NoDup_pures|]. split; [apply In_pures|].
  split; [reflexivity|].
  intros p Hp. split; [now apply In_without_literals|].
  intros Hin. apply In_pures in Hp as [_ Hp]. apply Hp.
  now apply (refines_literals _ _ (without_refines (pures cs) cs)).
Qed.

Lemma forced_pure (cs : list clause) (m : Z -> bool) (p : Z) :
  In p (pures cs) -> lit_true (forced (pures cs) m) p = true.
Proof.
  intros Hp. pose proof Hp as Hin. apply In_pures in Hin as [Hin Hno].
  assert (Hp0 : p <> 0) by (intros ->; now apply Hno).
  unfold lit_true, forced. destruct (Z.ltb_spec 0 p) as [Hpos|Hneg].
  - apply mem_In in Hp. now rewrite Hp.
  - assert (Hm : mem (- p) (pures cs) = false).
    { apply mem_false. intros H. apply In_pures in H as [H _].
      contradiction. }
    rewrite Hm, Z.opp_involutive.
    apply mem_In in Hp. now rewrite Hp.
Qed.

Lemma forced_other (cs : list clause) (m : Z -> bool) (l : Z) :
  In l (literals_of cs) -> ~ In l (pures cs) ->
  lit_true (forced (pures cs) m) l = lit_true m l.
Proof.
  intros Hl Hnot.
  assert (H1 : mem l (pures cs) = false) by now apply mem_false.
  assert (H2 : mem (- l) (pures cs) = false).
  { apply mem_false. intros H. apply In_pures in H as [_ H].
    apply H. now rewrite Z.opp_involutive. }
  unfold lit_true, forced. destruct (0 <? l).
  - now rewrite H1, H2.
  - now rewrite H2, Z.opp_involutive, H1.
Qed.

(** X3.  Pure literal elimination keeps satisfiability: a total assignment
    that satisfies the formula satisfies the formula [ple] returns, and an
    assignment that satisfies the returned formula satisfies the original
    one once it is changed to make the returned literals true. *)
Theorem ple_keeps_satisfiability (cs cs' : list clause) (ps : list Z) :
  ple (Clauses cs) = Ret (Clauses cs', ps) ->
  (forall m, formula_true m cs = true -> formula_true m cs' = true) /\
  (forall m, formula_true m cs' = true ->
             formula_true (forced ps m) cs = true /\
             forallb (lit_true (forced ps m)) ps = true) /\
  ((exists m, formula_true m cs = true) <->
   (exists m, formula_true m cs' = true)).
Proof.
  rewrite ple_Clauses. intros H. injection H as <- <-.
  assert (H1 : forall m, formula_true m cs = true ->
                         formula_true m (without (pures cs) cs) = true)
    by (intros m; apply without_model).
  assert (H2 : forall m, formula_true m (without (pures cs) cs) = true ->
                         formula_true (forced (pures cs) m) cs = true /\
                         forallb (lit_true (forced (pures cs) m)) (pures cs)
                         = true).
  { intros m Hm. split.
    - unfold formula_true. apply forallb_forall. intros c Hc.
      destruct (existsb (fun p => mem p c) (pures cs)) eqn:Hex.
      + apply existsb_exists in Hex as [p [Hp Hpc]]. apply mem_In in Hpc.
        apply (clause_true_In _ p); [assumption | now apply forced_pure].
      + assert (Hin : In c (without (pures cs) cs)).
        { unfold without. apply filter_In. now rewrite Hex. }
        pose proof (formula_true_In m _ c Hm Hin) as Hc'.
        apply existsb_exists in Hc' as [l [Hl Ht]].
        apply (clause_true_In _ l); [assumption|].
        rewrite forced_other; [assumption | |].
        * unfold literals_of. apply in_concat. now exists c.
        * intros Hp. apply In_without in Hin as [_ Hin].
          now apply (Hin l).
    - apply forallb_forall. intros p Hp. now apply forced_pure. }
  split; [exact H1|]. split; [exact H2|]. split.
  - intros [m Hm]. exists m. now apply H1.
  - intros [m Hm]. exists (forced (pures cs) m). now apply H2.
Qed.

Lemma ple_keeps_satisfiability_witness :
  (exists m, formula_true m [[1; 2]; [-2; 3]; [-3; 2]] = true) <->
  (exists m, formula_true m [[-2; 3]; [-3; 2]] = true).
Proof.
  apply (ple_keeps_satisfiability [[1; 2]; [-2; 3]; [-3; 2]]
                                  [[-2; 3]; [-3; 2]] [1]).
  reflexivity.
Defined.

(** * up *)

Lemma propagates_equivalent (cs : list clause) (us : list Z)
    (cs2 : list clause) (m : Z -> bool) :
  propagates cs us (Clauses cs2) ->
  formula_true m cs = formula_true m cs2 && forallb (lit_true m) us.
Proof.
  intros H. remember (Clauses cs2) as f eqn:Hf.
  induction H as [cs0 _ | cs0 u _ _ | cs0 u cs1 us0 f0 Hfu Hloop _ IH].
  - injection Hf as <-. simpl. now rewrite andb_true_r.
  - discriminate.
  - specialize (IH Hf). apply make_true_loop_Clauses in Hloop as [-> _].
    apply first_unit_Some in Hfu as [Hfu _].
    cbn [forallb]. destruct (lit_true m u) eqn:Hu.
    + rewrite <- (formula_true_simplified m u cs0 Hu), IH. reflexivity.
    + cbn [andb]. rewrite andb_false_r.
      destruct (formula_true m cs0) eqn:Hm; [|reflexivity].
      rewrite (unit_clause_true m cs0 u Hm Hfu) in Hu. discriminate.
Qed.

Lemma propagates_distinct (cs : list clause) (us : list Z) (f : pyformula) :
  propagates cs us f -> NoDup us.
Proof.
  induction 1 as [cs0 _ | cs0 u _ _ | cs0 u cs1 us0 f0 _ Hloop Hp IH].
  - constructor.
  - constructor; [intros [] | constructor].
  - constructor; [|assumption]. intros Hin.
    apply (propagates_assigned _ _ _ Hp) in Hin.
    apply make_true_loop_Clauses in Hloop as [-> _].
    now apply (simplified_drops u cs0).
Qed.

Lemma propagates_count (cs : list clause) (us : list Z) (cs2 : list clause) :
  propagates cs us (Clauses cs2) ->
  (length cs2 + length us <= length cs)%nat.
Proof.
  intros H. remember (Clauses cs2) as f eqn:Hf.
  induction H as [cs0 _ | cs0 u _ _ | cs0 u cs1 us0 f0 Hfu Hloop _ IH].
  - injection Hf as <-. simpl. lia.
  - discriminate.
  - specialize (IH Hf). apply make_true_loop_Clauses in Hloop as [-> _].
    apply first_unit_Some in Hfu as [Hfu _].
    pose proof (simplified_shorter u cs0 [u] Hfu (or_introl eq_refl)).
    simpl. lia.
Qed.

(** X4.  Unit propagation is an equivalence.  When [up] returns a list of
    clauses with the literals it assigned, a total assignment satisfies
    the original formula exactly when it satisfies the returned formula and
    makes every returned literal true; when [up] returns [-1], no total
    assignment satisfies the original formula. *)
Theorem up_is_an_equivalence (cs : list clause) (f : pyformula)
    (assigned : list Z) :
  up (Clauses cs) = Ret (f, assigned) ->
  match f with
  | Clauses cs' =>
      forall m, formula_true m cs =
                formula_true m cs' && forallb (lit_true m) assigned
  | Minus1 => forall m, formula_true m cs = false
  end.
Proof.
  intros H. destruct (up_course cs) as [us [f' [Hp [Hu _]]]].
  rewrite Hu in H. injection H as <- <-.
  destruct f' as [cs'|]; cbn [is_minus1].
  - intros m. now apply propagates_equivalent.
  - intros m. destruct (formula_true m cs) eqn:Hm; [|reflexivity].
    exfalso. exact (propagates_model _ _ _ m Hp Hm).
Qed.

Lemma up_is_an_equivalence_witness :
  formula_true (fun x => x =? 3) [[1]; [-1; 2]; [-2; 3; 4]] =
  formula_true (fun x => x =? 3) [[3; 4]] &&
  forallb (lit_true (fun x => x =? 3)) [1; 2].
Proof.
  apply (up_is_an_equivalence [[1]; [-1; 2]; [-2; 3; 4]]
                              (Clauses [[3; 4]]) [1; 2]).
  reflexivity.
Defined.

(** X5.  On a list of clauses [up] always returns, without raising.  A
    formula it returns has no unit clause, so that [up] applied to it
    returns it unchanged with no literal; the literals returned are
    pairwise distinct, each of them occurs in the original formula, and
    every one of them cost the formula at least one clause. *)
Theorem up_reaches_a_fixed_point (cs : list clause) :
  exists f assigned,
    up (Clauses cs) = Ret (f, assigned) /\
    NoDup assigned /\
    incl assigned (literals_of cs) /\
    match f with
    | Clauses cs' =>
        get_unit_clause (Clauses cs') = Ret None /\
        up (Clauses cs') = Ret (Clauses cs', []) /\
        (length cs' + length assigned <= length cs)%nat /\
        (forall l, In l assigned -> ~ In l (literals_of cs'))
    | Minus1 => assigned = []
    end.
Proof.
  destruct (up_course cs) as [us [f [Hp [Hu _]]]].
  exists f, (if is_minus1 f then [] else us). split; [exact Hu|].
  destruct f as [cs'|]; cbn [is_minus1].
  - split; [exact (propagates_distinct _ _ _ Hp)|].
    split; [exact (propagates_assigned _ _ _ Hp)|].
    pose proof (propagates_no_unit _ _ _ Hp) as Hnone.
    split; [cbn; now rewrite Hnone|].
    split.
    { unfold up. cbn [get_unit_clause bind]. rewrite Hnone.
      now destruct (clause_count (Clauses cs')). }
    split; [exact (propagates_count _ _ _ Hp)|].
    clear Hu Hnone. remember (Clauses cs') as f eqn:Hf.
    induction Hp as [cs0 _ | cs0 u _ _ | cs0 u cs1 us0 f0 _ Hloop Hp IH].
    + intros l [].
    + discriminate.
    + intros l [<-|Hl]; [|now apply IH].
      apply make_true_loop_Clauses in Hloop as [-> _].
      intros Hin. apply (simplified_drops u cs0). subst f0.
      now apply (refines_literals _ _ (propagates_refines _ _ _ Hp)).
  - repeat split; [constructor | intros l []].
Qed.

(** * _make_literal_true and make_literals_true, further *)

Lemma simplified_absent (l : Z) (cs : list clause) :
  ~ In l (literals_of cs) -> ~ In (- l) (literals_of cs) ->
  simplified l cs = cs.
Proof.
  intros Hl Hn. rewrite simplified_pure by assumption.
  induction cs as [|c rest IH]; [reflexivity|].
  cbn [filter]. rewrite literals_of_cons in Hl, Hn.
  assert (Hm : mem l c = false).
  { apply mem_false. intros H. apply Hl, in_or_app. now left. }
  rewrite Hm. cbn [negb]. f_equal. apply IH.
  - intros H. apply Hl, in_or_app. now right.
  - intros H. apply Hn, in_or_app. now right.
Qed.

Lemma make_literal_true_absent (l : Z) (cs : list clause) :
  ~ In l (literals_of cs) -> ~ In (- l) (literals_of cs) ->
  _make_literal_true (Clauses cs) l = Ret (Clauses cs).
Proof.
  intros Hl Hn. rewrite make_literal_true_Clauses.
  - now rewrite simplified_absent.
  - intros c Hc ->. apply Hn. unfold literals_of. apply in_concat.
    exists [- l]. split; [assumption | now left].
Qed.

(** X6.  Making a literal true changes nothing in a formula that mentions
    neither the literal nor its complement; and when no clause repeats a
    literal, making the same literal true a second time changes nothing
    either (the operation is idempotent). *)
Theorem make_literal_true_idempotent (cs : list clause) (l : Z) :
  (~ In l (literals_of cs) -> ~ In (- l) (literals_of cs) ->
   _make_literal_true (Clauses cs) l = Ret (Clauses cs)) /\
  ((forall c, In c cs -> NoDup c) ->
   forall cs', _make_literal_true (Clauses cs) l = Ret (Clauses cs') ->
               _make_literal_true (Clauses cs') l = Ret (Clauses cs')).
Proof.
  split; [apply make_literal_true_absent|].
  intros Hnd cs' H. simpl in H. injection H as H.
  apply make_true_loop_Clauses in H as [-> _].
  apply make_literal_true_absent; [apply simplified_drops|].
  unfold literals_of. rewrite in_concat. intros [c' [Hc' Hl]].
  apply In_simplified in Hc' as [c [Hc [_ ->]]].
  now apply (remove_first_NoDup (- l) c (Hnd c Hc)).
Qed.

Lemma make_literal_true_idempotent_witness :
  _make_literal_true (Clauses [[2]; [3; -2]]) 1 = Ret (Clauses [[2]; [3; -2]]).
Proof.
  apply (proj2 (make_literal_true_idempotent [[-1; 2]; [3; -2]; [1; 3]] 1)).
  - intros c [<-|[<-|[<-|[]]]]; repeat constructor; simpl; intuition lia.
  - reflexivity.
Defined.

Lemma make_true_each_app (f : pyformula) (ls1 ls2 : list Z) :
  make_true_each f (ls1 ++ ls2) =
  (f' <- make_true_each f ls1 ;; make_true_each f' ls2).
Proof.
  revert f. induction ls1 as [|l ls1 IH]; intros f; [reflexivity|].
  cbn [app make_true_each].
  destruct (_make_literal_true f l) as [f'| |]; cbn [bind];
    [apply IH | reflexivity | reflexivity].
Qed.

Lemma make_true_each_Minus1 (ls : list Z) :
  make_true_each Minus1 ls =
  match ls with [] => Ret Minus1 | _ :: _ => Raise TypeError end.
Proof. now destruct ls. Qed.

Lemma make_true_each_step (cs : list clause) (l : Z) (ls : list Z) :
  make_true_each (Clauses cs) (l :: ls) =
  make_true_each (make_true_loop cs l []) ls.
Proof. reflexivity. Qed.

Lemma make_true_each_Clauses (ls : list Z) :
  forall cs cs',
    make_true_each (Clauses cs) ls = Ret (Clauses cs') ->
    refines cs' cs /\
    (forall l, In l ls -> ~ In l (literals_of cs')) /\
    forall m, forallb (lit_true m) ls = true ->
              formula_true m cs' = formula_true m cs.
Proof.
  induction ls as [|l ls IH]; intros cs cs' H.
  - injection H as <-. split; [apply refines_refl|].
    split; [intros l [] | reflexivity].
  - rewrite make_true_each_step in H.
    destruct (make_true_loop cs l []) as [cs1|] eqn:E;
      [|rewrite make_true_each_Minus1 in H; destruct ls; discriminate].
    apply make_true_loop_Clauses in E as [-> _].
    destruct (IH _ _ H) as [Hr [Hno Hm]]. split; [|split].
    + eapply refines_trans; [exact Hr | apply simplified_refines].
    + intros x [<-|Hx]; [|now apply Hno].
      intros Hin. apply (simplified_drops l cs).
      now apply (refines_literals _ _ Hr).
    + intros m Hall. cbn [forallb] in Hall.
      apply andb_true_iff in Hall as [Hl Hall].
      rewrite (Hm m Hall). now apply formula_true_simplified.
Qed.

Lemma make_true_each_conflict (ls : list Z) :
  forall cs,
    make_true_each (Clauses cs) ls = Ret Minus1 ->
    forall m, forallb (lit_true m) ls = true -> formula_true m cs = false.
Proof.
  induction ls as [|l ls IH]; intros cs H m Hall; [discriminate|].
  rewrite make_true_each_step in H. cbn [forallb] in Hall.
  apply andb_true_iff in Hall as [Hl Hall].
  destruct (make_true_loop cs l []) as [cs1|] eqn:E.
  - apply make_true_loop_Clauses in E as [-> _].
    rewrite <- (formula_true_simplified m l cs Hl). now apply IH.
  - apply make_true_loop_Minus1 in E as [c [Hc [-> Hl0]]].
    destruct (formula_true m cs) eqn:Hm; [|reflexivity].
    pose proof (unit_clause_true m cs (- l) Hm Hc) as Hn.
    rewrite lit_true_opp, Hl in Hn by assumption. discriminate.
Qed.

Lemma make_true_each_TypeError (ls : list Z) :
  forall cs,
    make_true_each (Clauses cs) ls = Raise TypeError <->
    exists before l after,
      ls = before ++ l :: after /\ after <> [] /\
      make_true_each (Clauses cs) (before ++ [l]) = Ret Minus1.
Proof.
  induction ls as [|l ls IH]; intros cs.
  - split; [discriminate|].
    intros [before [l [after [E _]]]]. now destruct before.
  - rewrite make_true_each_step.
    destruct (make_true_loop cs l []) as [cs1|] eqn:E.
    + rewrite IH. split.
      * intros [before [x [after [-> [Hafter Hc]]]]].
        exists (l :: before), x, after. repeat split; [assumption|].
        cbn [app]. now rewrite make_true_each_step, E.
      * intros [before [x [after [Hls [Hafter Hc]]]]].
        destruct before as [|b before]; cbn [app] in Hls, Hc;
          injection Hls as <- ->; rewrite make_true_each_step, E in Hc.
        -- discriminate.
        -- now exists before, x, after.
    + rewrite make_true_each_Minus1. split.
      * intros H. exists [], l, ls. repeat split.
        -- intros ->. discriminate.
        -- cbn [app]. now rewrite make_true_each_step, E.
      * intros [before [x [after [Hls [Hafter _]]]]].
        destruct ls as [|y ls]; [|reflexivity].
        destruct before as [|b [|b' before]]; cbn [app] in Hls;
          try discriminate.
        injection Hls as _ <-. contradiction.
Qed.

Lemma make_true_each_faults (ls : list Z) :
  forall cs,
    make_true_each (Clauses cs) ls <> Raise IndexError /\
    make_true_each (Clauses cs) ls <> OutOfFuel.
Proof.
  induction ls as [|l ls IH]; intros cs; [split; discriminate|].
  rewrite make_true_each_step.
  destruct (make_true_loop cs l []) as [cs1|]; [apply IH|].
  rewrite make_true_each_Minus1. destruct ls; split; discriminate.
Qed.

(** X7.  [make_literals_true] on a list of literals.  It returns a list of
    clauses only when no literal of the list met a conflict; that formula
    mentions none of the literals and has the truth value of the original
    one under every total assignment that makes all the literals true.  It
    returns [-1] only when the last literal met the conflict, and then no
    such assignment satisfies the original formula.  It raises [TypeError]
    exactly when a literal other than the last one met a conflict, and
    raises nothing else. *)
Theorem make_literals_true_on_a_list (cs : list clause) (ls : list Z) :
  (forall cs',
     make_literals_true (Clauses cs) (Many ls) = Ret (Clauses cs') ->
     refines cs' cs /\
     (forall l, In l ls -> ~ In l (literals_of cs')) /\
     forall m, forallb (lit_true m) ls = true ->
               formula_true m cs' = formula_true m cs) /\
  (make_literals_true (Clauses cs) (Many ls) = Ret Minus1 ->
   forall m, forallb (lit_true m) ls = true -> formula_true m cs = false) /\
  (make_literals_true (Clauses cs) (Many ls) = Raise TypeError <->
   exists before l after,
     ls = before ++ l :: after /\ after <> [] /\
     make_literals_true (Clauses cs) (Many (before ++ [l])) = Ret Minus1) /\
  make_literals_true (Clauses cs) (Many ls) <> Raise IndexError /\
  make_literals_true (Clauses cs) (Many ls) <> OutOfFuel.
Proof.
  cbn [make_literals_true].
  split; [apply make_true_each_Clauses|].
  split; [apply make_true_each_conflict|].
  split; [apply make_true_each_TypeError|].
  apply make_true_each_faults.
Qed.

Lemma make_literals_true_on_a_list_witness :
  forallb (lit_true (fun x => x =? 1)) [1; -3] = true /\
  formula_true (fun x => x =? 1) [[2]; [4]] =
  formula_true (fun x => x =? 1) [[-1; 2]; [3; 4]; [1; 5]].
Proof.
  split; [reflexivity|].
  apply (proj1 (make_literals_true_on_a_list
                  [[-1; 2]; [3; 4]; [1; 5]] [1; -3]) [[2]; [4]]);
    reflexivity.
Defined.

(** * _dpll and dpll, further *)

Lemma truthy_extended (x : list Z) (l : Z) (a : list Z) :
  truthy ((x ++ [l]) ++ a) = true.
Proof. now destruct x. Qed.

Lemma _dpll_fuel_valuation (n : nat) :
  forall (d d' : nat) (f : pyformula) (v w : list Z),
    same_search v w (snd (_dpll_fuel n d f v)) (snd (_dpll_fuel n d' f w)).
Proof.
  induction n as [|n IH]; intros d d' f v w; [left; now split|].
  destruct f as [cs|]; [|right; left; now exists TypeError].
  destruct (_dpll_fuel_unfold cs) as [us [f2 [Hp E]]].
  rewrite !E; clear E.
  destruct f2 as [[|[|lit c0] rest]|].
  - right. right. right. now exists (pures cs ++ us).
  - right. left. now exists IndexError.
  - cbv zeta.
    pose proof (IH (S d) (S d')
                  (make_true_loop ((lit :: c0) :: rest) lit [])
                  ((v ++ pures cs ++ us) ++ [lit])
                  ((w ++ pures cs ++ us) ++ [lit])) as H1.
    pose proof (IH (S d) (S d')
                  (make_true_loop ((lit :: c0) :: rest) (- lit) [])
                  ((v ++ pures cs ++ us) ++ [- lit])
                  ((w ++ pures cs ++ us) ++ [- lit])) as H2.
    destruct (_dpll_fuel n (S d)
                (make_true_loop ((lit :: c0) :: rest) lit [])
                ((v ++ pures cs ++ us) ++ [lit])) as [log1 r1].
    destruct (_dpll_fuel n (S d')
                (make_true_loop ((lit :: c0) :: rest) lit [])
                ((w ++ pures cs ++ us) ++ [lit])) as [log1' r1'].
    cbn [snd] in H1.
    destruct H1 as [[-> ->] | [[e [-> ->]] | [[-> ->] | [a [-> ->]]]]].
    + left. now split.
    + right. left. now exists e.
    + cbn [truthy].
      destruct (_dpll_fuel n (S d)
                  (make_true_loop ((lit :: c0) :: rest) (- lit) [])
                  ((v ++ pures cs ++ us) ++ [- lit])) as [log2 r2].
      destruct (_dpll_fuel n (S d')
                  (make_true_loop ((lit :: c0) :: rest) (- lit) [])
                  ((w ++ pures cs ++ us) ++ [- lit])) as [log2' r2'].
      cbn [snd] in *.
      destruct H2 as [[-> ->] | [[e [-> ->]] | [[-> ->] | [a [-> ->]]]]].
      * left. now split.
      * right. left. now exists e.
      * right. right. left. now split.
      * rewrite !truthy_extended. right. right. right.
        exists ((pures cs ++ us) ++ [- lit] ++ a).
        now rewrite <- !app_assoc.
    + rewrite !truthy_extended. cbn [snd]. right. right. right.
      exists ((pures cs ++ us) ++ [lit] ++ a).
      now rewrite <- !app_assoc.
  - right. right. left. now split.
Qed.

(** C8, as the code has it.  On a list, [make_literals_true] applies
    [_make_literal_true] to the literals in list order, each application
    to the result of the one before, with no test for [-1] in between.
    It returns [-1] exactly when the last application is the first to
    yield it, and it raises [TypeError] exactly when an application
    yields [-1] and a literal remains.  On literals whose complements do
    not occur in the formula no application yields [-1] and the clauses
    that hold none of them are returned; the pure literals that [ple]
    passes, the only list the solver passes, are such. *)
Theorem make_literals_true_in_list_order (cs : list clause)
    (literals : list Z) :
  (forall l,
     make_literals_true (Clauses cs) (Many (literals ++ [l])) =
     (formula <- make_literals_true (Clauses cs) (Many literals) ;;
      _make_literal_true formula l)) /\
  (make_literals_true (Clauses cs) (Many literals) = Ret Minus1 <->
   exists ls l cs',
     literals = ls ++ [l] /\
     make_literals_true (Clauses cs) (Many ls) = Ret (Clauses cs') /\
     _make_literal_true (Clauses cs') l = Ret Minus1) /\
  (make_literals_true (Clauses cs) (Many literals) = Raise TypeError <->
   exists before l after,
     literals = before ++ l :: after /\ after <> [] /\
     make_literals_true (Clauses cs) (Many (before ++ [l])) = Ret Minus1) /\
  ((forall p, In p literals -> ~ In (- p) (literals_of cs)) ->
   make_literals_true (Clauses cs) (Many literals) =
   Ret (Clauses (without literals cs))) /\
  make_literals_true (Clauses cs) (Many (pures cs)) =
  Ret (Clauses (without (pures cs) cs)).
Proof.
  cbn [make_literals_true].
  assert (Hlast : forall ls l,
            make_true_each (Clauses cs) (ls ++ [l]) =
            (formula <- make_true_each (Clauses cs) ls ;;
             _make_literal_true formula l)).
  { intros ls l. rewrite make_true_each_app.
    destruct (make_true_each (Clauses cs) ls) as [f| |]; cbn [bind];
      try reflexivity.
    cbn [make_true_each]. now destruct (_make_literal_true f l). }
  split; [apply Hlast|]. split; [|split; [|split]].
  - split.
    + intros H. destruct (exists_last (l := literals)) as [ls [l ->]].
      { intros ->. discriminate. }
      rewrite Hlast in H.
      destruct (make_true_each (Clauses cs) ls) as [[cs'|]| |] eqn:E;
        cbn [bind] in H; try discriminate.
      now exists ls, l, cs'.
    + intros [ls [l [cs' [-> [H1 H2]]]]]. now rewrite Hlast, H1.
  - apply make_true_each_TypeError.
  - apply make_true_each_pure.
  - apply make_true_each_pure. intros p Hp. now apply In_pures in Hp.
Qed.

Lemma make_literals_true_in_list_order_witness :
  make_literals_true (Clauses [[1; 2]; [-2; 3]; [2; 4]]) (Many [1; 3]) =
  Ret (Clauses [[2; 4]]).
Proof.
  apply (proj1 (proj2 (proj2 (proj2
           (make_literals_true_in_list_order
              [[1; 2]; [-2; 3]; [2; 4]] [1; 3]))))).
  intros p [<-|[<-|[]]]; simpl; intuition lia.
Defined.

(** X8.  The valuation passed to [_dpll] does not influence the search.
    Called on the same formula with two valuations, [_dpll] raises the same
    exception, or returns the empty list for both, or returns each
    valuation followed by the same list of assigned literals. *)
Theorem _dpll_extends_its_valuation (formula : pyformula) (v w : list Z) :
  (exists e, _dpll formula v = Raise e /\ _dpll formula w = Raise e) \/
  (_dpll formula v = Ret [] /\ _dpll formula w = Ret []) \/
  (exists assigned,
      _dpll formula v = Ret (v ++ assigned) /\
      _dpll formula w = Ret (w ++ assigned)).
Proof.
  unfold _dpll, _dpll_traced.
  destruct (_dpll_fuel_valuation (S (size formula)) 0 0 formula v w)
    as [[H _] | H]; [|exact H].
  exfalso. revert H.
  apply (_dpll_fuel_enough (S (size formula)) (S (size formula))); lia.
Qed.

(** X9.  A verdict of unsatisfiability is right on every non-empty formula
    without the literal [0], whatever else the formula holds (repeated
    literals, empty clauses): when [dpll] returns [None], no total
    assignment satisfies the formula. *)
Theorem dpll_None_is_unsatisfiable (formula : list clause) (n_props : Z) :
  formula <> [] ->
  ~ In 0 (literals_of formula) ->
  dpll formula n_props = Ret None ->
  forall m, formula_true m formula = false.
Proof.
  intros Hne H0 H. unfold dpll, _dpll, _dpll_traced in H.
  destruct (_dpll_fuel (S (size (Clauses formula))) 0 (Clauses formula) [])
    as [log [found|e|]] eqn:E; cbn [snd bind] in H; try discriminate.
  destruct found as [|x found]; [|discriminate].
  apply (_dpll_fuel_refutes _ _ _ _ _ E); [now right | assumption].
Qed.

Lemma dpll_None_is_unsatisfiable_witness :
  formula_true (fun x => x =? 2) [[1]; [-1]; [2; 2]] = false.
Proof.
  apply (dpll_None_is_unsatisfiable [[1]; [-1]; [2; 2]] 2).
  - discriminate.
  - simpl. intuition discriminate.
  - reflexivity.
Defined.

(** ** Exceptions of the search *)

Lemma no_conflict_after_up (cs : list clause) (l : Z) :
  first_unit cs = None ->
  exists cs', make_true_loop cs l [] = Clauses cs' /\ cs' = simplified l cs.
Proof.
  intros H. destruct (make_true_loop cs l []) as [cs'|] eqn:E.
  - exists cs'. split; [reflexivity|].
    now apply make_true_loop_Clauses in E.
  - apply make_true_loop_Minus1 in E as [c [Hc [-> _]]].
    exfalso. now apply (proj1 (first_unit_None cs) H [- l] Hc).
Qed.

Lemma simplified_keeps_empty (l : Z) (cs : list clause) :
  In [] cs -> In [] (simplified l cs).
Proof.
  intros H. apply In_simplified. exists []. now repeat split.
Qed.

Lemma propagates_keeps_empty (cs : list clause) (us : list Z)
    (cs2 : list clause) :
  propagates cs us (Clauses cs2) -> In [] cs -> In [] cs2.
Proof.
  intros H. remember (Clauses cs2) as f eqn:Hf.
  induction H as [cs0 _ | cs0 u _ _ | cs0 u cs1 us0 f0 _ Hloop _ IH].
  - now injection Hf as <-.
  - discriminate.
  - intros Hin. apply IH; [assumption|].
    apply make_true_loop_Clauses in Hloop as [-> _].
    now apply simplified_keeps_empty.
Qed.

Lemma without_keeps_empty (ps : list Z) (cs : list clause) :
  In [] cs -> In [] (without ps cs).
Proof.
  intros H. apply In_without. split; [assumption | intros p _ []].
Qed.

Lemma _dpll_fuel_raises (n : nat) :
  forall (d : nat) (cs : list clause) (v : list Z),
    Forall (fun e => event_formula e <> Minus1)
           (fst (_dpll_fuel n d (Clauses cs) v)) /\
    snd (_dpll_fuel n d (Clauses cs) v) <> Raise TypeError /\
    (In [] cs ->
     forall s, snd (_dpll_fuel n d (Clauses cs) v) = Ret s -> s = []).
Proof.
  induction n as [|n IH]; intros d cs v.
  { split; [constructor|]. split; discriminate. }
  destruct (_dpll_fuel_unfold cs) as [us [f2 [Hp E]]].
  rewrite E; clear E.
  assert (Henter : Forall (fun e => event_formula e <> Minus1)
                          [Enter d (Clauses cs) v]).
  { constructor; [discriminate | constructor]. }
  destruct f2 as [[|[|lit c0] rest]|].
  - split; [exact Henter|]. split; [discriminate|].
    intros Hempty. exfalso.
    exact (propagates_keeps_empty _ _ _ Hp
             (without_keeps_empty _ _ Hempty)).
  - split; [exact Henter|]. split; discriminate.
  - cbv zeta.
    pose proof (propagates_no_unit _ _ _ Hp) as Hnone.
    destruct (no_conflict_after_up _ lit Hnone) as [cs1 [E1 Hcs1]].
    destruct (no_conflict_after_up _ (- lit) Hnone) as [cs2 [E2 Hcs2]].
    rewrite E1, E2.
    assert (Hhere : Forall (fun e => event_formula e <> Minus1)
                      [Enter d (Clauses cs) v;
                       Branch d (Clauses ((lit :: c0) :: rest)) lit]).
    { constructor; [discriminate|].
      constructor; [discriminate | constructor]. }
    assert (Hkeep : In [] cs -> In [] cs1 /\ In [] cs2).
    { intros Hempty.
      pose proof (propagates_keeps_empty _ _ _ Hp
                    (without_keeps_empty _ _ Hempty)) as H.
      subst cs1 cs2. split; now apply simplified_keeps_empty. }
    destruct (IH (S d) cs1 ((v ++ pures cs ++ us) ++ [lit]))
      as [L1 [T1 S1]].
    destruct (IH (S d) cs2 ((v ++ pures cs ++ us) ++ [- lit]))
      as [L2 [T2 S2]].
    destruct (_dpll_fuel n (S d) (Clauses cs1) _) as [log1 [s1|e|]];
      cbn [fst snd] in *.
    + destruct s1 as [|x1 s1]; cbn [truthy].
      * destruct (_dpll_fuel n (S d) (Clauses cs2) _) as [log2 r2];
          cbn [fst snd] in *.
        split; [|split].
        -- apply Forall_app; split; [assumption|].
           apply Forall_app. now split.
        -- destruct r2 as [s2|e2|];
             [destruct (truthy s2); discriminate | assumption | discriminate].
        -- intros Hempty s Hs. destruct r2 as [s2|e2|]; try discriminate.
           destruct (Hkeep Hempty) as [_ Hc2].
           rewrite (S2 Hc2 s2 eq_refl) in Hs. cbn [truthy] in Hs.
           now injection Hs as <-.
      * split; [apply Forall_app; now split|]. split; [discriminate|].
        intros Hempty s Hs. destruct (Hkeep Hempty) as [Hc1 _].
        pose proof (S1 Hc1 _ eq_refl). discriminate.
    + split; [apply Forall_app; now split|]. split; [assumption|].
      discriminate.
    + split; [apply Forall_app; now split|]. split; discriminate.
  - split; [exact Henter|]. split; [discriminate|].
    intros _ s Hs. now injection Hs as <-.
Qed.



(** X11.  A formula that holds an empty clause never yields an
    assignment: whatever the place of the empty clause and the rest of the
    formula, [dpll] does not return a list, and the search itself returns
    nothing but the empty list.  (No total assignment satisfies such a
    formula.) *)
Theorem dpll_with_an_empty_clause (formula : list clause) (n_props : Z) :
  In [] formula ->
  (forall solution, dpll formula n_props <> Ret (Some solution)) /\
  (forall valuation found,
     _dpll (Clauses formula) valuation = Ret found -> found = []) /\
  forall m, formula_true m formula = false.
Proof.
  intros Hempty.
  assert (Hfound : forall valuation found,
            _dpll (Clauses formula) valuation = Ret found -> found = []).
  { intros valuation found H.
    destruct (_dpll_fuel_raises (S (size (Clauses formula))) 0 formula
                valuation) as [_ [_ Hret]].
    exact (Hret Hempty found H). }
  split; [|split; [exact Hfound|]].
  - intros solution H. unfold dpll in H.
    destruct (_dpll (Clauses formula) []) as [s| |] eqn:E;
      cbn [bind] in H; try discriminate.
    rewrite (Hfound [] s E) in H. discriminate.
  - intros m. apply not_true_iff_false. intros Hm.
    pose proof (formula_true_In m formula [] Hm Hempty). discriminate.
Qed.

Lemma dpll_with_an_empty_clause_witness :
  In [] [[1]; [-1; 2]; []] /\
  dpll [[1]; [-1; 2]; []] 2 <> Ret (Some [1; 2]).
Proof.
  split; [now right; right; left|].
  apply (proj1 (dpll_with_an_empty_clause [[1]; [-1; 2]; []] 2
                  (or_intror (or_intror (or_introl eq_refl))))).
Defined.

(** X12.  Whatever the input, a list returned by [dpll] is in ascending
    order of magnitude, holds a literal of every variable in
    [1..n_props], and is a rearrangement of the literals the search
    returned together with the positive literals of the variables in
    [1..n_props] that the search did not assign. *)
Theorem dpll_output_is_sorted_and_covers (formula : list clause)
    (n_props : Z) (solution : list Z) :
  dpll formula n_props = Ret (Some solution) ->
  StronglySorted (fun a b => Z.abs a <= Z.abs b) solution /\
  (forall i, 1 <= i <= n_props -> In i solution \/ In (- i) solution) /\
  exists found,
    _dpll (Clauses formula) [] = Ret found /\
    found <> [] /\
    Permutation solution
      (filter (fun i => negb (mem i found) && negb (mem (- i) found))
              (range 1 (n_props + 1)) ++ found) /\
    forall l, In l solution <->
              In l found \/
              (1 <= l <= n_props /\ ~ In l found /\ ~ In (- l) found).
Proof.
  intros H. apply dpll_Some in H as [found [Hrun [Hne ->]]].
  assert (Hextra : forall i,
             In i (filter (fun i => negb (mem i found) &&
                                    negb (mem (- i) found))
                          (range 1 (n_props + 1))) <->
             1 <= i <= n_props /\ ~ In i found /\ ~ In (- i) found).
  { intros i. rewrite filter_In, In_range, andb_true_iff.
    rewrite !negb_true_iff, !mem_false. intuition lia. }
  assert (Hin : forall l,
             In l (sort_by_abs
                     (filter (fun i => negb (mem i found) &&
                                       negb (mem (- i) found))
                             (range 1 (n_props + 1)) ++ found)) <->
             In l found \/
             (1 <= l <= n_props /\ ~ In l found /\ ~ In (- l) found)).
  { intros l. rewrite In_sort_by_abs, in_app_iff, Hextra. tauto. }
  split; [apply sort_by_abs_sorted|]. split.
  - intros i Hi.
    destruct (in_dec Z.eq_dec i found) as [H1|H1];
      [left; apply Hin; now left|].
    destruct (in_dec Z.eq_dec (- i) found) as [H2|H2];
      [right; apply Hin; now left|].
    left. apply Hin. right. auto.
  - exists found. split; [assumption|]. split; [assumption|].
    split; [apply sort_by_abs_perm | exact Hin].
Qed.

Lemma dpll_output_is_sorted_and_covers_witness :
  StronglySorted (fun a b => Z.abs a <= Z.abs b) [1; -1; 2].
Proof.
  apply (dpll_output_is_sorted_and_covers
           [[1]; [-1; -1; 2]; [-1; -1; -2]] 2 [1; -1; 2]).
  reflexivity.
Defined.

(** * parse_dimacs *)

Section Parsing.

Variable strip : String.string -> String.string.
Variable split : String.string -> list String.string.
Variable to_int : String.string -> option Z.

Lemma parse_lines_app (st : list clause * option Z)
    (l1 l2 : list String.string) :
  parse_lines strip split to_int st (l1 ++ l2) =
  obind (parse_lines strip split to_int st l1)
        (fun st' => parse_lines strip split to_int st' l2).
Proof.
  revert st. induction l1 as [|l l1 IH]; intros st; [reflexivity|].
  cbn [app parse_lines].
  destruct (parse_line strip split to_int st l) as [st'| |]; cbn [obind];
    [apply IH | reflexivity | reflexivity].
Qed.

(** A line adds to the state it finds: its effect on any state is its effect
    on the initial one, put after. *)
Lemma parse_line_from (f0 : list clause) (n0 : option Z)
    (line : String.string) :
  parse_line strip split to_int (f0, n0) line =
  match parse_line strip split to_int ([], None) line with
  | Done (f, n) =>
      Done (f0 ++ f, match n with Some _ => n | None => n0 end)
  | Failed e => Failed e
  | Unfinished => Unfinished
  end.
Proof.
  unfold parse_line.
  destruct (String.length (strip line) =? 0)%nat;
    [now rewrite app_nil_r|].
  destruct (first_char line) as [c| |]; cbn [obind]; try reflexivity.
  destruct (is_comment_mark c); [now rewrite app_nil_r|].
  destruct (Ascii.eqb c "p"%char).
  - destruct (third (split (strip line))) as [t| |]; cbn [obind];
      try reflexivity.
    destruct (to_int t); [now rewrite app_nil_r | reflexivity].
  - destruct (ints to_int (removelast (split (strip line)))) as [cl| |];
      cbn [obind]; reflexivity.
Qed.

Lemma parse_lines_from (lines : list String.string) :
  forall (f0 : list clause) (n0 : option Z),
    parse_lines strip split to_int (f0, n0) lines =
    match parse_lines strip split to_int ([], None) lines with
    | Done (f, n) =>
        Done (f0 ++ f, match n with Some _ => n | None => n0 end)
    | Failed e => Failed e
    | Unfinished => Unfinished
    end.
Proof.
  induction lines as [|l lines IH]; intros f0 n0.
  - cbn [parse_lines]. now rewrite app_nil_r.
  - cbn [parse_lines]. rewrite (parse_line_from f0 n0).
    destruct (parse_line strip split to_int ([], None) l) as [[f1 n1]| |];
      cbn [obind]; try reflexivity.
    rewrite (IH (f0 ++ f1)), (IH f1).
    destruct (parse_lines strip split to_int ([], None) lines)
      as [[f2 n2]| |]; try reflexivity.
    rewrite app_assoc. now destruct n2, n1.
Qed.

Lemma parse_dimacs_app_eq (l1 l2 : list String.string) :
  parse_dimacs strip split to_int (l1 ++ l2) =
  match parse_dimacs strip split to_int l1 with
  | Done (f1, n1) =>
      match parse_dimacs strip split to_int l2 with
      | Done (f2, n2) =>
          Done (f1 ++ f2, match n2 with Some _ => n2 | None => n1 end)
      | Failed e => Failed e
      | Unfinished => Unfinished
      end
  | Failed e => Failed e
  | Unfinished => Unfinished
  end.
Proof.
  unfold parse_dimacs. rewrite parse_lines_app.
  destruct (parse_lines strip split to_int ([], None) l1) as [[f1 n1]| |];
    cbn [obind]; try reflexivity.
  apply parse_lines_from.
Qed.

(** X13.  Parsing composes over the concatenation of two lists of lines:
    an exception in the first part is the result; otherwise the clauses of
    the second part follow those of the first, and the number of variables
    is that of the second part when it declares one, that of the first part
    otherwise (a later [p] line replaces an earlier one). *)
Theorem parse_dimacs_concatenation (l1 l2 : list String.string) :
  parse_dimacs strip split to_int (l1 ++ l2) =
  match parse_dimacs strip split to_int l1 with
  | Done (f1, n1) =>
      match parse_dimacs strip split to_int l2 with
      | Done (f2, n2) =>
          Done (f1 ++ f2, match n2 with Some _ => n2 | None => n1 end)
      | Failed e => Failed e
      | Unfinished => Unfinished
      end
  | Failed e => Failed e
  | Unfinished => Unfinished
  end.
Proof.
  unfold parse_dimacs. rewrite parse_lines_app.
  destruct (parse_lines strip split to_int ([], None) l1) as [[f1 n1]| |];
    cbn [obind]; try reflexivity.
  apply parse_lines_from.
Qed.

Lemma parse_one_line (line : String.string) :
  parse_dimacs strip split to_int [line] =
  match kind_of strip line with
  | Skipped => Done ([], None)
  | NoFirstChar => Failed (Exn IndexError)
  | Header =>
      match third (split (strip line)) with
      | Done t =>
          match to_int t with
          | Some n => Done ([], Some n)
          | None => Failed ValueError
          end
      | Failed e => Failed e
      | Unfinished => Unfinished
      end
  | ClauseLine =>
      match ints to_int (removelast (split (strip line))) with
      | Done clause => Done ([clause], None)
      | Failed e => Failed e
      | Unfinished => Unfinished
      end
  end.
Proof.
  unfold parse_dimacs, kind_of. cbn [parse_lines]. unfold parse_line.
  destruct (String.length (strip line) =? 0)%nat; [reflexivity|].
  destruct line as [|c rest]; [reflexivity|]. cbn [first_char obind].
  destruct (is_comment_mark c); [reflexivity|].
  destruct (Ascii.eqb c "p"%char).
  - destruct (third (split (strip (String.String c rest)))) as [t| |];
      cbn [obind]; try reflexivity.
    now destruct (to_int t).
  - now destruct (ints to_int
                    (removelast (split (strip (String.String c rest)))))
      as [cl| |].
Qed.

Lemma parse_dimacs_cons (line : String.string)
    (lines : list String.string) :
  parse_dimacs strip split to_int (line :: lines) =
  match parse_dimacs strip split to_int [line] with
  | Done (f1, n1) =>
      match parse_dimacs strip split to_int lines with
      | Done (f2, n2) =>
          Done (f1 ++ f2, match n2 with Some _ => n2 | None => n1 end)
      | Failed e => Failed e
      | Unfinished => Unfinished
      end
  | Failed e => Failed e
  | Unfinished => Unfinished
  end.
Proof. exact (parse_dimacs_app_eq [line] lines). Qed.

(** X14.  Blank lines and lines whose first character is [c], [0] or [%]
    have no effect, wherever they stand and whatever they hold: removing
    such a line leaves the result of parsing unchanged. *)
Theorem parse_dimacs_skips_comments (before : list String.string)
    (line : String.string) (after : list String.string) :
  kind_of strip line = Skipped ->
  parse_dimacs strip split to_int (before ++ line :: after) =
  parse_dimacs strip split to_int (before ++ after).
Proof.
  intros Hk. rewrite !parse_dimacs_app_eq, (parse_dimacs_cons line after).
  rewrite parse_one_line, Hk.
  destruct (parse_dimacs strip split to_int before) as [[f1 n1]| |];
    try reflexivity.
  destruct (parse_dimacs strip split to_int after) as [[f2 n2]| |];
    try reflexivity.
  cbn [app]. now destruct n2.
Qed.

Lemma ints_Forall2 (tokens : list String.string) (zs : list Z) :
  ints to_int tokens = Done zs <->
  Forall2 (fun p z => to_int p = Some z) tokens zs.
Proof.
  revert zs. induction tokens as [|p rest IH]; intros zs; cbn [ints].
  - split.
    + intros H. injection H as <-. constructor.
    + intros H. inversion H. reflexivity.
  - destruct (to_int p) as [z|] eqn:Hp.
    + destruct (ints to_int rest) as [zs'| |] eqn:Hr; cbn [obind]; split;
        try discriminate.
      * intros H. injection H as <-. constructor; [assumption|].
        now apply IH.
      * intros H. inversion H as [|? z' ? zs'' Hz Hrest]; subst.
        apply IH in Hrest. congruence.
      * intros H. inversion H as [|? z' ? zs'' Hz Hrest]; subst.
        apply IH in Hrest. discriminate.
      * intros H. inversion H as [|? z' ? zs'' Hz Hrest]; subst.
        apply IH in Hrest. discriminate.
    + split; [discriminate|].
      intros H. inversion H; subst. congruence.
Qed.

(** X15.  When parsing succeeds, the formula has one clause for each line
    that is neither skipped nor a [p] line, in the order of the lines, and
    the clause holds the integers of all the tokens of the line but the
    last, which is dropped unread; the number of variables is [None] exactly
    when there is no [p] line, and otherwise the integer of the third token
    of the last [p] line. *)
Theorem parse_dimacs_result (lines : list String.string)
    (formula : list clause) (n_props : option Z) :
  parse_dimacs strip split to_int lines = Done (formula, n_props) ->
  Forall2 (fun line clause =>
             Forall2 (fun p z => to_int p = Some z)
                     (removelast (split (strip line))) clause)
          (filter (is_clause_line strip) lines) formula /\
  (n_props = None <->
   forall line, In line lines -> is_header strip line = false) /\
  (forall before h after,
     lines = before ++ h :: after ->
     is_header strip h = true ->
     (forall line, In line after -> is_header strip line = false) ->
     exists t0 t1 t2 rest n,
       split (strip h) = t0 :: t1 :: t2 :: rest /\
       to_int t2 = Some n /\ n_props = Some n).
Proof.
  revert formula n_props.
  induction lines as [|l lines IH]; intros formula n_props H.
  - injection H as <- <-. split; [constructor|]. split.
    + split; [intros _ line [] | reflexivity].
    + intros before h after E. now destruct before.
  - rewrite parse_dimacs_cons, parse_one_line in H.
    unfold is_clause_line, is_header in *. cbn [filter].
    destruct (kind_of strip l) eqn:Hk.
    + (* skipped *)
      destruct (parse_dimacs strip split to_int lines) as [[f2 n2]| |];
        try discriminate.
      assert (E : (f2, n2) = (formula, n_props))
        by (destruct n2; now injection H as <- <-).
      injection E as <- <-. clear H.
      destruct (IH _ _ eq_refl) as [H1 [H2 H3]].
      split; [exact H1|]. split.
      * rewrite H2. split.
        -- intros Hall line [<-|Hin]; [now rewrite Hk | now apply Hall].
        -- intros Hall line Hin. apply Hall. now right.
      * intros before h after E Hh Hafter.
        destruct before as [|b before]; cbn [app] in E;
          injection E as -> ->.
        -- rewrite Hk in Hh. discriminate.
        -- now apply (H3 before h after).
    + (* header *)
      destruct (third (split (strip l))) as [t| |] eqn:Ht; try discriminate.
      destruct (to_int t) as [n|] eqn:Hn; try discriminate.
      destruct (parse_dimacs strip split to_int lines) as [[f2 n2]| |];
        try discriminate.
      cbn [app] in H.
      destruct (IH _ _ eq_refl) as [H1 [H2 H3]].
      assert (Ef : f2 = formula) by (destruct n2; now injection H as <- _).
      subst f2. split; [exact H1|]. split.
      * split.
        -- intros ->. destruct n2; discriminate.
        -- intros Hall. specialize (Hall l (or_introl eq_refl)).
           rewrite Hk in Hall. discriminate.
      * intros before h after E Hh Hafter.
        destruct before as [|b before]; cbn [app] in E;
          injection E as -> ->.
        -- assert (Hn2 : n2 = None) by now apply H2.
           subst n2. injection H as <-.
           unfold third in Ht.
           destruct (split (strip h)) as [|t0 [|t1 [|t2 rest]]];
             try discriminate.
           injection Ht as ->. now exists t0, t1, t, rest, n.
        -- destruct (H3 before h after eq_refl Hh Hafter)
             as [t0 [t1 [t2 [rest [m [Hs [Hi Hm]]]]]]].
           subst n2. injection H as <-.
           now exists t0, t1, t2, rest, m.
    + (* clause line *)
      destruct (ints to_int (removelast (split (strip l)))) as [cl| |]
        eqn:Hcl; try discriminate.
      destruct (parse_dimacs strip split to_int lines) as [[f2 n2]| |];
        try discriminate.
      cbn [app] in H.
      assert (E : (cl :: f2, n2) = (formula, n_props))
        by (destruct n2; now injection H as <- <-).
      injection E as <- <-. clear H.
      destruct (IH _ _ eq_refl) as [H1 [H2 H3]].
      split; [constructor; [now apply ints_Forall2 | exact H1]|]. split.
      * rewrite H2. split.
        -- intros Hall line [<-|Hin]; [now rewrite Hk | now apply Hall].
        -- intros Hall line Hin. apply Hall. now right.
      * intros before h after E Hh Hafter.
        destruct before as [|b before]; cbn [app] in E;
          injection E as -> ->.
        -- rewrite Hk in Hh. discriminate.
        -- now apply (H3 before h after).
    + discriminate.
Qed.

End Parsing.

Section ParsingFailures.

Variable strip : String.string -> String.string.
Variable split : String.string -> list String.string.
Variable to_int : String.string -> option Z.

Lemma ints_failure (tokens : list String.string) :
  ints to_int tokens <> Unfinished /\
  forall e, ints to_int tokens = Failed e ->
            e = ValueError /\ exists p, In p tokens /\ to_int p = None.
Proof.
  induction tokens as [|p rest [IH1 IH2]]; cbn [ints].
  - split; [discriminate | intros e; discriminate].
  - destruct (to_int p) as [z|] eqn:Hp.
    + destruct (ints to_int rest) as [zs|e'|] eqn:Hr; cbn [obind].
      * split; [discriminate | intros e; discriminate].
      * split; [discriminate|]. intros e H. injection H as <-.
        destruct (IH2 e' eq_refl) as [-> [q [Hq Hn]]].
        split; [reflexivity|]. exists q. split; [now right | assumption].
      * now exfalso.
    + split; [discriminate|]. intros e H. injection H as <-.
      split; [reflexivity|]. exists p. split; [now left | assumption].
Qed.

(** X16.  Parsing always ends, and when it raises, the exception comes
    from the first line that is at fault, the lines before it being parsed
    without exception: [IndexError] from a [p] line with fewer than three
    tokens, [ValueError] from a [p] line whose third token is not an
    integer or from a clause line with a token other than the last that is
    not an integer.  ([IndexError] from an empty line that is not blank
    cannot arise with Python's [strip].) *)
Theorem parse_dimacs_failure (lines : list String.string) :
  parse_dimacs strip split to_int lines <> Unfinished /\
  forall e,
    parse_dimacs strip split to_int lines = Failed e ->
    exists before line after state,
      lines = before ++ line :: after /\
      parse_dimacs strip split to_int before = Done state /\
      match kind_of strip line with
      | Skipped => False
      | NoFirstChar => e = Exn IndexError
      | Header =>
          (e = Exn IndexError /\
           (List.length (split (strip line)) < 3)%nat) \/
          (e = ValueError /\
           exists t0 t1 t2 rest,
             split (strip line) = t0 :: t1 :: t2 :: rest /\
             to_int t2 = None)
      | ClauseLine =>
          e = ValueError /\
          exists p, In p (removelast (split (strip line))) /\
                    to_int p = None
      end.
Proof.
  induction lines as [|l lines [IH1 IH2]].
  - split; [discriminate | intros e; discriminate].
  - rewrite (parse_dimacs_cons strip split to_int l lines).
    rewrite (parse_one_line strip split to_int l).
    assert (Hrest : forall f1 n1,
      match parse_dimacs strip split to_int lines with
      | Done (f2, n2) =>
          Done (f1 ++ f2, match n2 with Some _ => n2 | None => n1 end)
      | Failed e => Failed e
      | Unfinished => Unfinished
      end <> Unfinished /\
      forall e,
        match parse_dimacs strip split to_int lines with
        | Done (f2, n2) =>
            Done (f1 ++ f2, match n2 with Some _ => n2 | None => n1 end)
        | Failed e => Failed e
        | Unfinished => Unfinished
        end = Failed e ->
        parse_dimacs strip split to_int [l] = Done (f1, n1) ->
        exists before line after state,
          l :: lines = before ++ line :: after /\
          parse_dimacs strip split to_int before = Done state /\
          match kind_of strip line with
          | Skipped => False
          | NoFirstChar => e = Exn IndexError
          | Header =>
              (e = Exn IndexError /\
               (List.length (split (strip line)) < 3)%nat) \/
              (e = ValueError /\
               exists t0 t1 t2 rest,
                 split (strip line) = t0 :: t1 :: t2 :: rest /\
                 to_int t2 = None)
          | ClauseLine =>
              e = ValueError /\
              exists p, In p (removelast (split (strip line))) /\
                        to_int p = None
          end).
    { intros f1 n1.
      destruct (parse_dimacs strip split to_int lines) as [[f2 n2]|e'|]
        eqn:Hl.
      - split; [discriminate | intros e; discriminate].
      - split; [discriminate|]. intros e H Hone. injection H as <-.
        destruct (IH2 e' eq_refl)
          as [before [line [after [state [-> [Hb Hk]]]]]].
        exists (l :: before), line, after.
        rewrite (parse_dimacs_cons strip split to_int l before), Hone, Hb.
        destruct state as [f n]. eexists. split; [reflexivity|].
        split; [reflexivity | exact Hk].
      - now exfalso. }
    pose proof (parse_one_line strip split to_int l) as Hone.
    destruct (kind_of strip l) eqn:Hk.
    + destruct (Hrest [] None) as [R1 R2].
      split; [exact R1|]. intros e H. now apply R2.
    + destruct (third (split (strip l))) as [t|e'|] eqn:Ht.
      * destruct (to_int t) as [n|] eqn:Hn.
        -- destruct (Hrest [] (Some n)) as [R1 R2].
           split; [exact R1|]. intros e H. now apply R2.
        -- split; [discriminate|]. intros e H. injection H as <-.
           exists [], l, lines, ([], None).
           split; [reflexivity|]. split; [reflexivity|]. rewrite Hk.
           right. split; [reflexivity|]. unfold third in Ht.
           destruct (split (strip l)) as [|t0 [|t1 [|t2 rest]]];
             try discriminate.
           injection Ht as ->. now exists t0, t1, t, rest.
      * split; [discriminate|]. intros e H. injection H as <-.
        exists [], l, lines, ([], None).
        split; [reflexivity|]. split; [reflexivity|]. rewrite Hk.
        left. unfold third in Ht.
        destruct (split (strip l)) as [|t0 [|t1 [|t2 rest]]];
          try discriminate; injection Ht as <-; (split; [reflexivity|]);
          simpl; lia.
      * unfold third in Ht.
        destruct (split (strip l)) as [|t0 [|t1 [|t2 rest]]]; discriminate.
    + destruct (ints_failure (removelast (split (strip l)))) as [F1 F2].
      destruct (ints to_int (removelast (split (strip l)))) as [cl|e'|].
      * destruct (Hrest [cl] None) as [R1 R2].
        split; [exact R1|]. intros e H. now apply R2.
      * split; [discriminate|]. intros e H. injection H as <-.
        exists [], l, lines, ([], None).
        split; [reflexivity|]. split; [reflexivity|]. rewrite Hk.
        now apply F2.
      * now exfalso.
    + split; [discriminate|]. intros e H. injection H as <-.
      exists [], l, lines, ([], None).
      split; [reflexivity|]. split; [reflexivity|]. now rewrite Hk.
Qed.

(** X17.  The driver on a file.  An exception of the parser is the result.
    With a declared number of variables, the result is that of the search
    driver on the parsed formula.  Without a [p] line, a list is never
    returned: the result is [None] when the search fails, [TypeError]
    when it succeeds, as [n_props + 1] is then evaluated on [None]. *)
Theorem dpll_of_file_cases (lines : list String.string) :
  (forall e, parse_dimacs strip split to_int lines = Failed e ->
             dpll_of_file strip split to_int lines = Failed e) /\
  (forall formula n,
     parse_dimacs strip split to_int lines = Done (formula, Some n) ->
     dpll_of_file strip split to_int lines = of_run (dpll formula n)) /\
  (forall formula,
     parse_dimacs strip split to_int lines = Done (formula, None) ->
     (forall solution,
        dpll_of_file strip split to_int lines <> Done (Some solution)) /\
     (dpll_of_file strip split to_int lines = Done None <->
      _dpll (Clauses formula) [] = Ret []) /\
     (dpll_of_file strip split to_int lines = Failed (Exn TypeError) <->
      exists found, found <> [] /\
                    _dpll (Clauses formula) [] = Ret found)).
Proof.
  unfold dpll_of_file. split; [|split].
  - intros e ->. reflexivity.
  - intros formula n ->. cbn [obind]. unfold dpll.
    destruct (_dpll (Clauses formula) []) as [s|e|]; cbn [of_run obind bind];
      try reflexivity.
    now destruct (negb (truthy s)).
  - intros formula ->. cbn [obind].
    pose proof (_dpll_fuel_raises (S (size (Clauses formula))) 0 formula [])
      as [_ [Htype _]].
    fold (_dpll_traced (Clauses formula) []) in Htype.
    fold (_dpll (Clauses formula) []) in Htype.
    destruct (_dpll (Clauses formula) []) as [s|e|]; cbn [of_run obind].
    + destruct s as [|x s]; cbn [truthy negb].
      * split; [discriminate|]. split; [tauto|].
        split; [discriminate|]. intros [found [Hne H]]. congruence.
      * split; [discriminate|]. split; [split; discriminate|].
        split; [intros _; exists (x :: s); split; [discriminate | reflexivity]
               | reflexivity].
    + split; [discriminate|]. split; [split; discriminate|].
      split; [|intros [found [_ H]]; discriminate].
      intros H. injection H as ->. contradiction.
    + split; [discriminate|]. split; [split; discriminate|].
      split; [discriminate | intros [found [_ H]]; discriminate].
Qed.

End ParsingFailures.

(** * Reading the DIMACS text of a formula *)

Lemma append_empty_r (s : String.string) :
  String.append s String.EmptyString = s.
Proof. induction s as [|c s IH]; cbn; [reflexivity | now rewrite IH]. Qed.

Lemma append_assoc (s t u : String.string) :
  String.append (String.append s t) u =
  String.append s (String.append t u).
Proof. induction s as [|c s IH]; cbn; [reflexivity | now rewrite IH]. Qed.

Lemma append_not_empty (s : String.string) (c : Ascii.ascii) :
  String.append s (String.String c String.EmptyString)
  <> String.EmptyString.
Proof. destruct s; discriminate. Qed.

Lemma no_space_append (s t : String.string) :
  no_space (String.append s t) = no_space s && no_space t.
Proof.
  induction s as [|c s IH]; cbn; [reflexivity|].
  now rewrite IH, andb_assoc.
Qed.

(** ** [strip] and [split] *)

Lemma lstrip_no_space (s : String.string) :
  no_space s = true -> lstrip s = s.
Proof.
  destruct s as [|c s]; cbn; [reflexivity|].
  now destruct (isspace c).
Qed.

Lemma rstrip_no_space (s : String.string) :
  no_space s = true -> rstrip s = s.
Proof.
  induction s as [|c s IH]; cbn [no_space rstrip]; [reflexivity|].
  intros H. apply andb_prop in H as [Hc Hs]. rewrite (IH Hs).
  destruct (isspace c); [discriminate|]. now destruct s.
Qed.

Lemma py_strip_no_space (s : String.string) :
  no_space s = true -> py_strip s = s.
Proof.
  intros H. unfold py_strip.
  now rewrite (lstrip_no_space s H), (rstrip_no_space s H).
Qed.

Lemma split_loop_lstrip (s : String.string) :
  split_loop (lstrip s) String.EmptyString =
  split_loop s String.EmptyString.
Proof.
  induction s as [|c s IH]; cbn [lstrip split_loop]; [reflexivity|].
  destruct (isspace c) eqn:Hc; [exact IH|].
  cbn [split_loop]. now rewrite Hc.
Qed.

Lemma split_loop_rstrip (s : String.string) :
  forall token, split_loop (rstrip s) token = split_loop s token.
Proof.
  induction s as [|c s IH]; intros token; [reflexivity|].
  cbn [rstrip]. destruct (rstrip s) as [|c' r] eqn:Hr.
  - destruct (isspace c) eqn:Hc; cbn [split_loop]; rewrite Hc.
    + rewrite <- IH. now destruct token.
    + now rewrite <- IH.
  - cbn [split_loop]. destruct (isspace c).
    + rewrite <- IH. reflexivity.
    + now rewrite <- IH.
Qed.

(** White space around the text makes no token. *)
Lemma py_split_py_strip (s : String.string) :
  py_split (py_strip s) = py_split s.
Proof.
  unfold py_split, py_strip.
  now rewrite split_loop_rstrip, split_loop_lstrip.
Qed.

Lemma split_loop_token (t rest : String.string) :
  no_space t = true ->
  forall token,
    split_loop (String.append t rest) token =
    split_loop rest (String.append token t).
Proof.
  induction t as [|c t IH]; intros H token.
  - now rewrite append_empty_r.
  - cbn [no_space] in H. apply andb_prop in H as [Hc Ht].
    cbn [String.append split_loop].
    destruct (isspace c); [discriminate|].
    rewrite (IH Ht), append_assoc. reflexivity.
Qed.

Lemma concat_cons (sep x y : String.string) (rest : list String.string) :
  String.concat sep (x :: y :: rest) =
  String.append x (String.append sep (String.concat sep (y :: rest))).
Proof. reflexivity. Qed.

(** The tokens of a line written with single spaces and a line feed. *)
Lemma py_split_line (tokens : list String.string) :
  Forall (fun t => no_space t = true /\ t <> String.EmptyString) tokens ->
  py_split (String.append (String.concat " "%string tokens) newline) =
  tokens.
Proof.
  unfold py_split.
  induction tokens as [|t [|t' rest] IH]; intros H.
  - reflexivity.
  - inversion H as [|? ? [Hs Hne] _]; subst. cbn [String.concat].
    rewrite (split_loop_token t newline Hs). cbn [String.append].
    destruct t; [contradiction | reflexivity].
  - inversion H as [|? ? [Hs Hne] Hrest]; subst.
    rewrite concat_cons, !append_assoc.
    rewrite (split_loop_token t _ Hs). cbn [String.append].
    change (split_loop (String.String " "%char ?r) t)
      with (match t with
            | String.EmptyString => split_loop r String.EmptyString
            | _ => t :: split_loop r String.EmptyString
            end).
    rewrite (IH Hrest). destruct t; [contradiction | reflexivity].
Qed.

(** ** [int] of the decimal text of an integer *)

Lemma digits_value_from (d : Decimal.uint) :
  forall a : positive,
    digits_value (DecimalString.NilEmpty.string_of_uint d) (Z.pos a) true =
    Some (Z.pos (Pos.of_uint_acc d a)).
Proof.
  induction d as [|d IH|d IH|d IH|d IH|d IH|d IH|d IH|d IH|d IH|d IH];
    intros a; [reflexivity|..];
    cbn [DecimalString.NilEmpty.string_of_uint Pos.of_uint_acc];
    read_digit; rewrite <- IH; f_equal; lia.
Qed.

Lemma digits_value_uint (d : Decimal.uint) :
  digits_value (DecimalString.NilEmpty.string_of_uint d) 0 true =
  Some (Z.of_N (Pos.of_uint d)).
Proof.
  induction d as [|d IH|d IH|d IH|d IH|d IH|d IH|d IH|d IH|d IH|d IH];
    [reflexivity|..];
    cbn [DecimalString.NilEmpty.string_of_uint Pos.of_uint];
    read_digit; [exact IH | exact (digits_value_from d _) ..].
Qed.

Lemma digits_value_first (d : Decimal.uint) :
  d <> Decimal.Nil ->
  digits_value (DecimalString.NilEmpty.string_of_uint d) 0 false =
  digits_value (DecimalString.NilEmpty.string_of_uint d) 0 true.
Proof.
  destruct d; [contradiction|..]; intros _;
    cbn [DecimalString.NilEmpty.string_of_uint];
    read_digit; symmetry; read_digit; reflexivity.
Qed.

Lemma no_space_uint (d : Decimal.uint) :
  no_space (DecimalString.NilEmpty.string_of_uint d) = true.
Proof. induction d; cbn; [reflexivity | exact IHd ..]. Qed.

Lemma unorm_no_leading_zero (d d' : Decimal.uint) :
  Decimal.unorm d = Decimal.D0 d' -> d' = Decimal.Nil.
Proof.
  induction d; cbn [Decimal.unorm]; intros H;
    try discriminate; [now injection H | now apply IHd].
Qed.

Lemma to_uint_no_leading_zero (p : positive) (d : Decimal.uint) :
  Pos.to_uint p <> Decimal.D0 d.
Proof.
  intros H.
  pose proof (DecimalPos.Unsigned.to_of (Pos.to_uint p)) as Hn.
  rewrite DecimalPos.Unsigned.of_to in Hn. cbn [N.to_uint] in Hn.
  rewrite H in Hn at 1. symmetry in Hn.
  apply unorm_no_leading_zero in Hn. subst d.
  exact (DecimalPos.Unsigned.to_uint_nonzero p H).
Qed.

Lemma show_pos (p : positive) :
  show (Z.pos p) =
  DecimalString.NilEmpty.string_of_uint (Pos.to_uint p).
Proof.
  unfold show. cbn [Z.to_int DecimalString.NilZero.string_of_int].
  pose proof (DecimalPos.Unsigned.to_uint_nonnil p) as H.
  now destruct (Pos.to_uint p).
Qed.

Lemma show_neg (p : positive) :
  show (Z.neg p) =
  String.String "-"%char
    (DecimalString.NilEmpty.string_of_uint (Pos.to_uint p)).
Proof.
  unfold show. cbn [Z.to_int DecimalString.NilZero.string_of_int].
  pose proof (DecimalPos.Unsigned.to_uint_nonnil p) as H.
  now destruct (Pos.to_uint p).
Qed.

Lemma show_token (z : Z) :
  no_space (show z) = true /\ show z <> String.EmptyString.
Proof.
  destruct z as [|p|p].
  - split; [reflexivity | discriminate].
  - rewrite show_pos. split; [apply no_space_uint|].
    pose proof (DecimalPos.Unsigned.to_uint_nonnil p) as H.
    now destruct (Pos.to_uint p).
  - rewrite show_neg. split; [|discriminate].
    cbn [no_space]. now rewrite no_space_uint.
Qed.

(** The text of a literal starts with a sign or a digit from [1] to [9]:
    not with one of the marks that the parser looks for. *)
Lemma show_first_char (l : Z) :
  l <> 0 ->
  exists c rest,
    show l = String.String c rest /\
    is_comment_mark c = false /\ Ascii.eqb c "p"%char = false.
Proof.
  intros Hl. destruct l as [|p|p]; [contradiction|..].
  - rewrite show_pos.
    pose proof (DecimalPos.Unsigned.to_uint_nonnil p) as Hnil.
    pose proof (to_uint_no_leading_zero p) as Hzero.
    destruct (Pos.to_uint p) as [|d|d|d|d|d|d|d|d|d|d];
      [contradiction | now destruct (Hzero d) | ..];
      cbn [DecimalString.NilEmpty.string_of_uint];
      eexists; eexists; (split; [reflexivity|]); split; reflexivity.
  - rewrite show_neg. eexists; eexists.
    split; [reflexivity|]. split; reflexivity.
Qed.

(** [int(str(z)) == z] *)
Lemma py_int_show (z : Z) : py_int (show z) = Some z.
Proof.
  unfold py_int. rewrite (py_strip_no_space _ (proj1 (show_token z))).
  destruct z as [|p|p]; [reflexivity|..].
  - destruct (show_first_char (Z.pos p)) as [c [rest [E [Hm Hp]]]];
      [discriminate|].
    rewrite E.
    assert (Hsign : Ascii.eqb c "-"%char = false /\
                    Ascii.eqb c "+"%char = false).
    { rewrite show_pos in E.
      destruct (Pos.to_uint p);
        cbn [DecimalString.NilEmpty.string_of_uint] in E;
        try discriminate; injection E as <- _; split; reflexivity. }
    destruct Hsign as [-> ->]. rewrite <- E, show_pos.
    rewrite digits_value_first, digits_value_uint
      by apply DecimalPos.Unsigned.to_uint_nonnil.
    now rewrite DecimalPos.Unsigned.of_to.
  - rewrite show_neg. cbn [Ascii.eqb Bool.eqb].
    rewrite digits_value_first, digits_value_uint
      by apply DecimalPos.Unsigned.to_uint_nonnil.
    now rewrite DecimalPos.Unsigned.of_to.
Qed.

Lemma ints_show (c : list Z) : ints py_int (map show c) = Done c.
Proof.
  induction c as [|l c IH]; [reflexivity|].
  cbn [map ints]. now rewrite py_int_show, IH.
Qed.

(** ** The lines of the text *)

Lemma line_tokens (tokens : list String.string) :
  Forall (fun t => no_space t = true /\ t <> String.EmptyString) tokens ->
  tokens <> [] ->
  py_split
    (py_strip (String.append (String.concat " "%string tokens) newline)) =
  tokens /\
  (String.length
     (py_strip (String.append (String.concat " "%string tokens) newline))
   =? 0)%nat = false.
Proof.
  intros H Hne.
  assert (E : py_split
    (py_strip (String.append (String.concat " "%string tokens) newline)) =
    tokens) by now rewrite py_split_py_strip, py_split_line.
  split; [exact E|].
  destruct (py_strip _) eqn:Hs; [|reflexivity].
  cbn in E. now subst tokens.
Qed.

Lemma clause_tokens (c : list Z) :
  Forall (fun t => no_space t = true /\ t <> String.EmptyString)
         (map show c ++ ["0"%string]).
Proof.
  apply Forall_app. split.
  - apply Forall_forall. intros t Ht. apply in_map_iff in Ht as [z [<- _]].
    apply show_token.
  - constructor; [|constructor]. split; [reflexivity | discriminate].
Qed.

Lemma parse_clause_line (c : list Z) :
  parse_dimacs py_strip py_split py_int [clause_line c] =
  Done (if starts_with_literal c then [c] else [], None).
Proof.
  rewrite parse_one_line. unfold kind_of, clause_line.
  destruct (line_tokens (map show c ++ ["0"%string]) (clause_tokens c))
    as [Htok Hlen]; [now destruct c|].
  rewrite Hlen, Htok, removelast_last, ints_show.
  destruct c as [|l c]; [reflexivity|].
  cbn [map app starts_with_literal].
  assert (Hc : map show c ++ ["0"%string] <> []) by now destruct c.
  destruct (map show c ++ ["0"%string]) as [|y rest] eqn:Hrest;
    [contradiction|]. clear Hc.
  rewrite concat_cons.
  destruct (Z.eqb_spec l 0) as [->|Hl]; cbn [negb].
  - reflexivity.
  - destruct (show_first_char l Hl) as [a [r [-> [Hm Hp]]]].
    cbn [String.append]. now rewrite Hm, Hp.
Qed.

Lemma parse_header_line (n : Z) (m : nat) :
  parse_dimacs py_strip py_split py_int [header_line n m] =
  Done ([], Some n).
Proof.
  rewrite parse_one_line. unfold kind_of, header_line.
  destruct (line_tokens
              ["p"%string; "cnf"%string; show n; show (Z.of_nat m)])
    as [Htok Hlen]; [|discriminate|].
  { repeat constructor; try discriminate; apply show_token. }
  rewrite Hlen, Htok. cbn [third]. rewrite py_int_show. reflexivity.
Qed.

Lemma parse_clause_lines (cs : list clause) :
  parse_dimacs py_strip py_split py_int (map clause_line cs) =
  Done (filter starts_with_literal cs, None).
Proof.
  induction cs as [|c cs IH]; [reflexivity|].
  cbn [map filter]. rewrite parse_dimacs_cons, parse_clause_line, IH.
  now destruct (starts_with_literal c).
Qed.

(** X18.  Reading back the DIMACS text of a formula: the declared number
    of variables is read as written, and the clauses come back as
    written, in their order, except those that are empty or start with the
    literal [0], which are left out: the line of such a clause starts with
    the character [0] and is skipped like a comment.  In particular a
    formula without such a clause is read back unchanged, and the empty
    clause written as the line [0] is lost. *)
Theorem parse_dimacs_reads_dimacs_text (n : Z) (cs : list clause) :
  parse_dimacs py_strip py_split py_int (dimacs n cs) =
  Done (filter starts_with_literal cs, Some n).
Proof.
  unfold dimacs.
  rewrite parse_dimacs_cons, parse_header_line, parse_clause_lines.
  reflexivity.
Qed.

(** * Instances on ASCII text *)

Lemma parse_dimacs_skips_comments_witness :
  kind_of py_strip "c a comment"%string = Skipped /\
  parse_dimacs py_strip py_split py_int
    (["p cnf 2 1"%string] ++ "c a comment"%string :: ["1 -2 0"%string]) =
  parse_dimacs py_strip py_split py_int
    (["p cnf 2 1"%string] ++ ["1 -2 0"%string]).
Proof.
  split; [reflexivity|].
  apply (parse_dimacs_skips_comments py_strip py_split py_int
           ["p cnf 2 1"%string] "c a comment"%string ["1 -2 0"%string]).
  reflexivity.
Defined.

Lemma parse_dimacs_result_witness :
  parse_dimacs py_strip py_split py_int
    ["c two clauses"%string; "p cnf 3 2"%string; "1 -2 0"%string;
     "2 3 0"%string] =
  Done ([[1; -2]; [2; 3]], Some 3) /\
  Forall2 (fun line clause =>
             Forall2 (fun p z => py_int p = Some z)
                     (removelast (py_split (py_strip line))) clause)
          ["1 -2 0"%string; "2 3 0"%string] [[1; -2]; [2; 3]].
Proof.
  split; [reflexivity|].
  exact (proj1 (parse_dimacs_result py_strip py_split py_int
                  ["c two clauses"%string; "p cnf 3 2"%string;
                   "1 -2 0"%string; "2 3 0"%string]
                  [[1; -2]; [2; 3]] (Some 3) eq_refl)).
Defined.

Lemma parse_dimacs_failure_witness :
  parse_dimacs py_strip py_split py_int
    ["1 2 0"%string; "p cnf"%string; "x 0"%string] =
  Failed (Exn IndexError) /\
  exists before line after state,
    ["1 2 0"%string; "p cnf"%string; "x 0"%string] =
    before ++ line :: after /\
    parse_dimacs py_strip py_split py_int before = Done state /\
    match kind_of py_strip line with
    | Skipped => False
    | NoFirstChar => Exn IndexError = Exn IndexError
    | Header =>
        (Exn IndexError = Exn IndexError /\
         (List.length (py_split (py_strip line)) < 3)%nat) \/
        (Exn IndexError = ValueError /\
         exists t0 t1 t2 rest,
           py_split (py_strip line) = t0 :: t1 :: t2 :: rest /\
           py_int t2 = None)
    | ClauseLine =>
        Exn IndexError = ValueError /\
        exists p, In p (removelast (py_split (py_strip line))) /\
                  py_int p = None
    end.
Proof.
  split; [reflexivity|].
  exact (proj2 (parse_dimacs_failure py_strip py_split py_int
                  ["1 2 0"%string; "p cnf"%string; "x 0"%string])
               (Exn IndexError) eq_refl).
Defined.

Lemma dpll_of_file_cases_witness :
  parse_dimacs py_strip py_split py_int ["1 2 0"%string] =
  Done ([[1; 2]], None) /\
  (dpll_of_file py_strip py_split py_int ["1 2 0"%string] =
   Failed (Exn TypeError) <->
   exists found, found <> [] /\ _dpll (Clauses [[1; 2]]) [] = Ret found).
Proof.
  split; [reflexivity|].
  exact (proj2 (proj2 (proj2 (proj2
           (dpll_of_file_cases py_strip py_split py_int ["1 2 0"%string]))
           [[1; 2]] eq_refl))).
Defined.

(** * The driver on the DIMACS text of a formula *)

Lemma dpll_of_file_declared (lines : list String.string)
    (formula : list clause) (n : Z) :
  parse_dimacs py_strip py_split py_int lines = Done (formula, Some n) ->
  dpll_of_file py_strip py_split py_int lines = of_run (dpll formula n).
Proof.
  intros H. unfold dpll_of_file, dpll. rewrite H. cbn [obind].
  destruct (_dpll (Clauses formula) []) as [s|e|]; cbn [of_run obind bind];
    try reflexivity.
  now destruct (negb (truthy s)).
Qed.

(** X19.  From the file to the answer: on the DIMACS text of a formula
    [dpll] gives what the search and the completion give on the clauses
    of the formula that are not empty and do not start with the literal
    [0], with the declared number of variables; the clauses left out by
    the parser take no part in the answer. *)
Theorem dpll_of_file_on_dimacs_text (n : Z) (cs : list clause) :
  dpll_of_file py_strip py_split py_int (dimacs n cs) =
  of_run (dpll (filter starts_with_literal cs) n).
Proof.
  apply dpll_of_file_declared. unfold dimacs.
  rewrite parse_dimacs_cons, parse_header_line, parse_clause_lines.
  reflexivity.
Qed.
